(** * Settings-grid reconciliation: a shallow embedding of [sheet_helpers]

  The development follows the TypeScript sources: the [SettingMap]
  parameter table, the grid parser [transformToParamValues], the
  [AbstractRuleRange] coordinate space (row index, rule blocks,
  [setRow], [setRules], [getRule], [getValues], [fillRuleValues]), the
  version comparator [sortMigrations] and the version-gated loop of
  [AppsScriptFrontEnd.migrate]; then the earlier revision of the range
  in [common/sheet_helpers.ts], the sheet set-up [initializeRules] with
  the column offsets of [addValidation], [saveSettingsBackToSheets],
  [writeBack], [matrixToCsv] and [addSettingWithDescription]. *)

From Stdlib Require Import Floats ZArith Ascii String.
From Stdlib Require Import Sorting.Sorted Sorting.Permutation.
From stdpp Require Import base list strings.
Import ListNotations.

Local Open Scope string_scope.
Local Open Scope list_scope.
Local Open Scope nat_scope.

(** ** JavaScript values used by the program *)

Module Js.

(** A value typed [string] in the source that may be [undefined] at run
    time (a missing array element or object property). *)
Abbreviation cell := (option string) (only parsing).

Definition undefined : cell := None.

(** [x ?? d] *)
Definition nullish {A} (x : option A) (d : A) : A :=
  match x with Some v => v | None => d end.

(** Conversion of a cell to a property key ([undefined] becomes the key
    ["undefined"]). *)
Definition toKey (c : cell) : string :=
  match c with Some s => s | None => "undefined" end.

(** Truthiness of a string: every string except the empty one. *)
Definition truthy (s : string) : bool := negb (String.eqb s "").

(** [a === b] on cells. *)
Definition cellEqb (a b : cell) : bool :=
  match a, b with
  | Some x, Some y => String.eqb x y
  | None, None => true
  | _, _ => false
  end.

Definition digitOf (c : ascii) : option Z :=
  let n := Z.of_nat (nat_of_ascii c) in
  if ((48 <=? n) && (n <=? 57))%Z then Some (n - 48)%Z else None.

Fixpoint digitsValue (acc : Z) (s : string) : option Z :=
  match s with
  | EmptyString => Some acc
  | String c r =>
      match digitOf c with
      | Some d => digitsValue (10 * acc + d)%Z r
      | None => None
      end
  end.

(** A property key is an array index when it is the canonical decimal
    spelling of an integer below 2^32 - 1; own keys of an object are
    enumerated with the array indices first, in ascending order, and the
    other strings after them in insertion order. *)
Definition arrayIndex (s : string) : option Z :=
  match s with
  | EmptyString => None
  | String c r =>
      if Ascii.eqb c "0" && negb (String.eqb r "") then None
      else match digitsValue 0 s with
           | Some z => if (z <? 4294967295)%Z then Some z else None
           | None => None
           end
  end.

(** [s.split(sep)] for a one-character separator: never empty. *)
Fixpoint split (sep : ascii) (s : string) : list string :=
  match s with
  | EmptyString => [EmptyString]
  | String c r =>
      if Ascii.eqb c sep then EmptyString :: split sep r
      else match split sep r with
           | [] => [String c EmptyString]
           | seg :: segs => String c seg :: segs
           end
  end.

(** [Number(s)] on the strings a version segment can be: a run of
    decimal digits (the empty run is 0); anything else is NaN here.
    The value is exact below 2^53. *)
Definition Number (s : string) : float :=
  match digitsValue 0 s with
  | Some z => PrimFloat.of_uint63 (Uint63.of_Z z)
  | None => PrimFloat.nan
  end.

(** [10 ** i] for a natural exponent. *)
Fixpoint pow10 (i : nat) : float :=
  match i with
  | O => 1%float
  | S j => (pow10 j * 10)%float
  end.

(** One insertion step of a stable sort: [x] goes after every element
    that the comparator does not place after it. *)
Fixpoint sortInsert {A} (gt : A -> A -> bool) (x : A) (l : list A) : list A :=
  match l with
  | [] => [x]
  | y :: r => if gt y x then x :: y :: r else y :: sortInsert gt x r
  end.

(** [l.sort(cmp)], with [gt a b] standing for [cmp(a, b) > 0].  The sort
    of the language is stable; for a comparator that orders by a key
    every stable sort yields this list. *)
Definition sort {A} (gt : A -> A -> bool) (l : list A) : list A :=
  fold_left (fun acc x => sortInsert gt x acc) l [].

(** [a.slice(start, end)] for [start <= end]. *)
Definition slice {A} (start stop : nat) (l : list A) : list A :=
  take (stop - start) (drop start l).

(** Errors thrown by the program. *)
Inductive exn :=
| InputShapeError     (* 'Expected a grid with row and column headers of at least size 2' *)
| MissingDefaultsError (* 'Missing default values definition in fillRow' *)
| TypeError.          (* property access on undefined *)

Inductive result (A : Type) :=
| Ok (a : A)
| Throw (e : exn).
Arguments Ok {A} a.
Arguments Throw {A} e.

Definition bind {A B} (r : result A) (k : A -> result B) : result B :=
  match r with Ok a => k a | Throw e => Throw e end.

End Js.

Notation "'try' x <- r ; k" := (Js.bind r (fun x => k))
  (at level 10, x name, r at level 100, k at level 200).

(** ** Plain objects as ordered finite maps

    Inherited properties of [Object.prototype] are outside the model: a
    key is present exactly when it is an own key. *)

Module Obj.

Abbreviation t V := (list (string * V)) (only parsing).

Fixpoint get {V} (k : string) (o : t V) : option V :=
  match o with
  | [] => None
  | (k', v) :: r => if String.eqb k k' then Some v else get k r
  end.

(** [k in o] *)
Definition has {V} (k : string) (o : t V) : bool :=
  match get k o with Some _ => true | None => false end.

Fixpoint update {V} (k : string) (v : V) (o : t V) : t V :=
  match o with
  | [] => []
  | (k', v') :: r =>
      if String.eqb k k' then (k', v) :: r else (k', v') :: update k v r
  end.

Fixpoint insertIndex {V} (n : Z) (k : string) (v : V) (o : t V) : t V :=
  match o with
  | [] => [(k, v)]
  | (k', v') :: r =>
      match Js.arrayIndex k' with
      | Some m => if (m <? n)%Z then (k', v') :: insertIndex n k v r
                  else (k, v) :: o
      | None => (k, v) :: o
      end
  end.

(** [o[k] = v] *)
Definition set {V} (k : string) (v : V) (o : t V) : t V :=
  if has k o then update k v o
  else match Js.arrayIndex k with
       | Some n => insertIndex n k v o
       | None => o ++ [(k, v)]
       end.

(** [delete o[k]] *)
Definition delete {V} (k : string) (o : t V) : t V :=
  List.filter (fun p => negb (String.eqb k (fst p))) o.

Definition keys {V} (o : t V) : list string := map fst o.
Definition values {V} (o : t V) : list V := map snd o.

(** [Object.fromEntries(l)] *)
Definition fromEntries {V} (l : list (string * V)) : t V :=
  fold_left (fun o p => set (fst p) (snd p) o) l [].

End Obj.

(** ** [Map], keyed by cells, in insertion order *)

Module JsMap.

Abbreviation t V := (list (Js.cell * V)) (only parsing).

Fixpoint get {V} (k : Js.cell) (m : t V) : option V :=
  match m with
  | [] => None
  | (k', v) :: r => if Js.cellEqb k k' then Some v else get k r
  end.

Fixpoint update {V} (k : Js.cell) (v : V) (m : t V) : t V :=
  match m with
  | [] => []
  | (k', v') :: r =>
      if Js.cellEqb k k' then (k', v) :: r else (k', v') :: update k v r
  end.

Definition set {V} (k : Js.cell) (v : V) (m : t V) : t V :=
  match get k m with
  | Some _ => update k v m
  | None => m ++ [(k, v)]
  end.

(** [new Map(values)] *)
Definition ofList {V} (l : list (Js.cell * V)) : t V :=
  fold_left (fun m p => set (fst p) (snd p) m) l [].

End JsMap.

(** ** Arrays with holes *)

Module Arr.

Abbreviation t A := (list (option A)) (only parsing).

(** [a[i]], [undefined] on a hole and past the end. *)
Definition get {A} (i : nat) (a : t A) : option A :=
  match a !! i with Some x => x | None => None end.

(** [a[i] = v]: past the end the array grows, leaving holes. *)
Definition set {A} (i : nat) (v : A) (a : t A) : t A :=
  if i <? length a then <[i := Some v]> a
  else a ++ replicate (i - length a) None ++ [Some v].

End Arr.

(** ** ParamValueTable: [SettingMap] *)

(** A settings record [P]: parameter key to raw value. *)
Abbreviation Settings := (Obj.t Js.cell) (only parsing).

Module SettingMap.

Record t := mk {
  map : JsMap.t Settings;
  keys : list string
}.

(** [constructor(values)]: [values[0][1]] is read without a guard, so
    the empty array raises a TypeError. *)
Definition new (values : list (Js.cell * Settings)) : Js.result t :=
  match values with
  | [] => Js.Throw Js.TypeError
  | (_, first) :: _ => Js.Ok (mk (JsMap.ofList values) (Obj.keys first))
  end.

(** [get(id)]: returns the stored record, or stores and returns a record
    of empty strings. *)
Definition get (id : string) (sm : t) : Settings * t :=
  match JsMap.get (Some id) (map sm) with
  | Some obj => (obj, sm)
  | None =>
      let newObj := Obj.fromEntries (List.map (fun k => (k, Some "")) (keys sm)) in
      (newObj, mk (JsMap.set (Some id) newObj (map sm)) (keys sm))
  end.

(** The value [getOrDefault] computes for one key. *)
Definition resolve (defaultValue campaignValue : Settings) (key : string) : string :=
  Js.nullish
    (if negb (Obj.has key campaignValue)
        || Js.cellEqb (Js.nullish (Obj.get key campaignValue) None) (Some "")
     then Js.nullish (Obj.get key defaultValue) None
     else Js.nullish (Obj.get key campaignValue) None)
    "".

(** [getOrDefault(id)], returned together with the table it leaves. *)
Definition getOrDefault (id : string) (sm : t) : Obj.t string * t :=
  let defaultValue := Js.nullish (JsMap.get (Some "default") (map sm)) [] in
  let campaignValue := Js.nullish (JsMap.get (Some id) (map sm)) [] in
  (fold_left
     (fun prev key => Obj.set key (resolve defaultValue campaignValue key) prev)
     (keys sm) [],
   sm).

(** [entries()] *)
Definition entries (sm : t) : list (Js.cell * list Js.cell) :=
  List.map (fun p => (fst p, Obj.values (snd p))) (map sm).

(** [set(id, setting)] *)
Definition set (id : string) (setting : Settings) (sm : t) : t :=
  mk (JsMap.set (Some id) setting (map sm)) (keys sm).

End SettingMap.

(** ** GridParser *)

Record ParamDefinition := { label : string }.

(** [headers.indexOf(x)], [None] standing for -1. *)
Fixpoint indexOf (x : string) (l : list string) : option nat :=
  match l with
  | [] => None
  | y :: r => if String.eqb y x then Some 0
              else match indexOf x r with Some i => Some (S i) | None => None end
  end.

(** The inner function [forEachRow] of [transformToParamValues]. *)
Definition forEachRow (headers : list string) (mapper : Obj.t ParamDefinition)
    (row : list string) : Js.cell * Settings :=
  (row !! 0,
   Obj.fromEntries
     (List.map
        (fun p => (fst p,
                   match indexOf (label (snd p)) headers with
                   | Some i => row !! i
                   | None => None
                   end))
        mapper)).

Definition transformToParamValues (rawSettings : list (list string))
    (mapper : Obj.t ParamDefinition) : Js.result SettingMap.t :=
  if length rawSettings <? 2 then Js.Throw Js.InputShapeError
  else
    let headers := Js.nullish (rawSettings !! 0) [] in
    let body := drop 1 rawSettings in
    SettingMap.new (List.map (forEachRow headers mapper) body).

(** [makeCampaignIndexedSettings(headers, currentSettings)] *)
Definition cellAt (l : list Js.cell) (i : nat) : Js.cell :=
  Js.nullish (l !! i) None.

Definition makeCampaignIndexedSettings (headers : list Js.cell)
    (currentSettings : list (list Js.cell)) : Obj.t (Obj.t Js.cell) :=
  fold_left
    (fun result row =>
       let campaignId := Js.toKey (cellAt row 0) in
       fold_left
         (fun result c =>
            let inner := Js.nullish (Obj.get campaignId result) [] in
            Obj.set campaignId
              (Obj.set (Js.toKey (cellAt headers (c - 1))) (cellAt row c) inner)
              result)
         (seq 1 (length row - 1)) result)
    currentSettings [].

(** ** RuleColumnRange: [AbstractRuleRange] *)

Abbreviation Row := (list string) (only parsing).

Record RecordInfo := { id : string; displayName : string }.

(** The fields of a [ruleStore] entry that the range reads. *)
Record RuleExecutor := { granularity : string; helper : string }.

Record Client := { ruleStore : Obj.t RuleExecutor }.

(** The fields of a rule definition that [fillRuleValues] picks.  The
    declared type of [defaults] gives every parameter key a string. *)
Record RuleDefinition := {
  name : string;
  params : Obj.t ParamDefinition;
  defaults : option (string -> string);
  ruleGranularity : string
}.

(** [for (let c = values[0].length - 1; c > 0; c--) ...] *)
Definition dedupStep (row : Row) (c : nat) : Row :=
  <[c := if Js.cellEqb (row !! (c - 1)) (row !! c) then ""
         else Js.nullish (row !! c) ""]> row.

Definition dedupHeader (row : Row) : Row :=
  fold_left dedupStep (rev (seq 1 (length row - 1))) row.

(** [for (col = 0; ...) if (range[0][col]) ...] followed by the closing
    threshold. *)
Definition thresholdsOf (header : Row) : list (nat * nat) :=
  let scan :=
    fold_left
      (fun st col =>
         if Js.truthy (Js.nullish (header !! col) "")
         then (col, snd st ++ [(fst st, col)])
         else st)
      (seq 0 (length header)) (0, []) in
  if fst scan =? length header then snd scan
  else snd scan ++ [(fst scan, length header)].

(** [range[0][start] || 'none'] *)
Definition categoryAt (header : Row) (start : nat) : string :=
  let h := Js.nullish (header !! start) "" in
  if Js.truthy h then h else "none".

(** [row && row.length] *)
Definition nonEmptyRow (r : option Row) : bool :=
  match r with Some (_ :: _) => true | _ => false end.

Definition isDefined {A} (x : option A) : bool :=
  match x with Some _ => true | None => false end.

Module AbstractRuleRange.

Record t := mk {
  rowIndex : Obj.t nat;
  columnOrders : Obj.t (Obj.t nat);
  rules : Obj.t (Arr.t Row);
  length : nat;
  client : Client
}.

Definition setRow (category id : string) (column : Row) (s : t) : t :=
  if String.eqb id "" then s
  else
    let known := Obj.get id (rowIndex s) in
    let len := match known with Some _ => length s | None => S (length s) end in
    let ri := match known with
              | Some _ => rowIndex s
              | None => Obj.set id len (rowIndex s)
              end in
    let i := match known with Some i => i | None => len end in
    let arr := Js.nullish (Obj.get category (rules s)) [] in
    mk ri (columnOrders s) (Obj.set category (Arr.set i column arr) (rules s))
       len (client s).

(** Entries of the row index, sorted by position. *)
Definition sortedEntries (ri : Obj.t nat) : list (string * nat) :=
  Js.sort (fun a b => snd b <? snd a) ri.

(** The accumulator of the reduction in [getValues]: the two header rows,
    the rows below them, and [newRowIndex]. *)
Record Acc := mkAcc {
  row0 : Row;
  row1 : Row;
  body : list Row;
  newRowIndex : Obj.t nat
}.

Definition SHEET_TOP_PADDING : nat := 2.

(** The number of columns of a block: the length of its first row that
    is neither a hole nor empty. *)
Definition columnCount (rangeRaw : Arr.t Row) : nat :=
  match List.filter nonEmptyRow rangeRaw with
  | Some r :: _ => List.length r
  | _ => 0
  end.

(** The body of the reduction for a block that is emitted. *)
Definition appendBlock (s : t) (acc : Acc) (category : string)
    (rangeRaw : Arr.t Row) : Acc :=
  let ruleSettingColumnCount := columnCount rangeRaw in
  let ruleSettingColumnOffset := List.length (row0 acc) in
  let r0 := row0 acc ++
            replicate ruleSettingColumnCount
              (if String.eqb category "none" then "" else category) in
  let r1 :=
    if String.eqb category "none" then [""; ""]
    else row1 acc ++
         imap (fun idx (_ : string) =>
                 if idx =? 0 then
                   match Obj.get (Js.toKey (r0 !! (idx + ruleSettingColumnOffset)))
                           (ruleStore (client s)) with
                   | Some r => helper r
                   | None => ""
                   end
                 else "")
              (replicate ruleSettingColumnCount "") in
  let sorted := sortedEntries (rowIndex s) in
  let rows :=
    imap (fun postSortedOrdinalValue e =>
            Js.nullish (body acc !! postSortedOrdinalValue) [] ++
            Js.nullish (Arr.get (snd e) rangeRaw)
              (replicate ruleSettingColumnCount ""))
         sorted ++ drop (List.length sorted) (body acc) in
  let nri :=
    fold_left (fun o p => Obj.set (fst (snd p)) (fst p + SHEET_TOP_PADDING) o)
      (imap pair sorted) (newRowIndex acc) in
  mkAcc r0 r1 rows nri.

Definition getValuesStep (filter : option string) (s : t) (acc : Acc)
    (entry : string * Arr.t Row) : Js.result Acc :=
  let category := fst entry in
  let rangeRaw := snd entry in
  try skip <-
    match filter with
    | Some g =>
        if Js.truthy g && negb (String.eqb category "none") then
          match Obj.get category (ruleStore (client s)) with
          | Some r => Js.Ok (negb (String.eqb (granularity r) g))
          | None => Js.Throw Js.TypeError
          end
        else Js.Ok false
    | None => Js.Ok false
    end;
  if (skip : bool) then Js.Ok acc
  else if columnCount rangeRaw =? 0 then Js.Ok acc
  else Js.Ok (appendBlock s acc category rangeRaw).

Fixpoint reduce {A B} (f : B -> A -> Js.result B) (l : list A) (b : B) : Js.result B :=
  match l with
  | [] => Js.Ok b
  | x :: r => try b' <- f b x; reduce f r b'
  end.

(** [getValues(ruleGranularity?)]: the grid and the range it leaves. *)
Definition getValues (filter : option string) (s : t) : Js.result (list Row * t) :=
  try acc <- reduce (getValuesStep filter s) (rules s) (mkAcc [] [] [] (rowIndex s));
  Js.Ok (dedupHeader (row0 acc) :: row1 acc :: body acc,
         mk (newRowIndex acc) (columnOrders s) (rules s) (length s) (client s)).

Definition getRule (ruleName : string) (s : t) : Js.result (list (list Js.cell)) :=
  match Obj.get ruleName (rules s) with
  | None => Js.Ok []
  | Some rule =>
      if List.length rule =? 0 then Js.Ok []
      else
        match Obj.get "none" (rules s) with
        | None =>
            match rowIndex s with [] => Js.Ok [] | _ => Js.Throw Js.TypeError end
        | Some none =>
            Js.Ok
              (List.map
                 (fun index =>
                    Js.nullish (Arr.get index none) [] !! 0
                    :: List.map Some (Js.nullish (Arr.get index rule) []))
                 (Js.sort (fun a b => b <? a)
                    (List.filter
                       (fun index => isDefined (Arr.get index none)
                                     && isDefined (Arr.get index rule))
                       (Obj.values (rowIndex s)))))
        end
  end.

(** [setRule(ruleName, ruleValues)] *)
Definition setRule (ruleName : string) (ruleValues : list Row) (s : t) : t :=
  fold_left
    (fun s row => setRow ruleName (Js.toKey (row !! 0)) (drop 1 row) s)
    ruleValues s.

(** The calls of [setRow] that [setRules] makes for one row. *)
Definition setRulesRow (header : Row) (thresholds : list (nat * nat))
    (s : t) (row : Row) : t :=
  fold_left
    (fun s th =>
       setRow (categoryAt header (fst th)) (Js.toKey (row !! 0))
              (Js.slice (fst th) (snd th) row) s)
    thresholds s.

Definition setRules (range : list Row) (s : t) : Js.result t :=
  match range with
  | [] => Js.Throw Js.TypeError
  | header :: _ =>
      Js.Ok (fold_left (setRulesRow header (thresholdsOf header)) range s)
  end.

Definition defaultHeaders : list string := ["ID"; "default"].

Definition new (range : list Row) (client : Client)
    (constantHeaders : list string) : Js.result t :=
  let ri := fold_left (fun o p => Obj.set (snd p) (fst p) o)
                      (imap pair constantHeaders) [] in
  setRules range
    (mk ri [] [("none", [Some []])] (List.length (Obj.keys ri)) client).

(** [this.columnOrders[rule.name] = this.columnOrders[rule.name] || indexByHeader] *)
Definition recordColumnOrder (rule : RuleDefinition) (s : t) : t :=
  let indexByHeader :=
    fold_left (fun o p => Obj.set (label (snd (snd p))) (fst p) o)
              (imap pair (params rule)) [] in
  mk (rowIndex s)
     (Obj.set (name rule)
        (Js.nullish (Obj.get (name rule) (columnOrders s)) indexByHeader)
        (columnOrders s))
     (rules s) (length s) (client s).

(** The calls of [setRow] in [fillRuleValues]: the sentinel rows, then
    two rows per record. *)
Definition fillRows (rule : RuleDefinition) (ruleDefaults : string -> string)
    (ruleValues : list (list Js.cell)) (rows : list RecordInfo) (s1 : t) : t :=
  let entries := params rule in
  let headersByIndex := List.map (fun p => label (snd p)) entries in
  let paramsByHeader :=
    fold_left (fun o p => Obj.set (label (snd p)) (fst p) o) entries [] in
  let currentSettings :=
    makeCampaignIndexedSettings
      (match ruleValues with r0 :: _ => drop 1 r0 | [] => [] end)
      ruleValues in
  let declared (h : string) : string :=
    ruleDefaults (Js.toKey (Obj.get h paramsByHeader)) in
  let stored (rowId : string) (h : string) : Js.cell :=
    match Obj.get rowId currentSettings with
    | Some inner => Js.nullish (Obj.get h inner) None
    | None => None
    end in
  let s2 := setRow "none" "ID" ["ID"; String.append (ruleGranularity rule) " Name"] s1 in
  let s3 := setRow (name rule) "ID" headersByIndex s2 in
  let s4 := setRow "none" "default" ["default"; ""] s3 in
  let s5 :=
    setRow (name rule) "default"
      (List.map (fun h => Js.nullish (stored "default" h) (declared h))
                headersByIndex) s4 in
  fold_left
    (fun s record =>
       setRow "none" (id record) [id record; displayName record]
         (setRow (name rule) (id record)
            (List.map (fun h => Js.nullish (stored (id record) h) "")
                      headersByIndex) s))
    rows s5.

(** The closing loop of [fillRuleValues]: every key of the row index
    that is not in [inSystem] is deleted. *)
Definition prune (inSystem : list string) (ri : Obj.t nat) : Obj.t nat :=
  fold_left
    (fun o k => if existsb (String.eqb k) inSystem then o else Obj.delete k o)
    (Obj.keys ri) ri.

Definition pruneRows (rows : list RecordInfo) (s6 : t) : t :=
  mk (prune ("ID" :: "default" :: List.map id rows) (rowIndex s6))
     (columnOrders s6) (rules s6) (length s6) (client s6).

(** [fillRuleValues(rule)], with [rows] the records [getRows] resolves to. *)
Definition fillRuleValues (rule : RuleDefinition) (rows : list RecordInfo)
    (s : t) : Js.result t :=
  match defaults rule with
  | None => Js.Throw Js.MissingDefaultsError
  | Some ruleDefaults =>
      let s1 := recordColumnOrder rule s in
      try ruleValues <- getRule (name rule) s1;
      Js.Ok (pruneRows rows (fillRows rule ruleDefaults ruleValues rows s1))
  end.

End AbstractRuleRange.

(** ** VersionComparator *)

(** [sortMigrations(ver1, ver2)]: the weighted sum of the per-segment
  differences, computed in binary64 as the source does. *)
Definition sortMigrations (ver1 ver2 : string) : float :=
  let keys1 := map Js.Number (Js.split "." ver1) in
  let keys2 := map Js.Number (Js.split "." ver2) in
  fold_left
    (fun difference i =>
       (difference + (nth i keys1 0 - nth i keys2 0) / Js.pow10 i)%float)
    (seq 0 (Nat.max (length keys1) (length keys2)))
    0%float.

Definition negative (d : float) : bool := PrimFloat.ltb d 0%float.
Definition positive (d : float) : bool := PrimFloat.ltb 0%float d.

Definition nonNegative (d : float) : bool := PrimFloat.leb 0%float d.

(** ** Migration runner: [AppsScriptFrontEnd.migrate] *)

(** What a run of [migrate] does to the outside: it invokes migration
    callbacks and writes the script property ['sheet_version']. *)
Inductive event :=
| Invoked (version : string)
| Persisted (version : string).

(** A migration callback, as far as [migrate] can tell: it returns
    ([true]) or throws ([false]). *)
Abbreviation Migration := bool (only parsing).

Record Script := mkScript {
  sheet_version : option string;   (* the script property *)
  trace : list event
}.

Definition setProperty (v : string) (w : Script) : Script :=
  mkScript (Some v) (trace w ++ [Persisted v]).

Definition invoke (v : string) (w : Script) : Script :=
  mkScript (sheet_version w) (trace w ++ [Invoked v]).

(** The [for ... of migrations] loop; the first component is
    [numberOfMigrations], or the error a callback threw. *)
Fixpoint migrateLoop (target sheetVersion : string)
    (migrations : list (string * Migration)) (numberOfMigrations : nat)
    (w : Script) : Js.result nat * Script :=
  match migrations with
  | [] => (Js.Ok numberOfMigrations, w)
  | (version, migration) :: rest =>
      if nonNegative (sortMigrations version target) then
        (Js.Ok numberOfMigrations, w)
      else if positive (sortMigrations version sheetVersion) then
        if (migration : bool) then
          migrateLoop target sheetVersion rest (S numberOfMigrations)
            (setProperty version (invoke version w))
        else (Js.Throw Js.TypeError, invoke version w)
      else migrateLoop target sheetVersion rest numberOfMigrations w
  end.

(** [Object.entries(migrations).sort((t1, t2) => sortMigrations(t1[0], t2[0]))] *)
Definition sortedMigrations (migrations : Obj.t Migration) : list (string * Migration) :=
  Js.sort (fun t1 t2 => positive (sortMigrations (fst t1) (fst t2))) migrations.

(** [migrate()], for the front end whose [injectedArgs] carry [version]
    and [migrations]. *)
Definition migrate (version : string) (migrations : Obj.t Migration)
    (w : Script) : Js.result nat * Script :=
  let sheetVersion := Js.nullish (sheet_version w) "0" in
  let w1 := if Js.truthy sheetVersion then w else setProperty version w in
  match migrateLoop version sheetVersion (sortedMigrations migrations) 0 w1 with
  | (Js.Ok n, w2) =>
      (Js.Ok n,
       if String.eqb sheetVersion version then w2 else setProperty version w2)
  | (Js.Throw e, w2) => (Js.Throw e, w2)
  end.

(** ** The earlier revision of the rule range: common/sheet_helpers.ts

    The class [AbstractRuleRange] of [common/sheet_helpers.ts] keeps no
    counter: [setRow] puts a new entity at the number of keys of the row
    index, and [fillRuleValues] deletes nothing. *)

Module Legacy.

Record t := mk {
  rowIndex : Obj.t nat;
  columnOrders : Obj.t (Obj.t nat);
  rules : Obj.t (Arr.t Row);
  client : Client
}.

(** [setRow(category, campaignId, column)] *)
Definition setRow (category campaignId : string) (column : Row) (s : t) : t :=
  if String.eqb campaignId "" then s
  else
    let i := Js.nullish (Obj.get campaignId (rowIndex s))
                        (List.length (Obj.keys (rowIndex s))) in
    let arr := Js.nullish (Obj.get category (rules s)) [] in
    mk (Obj.set campaignId i (rowIndex s)) (columnOrders s)
       (Obj.set category (Arr.set i column arr) (rules s)) (client s).

(** [setRule(ruleName, ruleValues)] *)
Definition setRule (ruleName : string) (ruleValues : list Row) (s : t) : t :=
  fold_left
    (fun s row => setRow ruleName (Js.toKey (row !! 0)) (drop 1 row) s)
    ruleValues s.

(** [this.setRule(range[0][start] || 'none', ruleRange)] in the
    constructor, where [ruleRange] holds for every row [r] below the first
    the row [[r[0], ...r.slice(start, col)]], which [setRule] takes apart
    again. *)
Definition setRuleCut (range : list Row) (header : Row) (start col : nat)
    (s : t) : t :=
  fold_left
    (fun s r => setRow (categoryAt header start) (Js.toKey (r !! 0))
                       (Js.slice start col r) s)
    (drop 1 range) s.

(** The constructor: the loop over the columns of the first row, then
    the block that is still open. *)
Definition new (range : list Row) (client : Client) (headers : list string)
  : Js.result t :=
  let ri := fold_left (fun o p => Obj.set (snd p) (fst p) o)
                      (imap pair headers) [] in
  match range with
  | [] => Js.Throw Js.TypeError
  | header :: _ =>
      let scan :=
        fold_left
          (fun st col =>
             if Js.truthy (Js.nullish (header !! col) "")
             then (col, setRuleCut range header (fst st) col (snd st))
             else st)
          (seq 0 (length header))
          (0, mk ri [] [("none", [Some []])] client) in
      Js.Ok (setRuleCut range header (fst scan) (length header) (snd scan))
  end.

(** [getRule(ruleName)] *)
Definition getRule (ruleName : string) (s : t) : Js.result (list (list Js.cell)) :=
  match Obj.get ruleName (rules s) with
  | None => Js.Ok []
  | Some rule =>
      if List.length rule =? 0 then Js.Ok []
      else
        match Obj.get "none" (rules s) with
        | None =>
            match rowIndex s with [] => Js.Ok [] | _ => Js.Throw Js.TypeError end
        | Some none =>
            Js.Ok
              (List.map
                 (fun index =>
                    Js.nullish (Arr.get index none) [] !! 0
                    :: List.map Some (Js.nullish (Arr.get index rule) []))
                 (Js.sort (fun a b => b <? a)
                    (List.filter
                       (fun index => isDefined (Arr.get index none)
                                     && isDefined (Arr.get index rule))
                       (Obj.values (rowIndex s)))))
        end
  end.

(** [this.columnOrders[rule.name] = this.columnOrders[rule.name] || indexByHeader] *)
Definition recordColumnOrder (rule : RuleDefinition) (s : t) : t :=
  let indexByHeader :=
    fold_left (fun o p => Obj.set (label (snd (snd p))) (fst p) o)
              (imap pair (params rule)) [] in
  mk (rowIndex s)
     (Obj.set (name rule)
        (Js.nullish (Obj.get (name rule) (columnOrders s)) indexByHeader)
        (columnOrders s))
     (rules s) (client s).

(** The calls of [setRow] in [fillRuleValues]. *)
Definition fillRows (rule : RuleDefinition) (ruleDefaults : string -> string)
    (ruleValues : list (list Js.cell)) (rows : list RecordInfo) (s1 : t) : t :=
  let entries := params rule in
  let headersByIndex := List.map (fun p => label (snd p)) entries in
  let paramsByHeader :=
    fold_left (fun o p => Obj.set (label (snd p)) (fst p) o) entries [] in
  let currentSettings :=
    makeCampaignIndexedSettings
      (match ruleValues with r0 :: _ => drop 1 r0 | [] => [] end)
      ruleValues in
  let declared (h : string) : string :=
    ruleDefaults (Js.toKey (Obj.get h paramsByHeader)) in
  let stored (rowId : string) (h : string) : Js.cell :=
    match Obj.get rowId currentSettings with
    | Some inner => Js.nullish (Obj.get h inner) None
    | None => None
    end in
  let s2 := setRow "none" "ID" ["ID"; "Campaign Name"] s1 in
  let s3 := setRow (name rule) "ID" headersByIndex s2 in
  let s4 := setRow "none" "default" ["default"; ""] s3 in
  let s5 :=
    setRow (name rule) "default"
      (List.map (fun h => Js.nullish (stored "default" h) (declared h))
                headersByIndex) s4 in
  fold_left
    (fun s record =>
       setRow "none" (id record) [id record; displayName record]
         (setRow (name rule) (id record)
            (List.map (fun h => Js.nullish (stored (id record) h) "")
                      headersByIndex) s))
    rows s5.

(** [fillRuleValues(rule)], with [rows] the records [getRows] resolves to. *)
Definition fillRuleValues (rule : RuleDefinition) (rows : list RecordInfo)
    (s : t) : Js.result t :=
  match defaults rule with
  | None => Js.Throw Js.MissingDefaultsError
  | Some ruleDefaults =>
      let s1 := recordColumnOrder rule s in
      try ruleValues <- getRule (name rule) s1;
      Js.Ok (fillRows rule ruleDefaults ruleValues rows s1)
  end.

(** States reached through the constructor, [setRow], [setRule] and
    [fillRuleValues]. *)
Inductive reachable : t -> Prop :=
| reach_new range client s :
    new range client ["ID"; "default"] = Js.Ok s -> reachable s
| reach_setRow category campaignId column s :
    reachable s -> reachable (setRow category campaignId column s)
| reach_setRule ruleName ruleValues s :
    reachable s -> reachable (setRule ruleName ruleValues s)
| reach_fillRuleValues rule rows s s' :
    reachable s -> fillRuleValues rule rows s = Js.Ok s' -> reachable s'.

End Legacy.

(** ** [initializeRules], for one sheet

    The part of [initializeRules] that decides what is written where: the
    range is built from the values of the sheet, every rule class of the
    sheet is reconciled, handed its settings and given a column offset,
    and the grid to write is computed.  The calls that only format the
    sheet are left out; [rows] stands for what [getRows] resolves to. *)

(** A rule class as [initializeRules] uses it: its definition, and the
    text [ruleDefinition.helper ?? ''] that its instances bear. *)
Record RuleClass := { definition : RuleDefinition; classHelper : string }.

(** [this.client.addRule(rule, ruleValues)], seen from the range, which
    shares the client: the instance is built, its constructor calling
    [transformToParamValues(ruleValues, params)], which throws on a grid
    of less than two rows, and is put in the rule store under the name of
    the rule. *)
Definition addRule (rule : RuleClass) (ruleValues : list (list Js.cell))
    (s : AbstractRuleRange.t) : Js.result AbstractRuleRange.t :=
  if length ruleValues <? 2 then Js.Throw Js.InputShapeError
  else
    Js.Ok (AbstractRuleRange.mk (AbstractRuleRange.rowIndex s) (AbstractRuleRange.columnOrders s) (AbstractRuleRange.rules s) (AbstractRuleRange.length s)
             {| ruleStore :=
                  Obj.set (name (definition rule))
                    {| granularity := ruleGranularity (definition rule);
                       helper := classHelper rule |}
                    (ruleStore (AbstractRuleRange.client s)) |}).

(** The variables of the loop over the rule classes. *)
Record InitState := {
  rules : AbstractRuleRange.t;
  offsets : Obj.t Z;
  currentOffset : Z
}.

(** The body of the loop over the rule classes of a sheet. *)
Definition initializeRulesStep (rows : list RecordInfo) (st : InitState)
    (rule : RuleClass) : Js.result InitState :=
  try s1 <- AbstractRuleRange.fillRuleValues (definition rule) rows (rules st);
  try ruleValues <- AbstractRuleRange.getRule (name (definition rule)) s1;
  try s2 <- addRule rule ruleValues s1;
  match ruleValues with
  | [] => Js.Throw Js.TypeError
  | r0 :: _ =>
      Js.Ok {| rules := s2;
               offsets := Obj.set (name (definition rule))
                            (currentOffset st - 1)%Z (offsets st);
               currentOffset := (currentOffset st + (Z.of_nat (length r0) - 1))%Z |}
  end.

(** One turn of the loop over the sheets: the grid that is written to
    the sheet, and the offsets. *)
Definition initializeRules (sheetValues : list Row) (client : Client)
    (rows : list RecordInfo) (ruleClasses : list RuleClass)
  : Js.result (list Row * Obj.t Z) :=
  try s0 <- AbstractRuleRange.new sheetValues client AbstractRuleRange.defaultHeaders;
  try st <- AbstractRuleRange.reduce (initializeRulesStep rows) ruleClasses
              {| rules := s0; offsets := []; currentOffset := 4 |};
  try out <- AbstractRuleRange.getValues None (rules st);
  Js.Ok (fst out, offsets st).


(** ** [matrixToCsv] *)

(** The double quote, the comma and the line feed. *)
Definition dquote : ascii := ascii_of_nat 34.
Definition comma : ascii := ascii_of_nat 44.
Definition linefeed : ascii := ascii_of_nat 10.

(** [col.replaceAll(c, by)] for a pattern of one character. *)
Fixpoint replaceAll (col : string) (c : ascii) (by_ : string) : string :=
  match col with
  | EmptyString => EmptyString
  | String a rest =>
      String.append (if Ascii.eqb a c then by_ else String a EmptyString)
                    (replaceAll rest c by_)
  end.

(** The cell as it is written: between quotes, every quote tripled. *)
Definition quoted (col : string) : string :=
  String dquote
    (String.append
       (replaceAll col dquote (String dquote (String dquote (String dquote EmptyString))))
       (String dquote EmptyString)).

(** [matrixToCsv(matrix)] *)
Definition matrixToCsv (matrix : list (list string)) : string :=
  String.concat (String linefeed EmptyString)
    (List.map (fun row => String.concat (String comma EmptyString)
                            (List.map quoted row))
              matrix).

(** ** [addSettingWithDescription] *)

(** The two text styles of a setting. *)
Inductive TextStyle := bold | small.

(** A rich text value as its builder is given it: the text, and the
    styled ranges, each from a start offset to an end offset that is not
    itself styled. *)
Record RichTextValue := {
  richText : string;
  textStyles : list (nat * nat * TextStyle)
}.

(** The value that [addSettingWithDescription(sheet, rangeName, text)]
    puts in the range, for [text = [headline, description]]. *)
Definition addSettingWithDescription (headline description : string)
  : RichTextValue :=
  {| richText := String.concat (String linefeed EmptyString) [headline; description];
     textStyles :=
       [(0, String.length headline, bold);
        (String.length headline,
         String.length headline + String.length description, small)] |}.

(** ** Definitions that follow the words of the specification *)

(** Per-segment numeric comparison, earlier segments dominating, a
    missing segment counting as zero. *)
Definition versionSegments (v : string) : list Z :=
  List.map (fun seg => Js.nullish (Js.digitsValue 0 seg) 0%Z) (Js.split "." v).

Definition versionCompare (v1 v2 : string) : comparison :=
  let k1 := versionSegments v1 in
  let k2 := versionSegments v2 in
  fold_left
    (fun c i => match c with
                | Eq => Z.compare (nth i k1 0%Z) (nth i k2 0%Z)
                | _ => c
                end)
    (seq 0 (Nat.max (length k1) (length k2))) Eq.

(** [entries()] read as the values of every record at the key set fixed
    at construction. *)
Definition entriesByKeys (sm : SettingMap.t) : list (Js.cell * list Js.cell) :=
  List.map
    (fun p => (fst p,
               List.map (fun k => Js.nullish (Obj.get k (snd p)) None)
                        (SettingMap.keys sm)))
    (SettingMap.map sm).

(** Number of columns of a grid, read off its header row. *)
Definition columns (grid : list (list string)) : nat :=
  length (Js.nullish (grid !! 0) []).

Fixpoint takeWhile {A} (p : A -> bool) (l : list A) : list A :=
  match l with
  | [] => []
  | x :: r => if p x then x :: takeWhile p r else []
  end.

(** * Notions used in the statements and proofs *)

Module RR := AbstractRuleRange.

(** The position [RR.setRow] writes at. *)
Definition positionFor (id : string) (s : RR.t) : nat :=
  match Obj.get id (RR.rowIndex s) with
  | Some i => i
  | None => S (RR.length s)
  end.

(** ** Parameter tables *)

(** The record stored for [id], the empty record when there is none. *)
Definition storedRecord (id : string) (sm : SettingMap.t) : Settings :=
  Js.nullish (JsMap.get (Some id) (SettingMap.map sm)) [].


(** ** The rule-name row *)

(** The value the loop leaves in column [c] of a header row. *)
Definition dedupCell (raw : Row) (c : nat) : option string :=
  match raw !! c with
  | Some x =>
      Some (if (0 <? c) && Js.cellEqb (raw !! (c - 1)) (Some x) then "" else x)
  | None => None
  end.

(** The header row accumulated by the reduction of [getValues], before
    the de-duplication loop runs over it. *)
Definition rawHeader (filter : option string) (s : AbstractRuleRange.t)
  : Js.result Row :=
  try acc <- AbstractRuleRange.reduce (AbstractRuleRange.getValuesStep filter s)
               (AbstractRuleRange.rules s)
               (AbstractRuleRange.mkAcc [] [] [] (AbstractRuleRange.rowIndex s));
  Js.Ok (AbstractRuleRange.row0 acc).

(** ** Pending migrations *)

(** The migrations the loop reaches before it breaks: those met before
    the first one that does not compare below the target. *)
Definition reached (target : string) (ms : list (string * Migration))
  : list (string * Migration) :=
  takeWhile (fun m => negb (nonNegative (sortMigrations (fst m) target))) ms.




Fixpoint runPending (todo : list (string * Migration)) (n : nat) (w : Script)
  : Js.result nat * Script :=
  match todo with
  | [] => (Js.Ok n, w)
  | (v, true) :: rest => runPending rest (S n) (setProperty v (invoke v w))
  | (v, false) :: _ => (Js.Throw Js.TypeError, invoke v w)
  end.


(** ** The scenario of the specification *)

Definition scenarioClient : Client :=
  {| ruleStore := [("A", {| granularity := "g"; helper := "helpA" |})] |}.

Definition scenarioGrid : list Row :=
  [[""; "A"; ""];
   ["ID"; "label1"; "label2"];
   ["default"; ""; "d2"];
   ["1"; "v1"; ""]].

(** Rule A of the scenario: [p2] has the default "d2". *)
Definition scenarioRule : RuleDefinition :=
  {| name := "A";
     params := [("p1", {| label := "label1" |}); ("p2", {| label := "label2" |})];
     defaults := Some (fun k => if String.eqb k "p2" then "d2" else "");
     ruleGranularity := "g" |}.

(** The range that the constructor builds from [scenarioGrid]. *)
Definition scenarioRange : AbstractRuleRange.t :=
  AbstractRuleRange.mk
    [("1", 3); ("ID", 0); ("default", 1)]
    []
    [("none", [Some ["ID"]; Some ["default"]; None; Some ["1"]]);
     ("A", [Some ["label1"; "label2"]; Some [""; "d2"]; None; Some ["v1"; ""]])]
    3
    scenarioClient.

Definition scenarioValues : list Row :=
  [[""; "A"; ""];
   [""; ""; "helpA"; ""];
   ["ID"; "label1"; "label2"];
   ["default"; ""; "d2"];
   ["1"; "v1"; ""]].

Definition scenarioRangeAfter : AbstractRuleRange.t :=
  AbstractRuleRange.mk
    [("1", 4); ("ID", 2); ("default", 3)]
    (AbstractRuleRange.columnOrders scenarioRange)
    (AbstractRuleRange.rules scenarioRange)
    3
    scenarioClient.

(** The row [getRule] emits for a row index. *)
Definition joinedRow (none rule : Arr.t Row) (index : nat) : list Js.cell :=
  Js.nullish (Arr.get index none) [] !! 0
  :: List.map Some (Js.nullish (Arr.get index rule) []).

Definition inBoth (none rule : Arr.t Row) (index : nat) : bool :=
  isDefined (Arr.get index none) && isDefined (Arr.get index rule).

(** The state of [fillRuleValues] before the pruning loop: a run of
    [RR.setRow] calls on the state with the column order recorded. *)
Definition touch (ids : list string) (s : RR.t) (s' : RR.t)
  : Prop :=
  (forall k i, Obj.get k (RR.rowIndex s) = Some i -> Obj.get k (RR.rowIndex s') = Some i)
  /\ (forall k, In k (Obj.keys (RR.rowIndex s'))
                <-> In k (Obj.keys (RR.rowIndex s)) \/ (In k ids /\ k <> "")).

Definition scenarioRecords : list RecordInfo :=
  [{| id := "7"; displayName := "Campaign 7" |}].

(** The scenario range after a pass that finds campaign 7 only. *)
Definition scenarioFilled : RR.t :=
  RR.mk
    [("7", 4); ("ID", 0); ("default", 1)]
    [("A", [("label1", 0); ("label2", 1)])]
    [("none", [Some ["ID"; "g Name"]; Some ["default"; ""]; None; Some ["1"];
               Some ["7"; "Campaign 7"]]);
     ("A", [Some ["label1"; "label2"]; Some [""; "d2"]; None; Some ["v1"; ""];
            Some [""; ""]])]
    4
    scenarioClient.

(** ** Positions in the row index *)

(** [s'] comes from [s] by calls of [setRow]. *)
Inductive viaSetRow (s : RR.t) : RR.t -> Prop :=
| via_refl : viaSetRow s s
| via_setRow s' category id column :
    viaSetRow s s' -> viaSetRow s (RR.setRow category id column s').

(** Distinct tracked entities have distinct positions, none of them
    above the counter, and the empty id is not tracked. *)
Definition distinctPositions (s : RR.t) : Prop :=
  (forall k i, Obj.get k (RR.rowIndex s) = Some i -> i <= RR.length s)
  /\ (forall k1 k2 i, Obj.get k1 (RR.rowIndex s) = Some i ->
                      Obj.get k2 (RR.rowIndex s) = Some i -> k1 = k2)
  /\ ~ In "" (Obj.keys (RR.rowIndex s)).

(** The constant headers, before [setRules] runs. *)
Definition initialRange (client : Client) : RR.t :=
  RR.mk [("ID", 0); ("default", 1)] [] [("none", [Some []])] 2 client.

(** States reached through the constructor, [setRow], [setRule],
    [setRules] and [fillRuleValues]. *)
Inductive reachable : RR.t -> Prop :=
| reach_new range client s :
    RR.new range client RR.defaultHeaders = Js.Ok s -> reachable s
| reach_setRow category id column s :
    reachable s -> reachable (RR.setRow category id column s)
| reach_setRule ruleName ruleValues s :
    reachable s -> reachable (RR.setRule ruleName ruleValues s)
| reach_setRules range s s' :
    reachable s -> RR.setRules range s = Js.Ok s' -> reachable s'
| reach_fillRuleValues rule rows s s' :
    reachable s -> RR.fillRuleValues rule rows s = Js.Ok s' -> reachable s'.


(** ** Layouts and rendered grids *)

(** The text a block puts in the rule-name row. *)
Definition headerName (category : string) : string :=
  if String.eqb category "none" then "" else category.

Definition helperOf (store : Obj.t RuleExecutor) (category : string) : string :=
  match Obj.get category store with
  | Some r => helper r
  | None => ""
  end.

(** The cells a block contributes to the row at position [i]. *)
Definition blockCells (rangeRaw : Arr.t Row) (i : nat) : Row :=
  Js.nullish (Arr.get i rangeRaw) (replicate (RR.columnCount rangeRaw) "").

(** The blocks that [getValues] does not drop. *)
Definition emitted (blocks : Obj.t (Arr.t Row)) : Obj.t (Arr.t Row) :=
  List.filter (fun b => negb (RR.columnCount (snd b) =? 0)) blocks.

(** A layout lists the emitted blocks with their widths. *)
Definition layoutHeader0 (layout : list (string * nat)) : Row :=
  concat (List.map (fun b => replicate (snd b) (headerName (fst b))) layout).

Definition layoutHeader1 (store : Obj.t RuleExecutor)
    (layout : list (string * nat)) : Row :=
  concat (List.map (fun b => helperOf store (fst b) :: replicate (snd b - 1) "")
                   layout).

(** The grid for a layout whose first block is the identity block, and
    the pieces of every row, one piece per block. *)
Definition renderGrid (store : Obj.t RuleExecutor) (layout : list (string * nat))
    (pieces : list (list Row)) : list Row :=
  dedupHeader (layoutHeader0 layout)
  :: ([""; ""] ++ layoutHeader1 store (tail layout))
  :: List.map (fun ps => concat ps) pieces.

Definition layoutOf (s : RR.t) : list (string * nat) :=
  List.map (fun b => (fst b, RR.columnCount (snd b))) (emitted (RR.rules s)).

Definition piecesOf (s : RR.t) : list (list Row) :=
  List.map
    (fun e => List.map (fun b => blockCells (snd b) (snd e)) (emitted (RR.rules s)))
    (RR.sortedEntries (RR.rowIndex s)).

(** The de-duplication loop, seen from left to right against the
    original value of the previous cell. *)
Fixpoint dedupFrom (prev : option string) (raw : Row) : Row :=
  match raw with
  | [] => []
  | x :: r => (if Js.cellEqb prev (Some x) then "" else x) :: dedupFrom (Some x) r
  end.

(** The header a layout has once it is de-duplicated: every block shows
    its name in its first column only. *)
Definition niceHeader (layout : list (string * nat)) : Row :=
  concat (List.map (fun b => headerName (fst b) :: replicate (snd b - 1) "") layout).

(** Every block is at least one column wide and does not bear the header
    text of the block before it. *)
Fixpoint separated (prev : string) (layout : list (string * nat)) : Prop :=
  match layout with
  | [] => True
  | b :: r => 1 <= snd b /\ headerName (fst b) <> prev
              /\ separated (headerName (fst b)) r
  end.

(** The scan of the header row, cell by cell. *)
Fixpoint scanFrom (cells : Row) (col start : nat) (ths : list (nat * nat))
  : nat * list (nat * nat) :=
  match cells with
  | [] => (start, ths)
  | x :: r => if Js.truthy x then scanFrom r (S col) col (ths ++ [(start, col)])
              else scanFrom r (S col) start ths
  end.

Definition closeScan (scan : nat * list (nat * nat)) (total : nat)
  : list (nat * nat) :=
  if fst scan =? total then snd scan else snd scan ++ [(fst scan, total)].

(** The column spans of consecutive blocks. *)
Fixpoint spans (widths : list nat) (start : nat) : list (nat * nat) :=
  match widths with
  | [] => []
  | w :: ws => (start, start + w) :: spans ws (start + w)
  end.

(** The layout of one row given as named pieces. *)
Definition layoutOfBlocks (rowBlocks : list (string * Row)) : list (string * nat) :=
  List.map (fun b => (fst b, length (snd b))) rowBlocks.

(** The calls of [setRow] for a row split into named pieces. *)
Definition setBlocks (id : string) (rowBlocks : list (string * Row)) (s : RR.t)
  : RR.t :=
  fold_left (fun s b => RR.setRow (fst b) id (snd b) s) rowBlocks s.

(** The identity cell of a row given as named pieces. *)
Definition idOfBlocks (rowBlocks : list (string * Row)) : string :=
  Js.toKey (concat (List.map snd rowBlocks) !! 0).

(** The calls of [setRow] that [setRules] makes for the data rows. *)
Definition parseRows (rowsBlocks : list (list (string * Row))) (s : RR.t) : RR.t :=
  fold_left (fun s bs => setBlocks (idOfBlocks bs) bs s) rowsBlocks s.

(** The position the constructor gives to the k-th data row: the two
    constant headers keep positions 0 and 1, and the counter then
    starts from 3. *)
Definition parsedPosition (k : nat) : nat := if k <? 2 then k else S k.

(** A layout and rows that a grid of [getValues] can carry. *)
Record WellFormed (layout : list (string * nat))
    (rowsBlocks : list (list (string * Row))) : Prop := {
  wf_none :
    exists c0 rest, layout = ("none", c0) :: rest
                    /\ Forall (fun b => fst b <> "none") rest;
  wf_names :
    Forall (fun b => fst b <> "" /\ Js.arrayIndex (fst b) = None /\ 1 <= snd b)
           layout;
  wf_nodup : List.NoDup (List.map fst layout);
  wf_rows : Forall (fun bs => layoutOfBlocks bs = layout) rowsBlocks;
  wf_ids :
    exists rest, List.map idOfBlocks rowsBlocks = "ID" :: "default" :: rest;
  wf_ids_nodup : List.NoDup (List.map idOfBlocks rowsBlocks);
  wf_ids_nonempty : ~ In "" (List.map idOfBlocks rowsBlocks)
}.

(** The entries of the row index after parsing, in position order. *)
Definition parsedEntries (ids : list string) : list (string * nat) :=
  imap (fun k id => (id, parsedPosition k)) ids.

(** ** Stabilized ranges *)

Fixpoint nodupb (l : list string) : bool :=
  match l with
  | [] => true
  | x :: r => negb (existsb (String.eqb x) r) && nodupb r
  end.

Definition isNone {A} (x : option A) : bool :=
  match x with Some _ => false | None => true end.

(** A range is stabilized when
    - the identity block is the first block with columns and the only one
      named ['none'], and the other blocks with columns bear distinct,
      non-empty names that are not array indices;
    - the entries of the row index, in position order, start with ['ID']
      and ['default'] and have distinct ids;
    - every tracked entity has its identity row, whose first cell is its
      id, and its id is not empty;
    - every row stored for a tracked entity in a block with columns is as
      wide as the block. *)
Definition stable (s : RR.t) : bool :=
  let E := RR.sortedEntries (RR.rowIndex s) in
  match emitted (RR.rules s) with
  | [] => false
  | (cat0, arr0) :: blocks =>
      String.eqb cat0 "none"
      && forallb (fun b => negb (String.eqb (fst b) "none")
                           && Js.truthy (fst b)
                           && isNone (Js.arrayIndex (fst b))) blocks
      && nodupb (List.map fst blocks)
      && match List.map fst E with
         | a :: b :: _ => String.eqb a "ID" && String.eqb b "default"
         | _ => false
         end
      && nodupb (List.map fst E)
      && forallb (fun e => Js.truthy (fst e)
                           && match Arr.get (snd e) arr0 with
                              | Some (c :: _) => String.eqb c (fst e)
                              | _ => false
                              end) E
      && forallb (fun b =>
                    forallb (fun e => match Arr.get (snd e) (snd b) with
                                      | Some r => length r =? RR.columnCount (snd b)
                                      | None => true
                                      end) E)
                 ((cat0, arr0) :: blocks)
  end.

(** The rows of the grid of [getValues], as named pieces. *)
Definition rowsBlocksOf (s : RR.t) : list (list (string * Row)) :=
  List.map
    (fun e => List.map (fun b => (fst b, blockCells (snd b) (snd e)))
                       (emitted (RR.rules s)))
    (RR.sortedEntries (RR.rowIndex s)).

(** ** Reconciliation *)

(** A call of [setRow]: the category, the id and the column. *)
Definition runRows (calls : list (string * string * Row)) (s : RR.t) : RR.t :=
  fold_left (fun s call => RR.setRow (fst (fst call)) (snd (fst call)) (snd call) s)
            calls s.

(** A name that a block may bear besides ['none']. *)
Definition ordinaryName (c : string) : Prop :=
  c <> "none" /\ c <> "" /\ Js.arrayIndex c = None.

(** The identity block is enumerated first; the other blocks bear
    distinct ordinary names. *)
Definition goodRules (s : RR.t) : Prop :=
  exists rest,
    Obj.keys (RR.rules s) = "none" :: rest
    /\ Forall ordinaryName rest /\ List.NoDup rest.

(** No block stores a row above the counter. *)
Definition bounded (s : RR.t) : Prop :=
  forall c arr i r,
    Obj.get c (RR.rules s) = Some arr -> Arr.get i arr = Some r -> i <= RR.length s.

(** The entity [k] has, in the block [c], a row that satisfies [Q]. *)
Definition hasRow (c : string) (Q : string -> Row -> Prop) (k : string)
    (s : RR.t) : Prop :=
  exists i arr r,
    Obj.get k (RR.rowIndex s) = Some i
    /\ Obj.get c (RR.rules s) = Some arr
    /\ Arr.get i arr = Some r /\ Q k r.

(** Every row stored in a block other than ['none'] has the width [w]
    gives the block. *)
Definition uniform (w : string -> nat) (s : RR.t) : Prop :=
  forall c arr i r,
    c <> "none" -> Obj.get c (RR.rules s) = Some arr ->
    Arr.get i arr = Some r -> length r = w c.

(** What [fillRuleValues] needs to find: the blocks bear usable names,
    the sentinels sit at the positions 0 and 1, positions are distinct
    and bounded by the counter, and the rows that tracked entities have
    in the blocks other than ['none'] are as wide as their block. *)
Record Tidy (s : RR.t) : Prop := {
  tidy_rules : goodRules s;
  tidy_positions : distinctPositions s;
  tidy_ids : List.NoDup (Obj.keys (RR.rowIndex s));
  tidy_ID : Obj.get "ID" (RR.rowIndex s) = Some 0;
  tidy_default : Obj.get "default" (RR.rowIndex s) = Some 1;
  tidy_bounded : bounded s;
  tidy_width : forall c arr k i r,
      c <> "none" -> Obj.get c (RR.rules s) = Some arr ->
      Obj.get k (RR.rowIndex s) = Some i -> Arr.get i arr = Some r ->
      RR.columnCount arr <> 0 -> length r = RR.columnCount arr
}.

Definition identityRow (k : string) (r : Row) : Prop := exists x, r = [k; x].

(** What [fillRuleValues] leaves: a tidy range in which every tracked
    entity has its identity row. *)
Record Settled (s : RR.t) : Prop := {
  settled_tidy : Tidy s;
  settled_identity : forall k i,
      Obj.get k (RR.rowIndex s) = Some i -> hasRow "none" identityRow k s
}.

(** The calls of [setRow] that [fillRuleValues] makes. *)
Definition fillCalls (nm x0 : string) (r0 r1 : Row) (f : RecordInfo -> Row)
    (rows : list RecordInfo) : list (string * string * Row) :=
  [("none", "ID", ["ID"; x0]); (nm, "ID", r0);
   ("none", "default", ["default"; ""]); (nm, "default", r1)]
  ++ flat_map (fun record => [(nm, id record, f record);
                              ("none", id record, [id record; displayName record])])
              rows.

(** A rule that [fillRuleValues] can reconcile into a separate block. *)
Definition goodRule (rule : RuleDefinition) : Prop :=
  ordinaryName (name rule) /\ params rule <> [].

(** The categories of the blocks that [setRules] cuts a sheet into. *)
Definition headerCategories (header : Row) : list string :=
  List.map (fun th => categoryAt header (fst th)) (thresholdsOf header).

(** The rows are as long as the rule-name row, and the blocks that the
    rule-name row delimits bear distinct names, each ['none'] or an
    ordinary name. *)
Definition goodSheet (range : list Row) : Prop :=
  match range with
  | [] => False
  | header :: _ =>
      Forall (fun row => length row = length header) range
      /\ Forall (fun c => c = "none" \/ ordinaryName c) (headerCategories header)
      /\ List.NoDup (headerCategories header)
  end.

Definition setRulesCalls (header : Row) (range : list Row)
  : list (string * string * Row) :=
  flat_map
    (fun row =>
       List.map (fun th => (categoryAt header (fst th), Js.toKey (row !! 0),
                            Js.slice (fst th) (snd th) row))
                (thresholdsOf header))
    range.

Fixpoint total (widths : list nat) : nat :=
  match widths with
  | [] => 0
  | w :: ws => w + total ws
  end.

(** The ranges of [initializeRules]: the constructor reads the sheet,
    then [fillRuleValues] runs for one rule after the other. *)
Inductive reconciled : RR.t -> Prop :=
| reconciled_first range client rule rows s0 s :
    goodSheet range ->
    RR.new range client RR.defaultHeaders = Js.Ok s0 ->
    goodRule rule -> RR.fillRuleValues rule rows s0 = Js.Ok s ->
    reconciled s
| reconciled_next rule rows s s' :
    reconciled s ->
    goodRule rule -> RR.fillRuleValues rule rows s = Js.Ok s' ->
    reconciled s'.

Definition scenarioFilledValues : list Row :=
  [[""; ""; "A"; ""];
   [""; ""; "helpA"; ""];
   ["ID"; "g Name"; "label1"; "label2"];
   ["default"; ""; ""; "d2"];
   ["7"; "Campaign 7"; ""; ""]].

Definition scenarioFilledAfter : RR.t :=
  RR.mk [("7", 4); ("ID", 2); ("default", 3)]
        (RR.columnOrders scenarioFilled) (RR.rules scenarioFilled) 4
        scenarioClient.

(** A rule whose name is an array index, the grid [getValues()] returns
    once the rule is reconciled on an empty sheet, and the grid that comes
    back when that grid is read again. *)
Definition numberedRule : RuleDefinition :=
  {| name := "5";
     params := [("p1", {| label := "l1" |})];
     defaults := Some (fun _ => "d");
     ruleGranularity := "g" |}.

Definition numberedValues : list Row :=
  [["5"; ""; ""];
   [""; ""];
   ["l1"; "ID"; "g Name"];
   ["d"; "default"; ""];
   [""; "7"; "Campaign 7"]].

Definition numberedReread : list Row :=
  [["5"; ""; ""];
   [""; ""; ""];
   [""; ""; ""];
   [""; ""; ""];
   ["5"; ""; ""];
   ["l1"; "ID"; "g Name"];
   ["d"; "default"; ""]].

(** ** Reading a parsed grid *)




(** ** Indexed settings *)

(** [result[id][header]] in the object that
    [makeCampaignIndexedSettings] returns. *)
Definition indexedCell (result : Obj.t (Obj.t Js.cell)) (id header : string)
  : option Js.cell :=
  match Obj.get id result with
  | Some inner => Obj.get header inner
  | None => None
  end.

(** ** Settings that a reconciliation pass finds *)

(** The labels of the parameters of a rule, in declaration order. *)
Definition ruleLabels (rule : RuleDefinition) : list string :=
  List.map (fun p => label (snd p)) (params rule).

(** A tracked entity that has an identity row has its id in the first
    cell of that row. *)
Definition identityCells (s : RR.t) : Prop :=
  forall k i a0 r0,
    Obj.get k (RR.rowIndex s) = Some i ->
    Obj.get "none" (RR.rules s) = Some a0 ->
    Arr.get i a0 = Some r0 -> r0 !! 0 = Some k.

(** [currentSettings[rowId][h]], [undefined] when there is no entry. *)
Definition storedCell (currentSettings : Obj.t (Obj.t Js.cell))
    (rowId h : string) : Js.cell :=
  match Obj.get rowId currentSettings with
  | Some inner => Js.nullish (Obj.get h inner) None
  | None => None
  end.

(** [currentSettings] as [fillRuleValues] computes it from the rows of
    [getRule]. *)
Definition currentSettingsOf (ruleValues : list (list Js.cell))
  : Obj.t (Obj.t Js.cell) :=
  makeCampaignIndexedSettings
    (match ruleValues with r0 :: _ => drop 1 r0 | [] => [] end) ruleValues.

(** The scenario range after a pass that finds campaign 1 again. *)
Definition scenarioSynced : RR.t :=
  RR.mk
    [("1", 3); ("ID", 0); ("default", 1)]
    [("A", [("label1", 0); ("label2", 1)])]
    [("none", [Some ["ID"; "g Name"]; Some ["default"; ""]; None;
               Some ["1"; "Campaign 1"]]);
     ("A", [Some ["label1"; "label2"]; Some [""; "d2"]; None; Some ["v1"; ""]])]
    3
    scenarioClient.



(** ** Rows of a range *)

(** The row [getRule] emits for a row index, when its identity cell is a
    string. *)
Definition plainRow (none rule : Arr.t Row) (index : nat) : Row :=
  Js.toKey (Js.nullish (Arr.get index none) [] !! 0)
  :: Js.nullish (Arr.get index rule) [].



(** ** The earlier revision *)


(** The range that the earlier constructor builds from [scenarioGrid]. *)
Definition legacyScenario : Legacy.t :=
  Legacy.mk [("1", 2); ("ID", 0); ("default", 1)] []
    [("none", [Some ["ID"]; Some ["default"]; Some ["1"]]);
     ("A", [Some ["label1"; "label2"]; Some [""; "d2"]; Some ["v1"; ""]])]
    scenarioClient.

(** ** Rule classes *)

(** The labels of the rule classes before the k-th. *)
Definition labelsBefore (ruleClasses : list RuleClass) (k : nat) : list string :=
  concat (List.map (fun rc => ruleLabels (definition rc)) (take k ruleClasses)).

(** The rule classes of the scenario: rule A alone. *)
Definition scenarioClasses : list RuleClass :=
  [{| definition := scenarioRule; classHelper := "helpA" |}].

(** ** Reading written cells *)

(** Reads a written cell from behind its opening quote: the cell, and
    what follows its closing quote. *)
Fixpoint unquote (s : string) : option (string * string) :=
  match s with
  | EmptyString => None
  | String c s' =>
      if Ascii.eqb c dquote then
        match s' with
        | String c1 (String c2 s'') =>
            if Ascii.eqb c1 dquote && Ascii.eqb c2 dquote
            then match unquote s'' with
                 | Some (content, rest) => Some (String dquote content, rest)
                 | None => None
                 end
            else Some (EmptyString, s')
        | _ => Some (EmptyString, s')
        end
      else match unquote s' with
           | Some (content, rest) => Some (String c content, rest)
           | None => None
           end
  end.

(** What may follow a cell: nothing, or a separator. *)
Definition afterCell (s : string) : Prop :=
  match s with
  | EmptyString => True
  | String c _ => c <> dquote
  end.

(** ** The scenario, written and read again *)

(** The sheet that [scenarioSynced] writes, the range [getValues] leaves,
    and the range built again from the sheet. *)
Definition scenarioSyncedValues : list Row :=
  [[""; ""; "A"; ""];
   [""; ""; "helpA"; ""];
   ["ID"; "g Name"; "label1"; "label2"];
   ["default"; ""; ""; "d2"];
   ["1"; "Campaign 1"; "v1"; ""]].

Definition scenarioSyncedAfter : RR.t :=
  RR.mk [("1", 4); ("ID", 2); ("default", 3)]
    [("A", [("label1", 0); ("label2", 1)])]
    [("none", [Some ["ID"; "g Name"]; Some ["default"; ""]; None;
               Some ["1"; "Campaign 1"]]);
     ("A", [Some ["label1"; "label2"]; Some [""; "d2"]; None; Some ["v1"; ""]])]
    3 scenarioClient.

Definition scenarioReread : RR.t :=
  RR.mk [("1", 3); ("ID", 0); ("default", 1)] []
    [("none", [Some ["ID"; "g Name"]; Some ["default"; ""]; None;
               Some ["1"; "Campaign 1"]]);
     ("A", [Some ["label1"; "label2"]; Some [""; "d2"]; None; Some ["v1"; ""]])]
    3 scenarioClient.

(** The range with another client. *)
Definition withClient (c : Client) (s : RR.t) : RR.t :=
  RR.mk (RR.rowIndex s) (RR.columnOrders s) (RR.rules s) (RR.length s) c.

(** ** Styled text *)

(** The characters of a text that a range styles. *)
Definition styledText (v : RichTextValue) (run : nat * nat * TextStyle) : string :=
  String.substring (fst (fst run)) (snd (fst run) - fst (fst run)) (richText v).

(** ** Versions with single-digit segments *)

(** The decimal digit [n], as a one-character string. *)
Definition digit (n : nat) : string := String (ascii_of_nat (48 + n)) "".

(** The version string [a.b.c]. *)
Definition version3 (v : nat * nat * nat) : string :=
  let '(a, b, c) := v in digit a ++ "." ++ digit b ++ "." ++ digit c.

(** [v] is a later version than [w]: the first segment in which they
    differ is larger in [v]. *)
Definition newer (v w : nat * nat * nat) : bool :=
  let '(a, b, c) := v in
  let '(a', b', c') := w in
  (a' <? a) || ((a' =? a) && ((b' <? b) || ((b' =? b) && (c' <? c)))).

Definition singleDigits (v : nat * nat * nat) : Prop :=
  let '(a, b, c) := v in a < 10 /\ b < 10 /\ c < 10.

(** The binary64 value of a small integer. *)
Definition floatOfZ (d : Z) : float :=
  if (d <? 0)%Z then (- PrimFloat.of_uint63 (Uint63.of_Z (- d)))%float
  else PrimFloat.of_uint63 (Uint63.of_Z d).

(** The sum [sortMigrations] forms from three segment differences. *)
Definition weighted (d1 d2 d3 : Z) : float :=
  (0 + floatOfZ d1 / Js.pow10 0 + floatOfZ d2 / Js.pow10 1
     + floatOfZ d3 / Js.pow10 2)%float.

Definition firstPositive (d1 d2 d3 : Z) : bool :=
  ((0 <? d1) || ((d1 =? 0) && ((0 <? d2) || ((d2 =? 0) && (0 <? d3)))))%Z.

Definition digitDifferences : list Z :=
  List.map (fun n => (Z.of_nat n - 9)%Z) (seq 0 19).

(** * Properties *)

(** ** Objects *)

Section ObjFacts.

Context {V : Type}.
Implicit Types (o : Obj.t V) (k : string) (v : V).

Lemma Obj_get_update k k' v o :
  Obj.get k' (Obj.update k v o) =
  if String.eqb k' k then (if Obj.has k o then Some v else None)
  else Obj.get k' o.
Proof.
  unfold Obj.has.
  induction o as [|[k0 v0] o IH]; simpl.
  - destruct (String.eqb k' k); reflexivity.
  - destruct (String.eqb_spec k k0) as [->|Hne]; simpl.
    + destruct (String.eqb_spec k' k0) as [->|Hne']; [reflexivity|].
      reflexivity.
    + rewrite IH. destruct (String.eqb_spec k' k0) as [->|Hne'].
      * destruct (String.eqb_spec k0 k); [congruence | reflexivity].
      * reflexivity.
Qed.

Lemma Obj_get_insertIndex n k k' v o :
  Obj.get k o = None ->
  Obj.get k' (Obj.insertIndex n k v o) =
  if String.eqb k' k then Some v else Obj.get k' o.
Proof.
  induction o as [|[k0 v0] o IH]; simpl; intros Hk.
  - destruct (String.eqb k' k); reflexivity.
  - destruct (String.eqb_spec k k0) as [->|Hne]; [discriminate|].
    destruct (Js.arrayIndex k0) as [m|].
    + destruct (m <? n)%Z; simpl.
      * rewrite (IH Hk).
        destruct (String.eqb_spec k' k0) as [->|]; [|reflexivity].
        destruct (String.eqb_spec k0 k); [congruence | reflexivity].
      * destruct (String.eqb k' k); reflexivity.
    + simpl. destruct (String.eqb k' k); reflexivity.
Qed.

Lemma Obj_get_app k o1 o2 :
  Obj.get k (o1 ++ o2) =
  match Obj.get k o1 with Some v => Some v | None => Obj.get k o2 end.
Proof.
  induction o1 as [|[k0 v0] o1 IH]; simpl; [reflexivity|].
  destruct (String.eqb k k0); [reflexivity | apply IH].
Qed.

(** Reading after writing. *)
Lemma Obj_get_set k k' v o :
  Obj.get k' (Obj.set k v o) =
  if String.eqb k' k then Some v else Obj.get k' o.
Proof.
  unfold Obj.set, Obj.has.
  destruct (Obj.get k o) as [v0|] eqn:Hk.
  - rewrite Obj_get_update. unfold Obj.has. rewrite Hk. reflexivity.
  - destruct (Js.arrayIndex k) as [n|].
    + apply Obj_get_insertIndex, Hk.
    + rewrite Obj_get_app. simpl.
      destruct (String.eqb_spec k' k) as [->|Hne].
      * rewrite Hk. reflexivity.
      * destruct (Obj.get k' o); reflexivity.
Qed.

Lemma Obj_get_set_eq k v o : Obj.get k (Obj.set k v o) = Some v.
Proof. rewrite Obj_get_set, String.eqb_refl. reflexivity. Qed.

Lemma Obj_get_set_ne k k' v o :
  k' <> k -> Obj.get k' (Obj.set k v o) = Obj.get k' o.
Proof.
  intros H. rewrite Obj_get_set.
  destruct (String.eqb_spec k' k); [contradiction | reflexivity].
Qed.

Lemma Obj_get_Some_In k v o : Obj.get k o = Some v -> In (k, v) o.
Proof.
  induction o as [|[k0 v0] o IH]; simpl; [discriminate|].
  destruct (String.eqb_spec k k0) as [->|Hne].
  - intros [= ->]. left. reflexivity.
  - intros H. right. apply IH, H.
Qed.

Lemma Obj_get_None_keys k o : Obj.get k o = None <-> ~ In k (Obj.keys o).
Proof.
  unfold Obj.keys.
  induction o as [|[k0 v0] o IH]; simpl; [tauto|].
  destruct (String.eqb_spec k k0) as [->|Hne].
  - split; [discriminate | intros H; exfalso; apply H; left; reflexivity].
  - rewrite IH. split; [intros H [H1|H1]; [congruence | tauto] | tauto].
Qed.

Lemma Obj_has_keys k o : Obj.has k o = true <-> In k (Obj.keys o).
Proof.
  unfold Obj.has.
  destruct (Obj.get k o) eqn:H.
  - split; [intros _ | reflexivity].
    destruct (in_dec String.string_dec k (Obj.keys o)) as [Hin|Hn]; [exact Hin|].
    apply Obj_get_None_keys in Hn. congruence.
  - apply Obj_get_None_keys in H. split; [discriminate | tauto].
Qed.

Lemma Obj_keys_set k k' v o :
  In k' (Obj.keys (Obj.set k v o)) <-> k' = k \/ In k' (Obj.keys o).
Proof.
  rewrite <- !Obj_has_keys. unfold Obj.has. rewrite Obj_get_set.
  destruct (String.eqb_spec k' k) as [->|Hne].
  - tauto.
  - destruct (Obj.get k' o); split; auto; intros [H|H]; congruence.
Qed.

Lemma Obj_get_delete k k' o :
  Obj.get k' (Obj.delete k o) = if String.eqb k k' then None else Obj.get k' o.
Proof.
  unfold Obj.delete.
  induction o as [|[k0 v0] o IH]; simpl.
  - destruct (String.eqb k k'); reflexivity.
  - destruct (String.eqb_spec k k0) as [->|Hne]; simpl.
    + rewrite IH. destruct (String.eqb_spec k0 k') as [->|Hne'].
      * reflexivity.
      * destruct (String.eqb_spec k' k0); [congruence | reflexivity].
    + rewrite IH. destruct (String.eqb_spec k k') as [->|Hne'].
      * destruct (String.eqb_spec k' k0); [congruence | reflexivity].
      * reflexivity.
Qed.

(** A fold of writes reads back the last value written for the key. *)
Lemma Obj_get_fold_set (g : string -> V) k (l : list string) o :
  Obj.get k (fold_left (fun prev key => Obj.set key (g key) prev) l o) =
  if existsb (String.eqb k) l then Some (g k) else Obj.get k o.
Proof.
  revert o. induction l as [|x l IH]; intros o; simpl; [reflexivity|].
  rewrite IH, Obj_get_set.
  destruct (String.eqb_spec k x) as [->|Hne]; simpl.
  - destruct (existsb (String.eqb x) l); reflexivity.
  - reflexivity.
Qed.

End ObjFacts.

Lemma existsb_eqb_In (k : string) (l : list string) :
  existsb (String.eqb k) l = true <-> In k l.
Proof.
  rewrite existsb_exists. split.
  - intros [x [Hin Heq]]. apply String.eqb_eq in Heq. subst. exact Hin.
  - intros H. exists k. split; [exact H | apply String.eqb_refl].
Qed.

(** ** ParamValueTable *)

Lemma getOrDefault_lookup id key sm :
  Obj.get key (fst (SettingMap.getOrDefault id sm)) =
  if existsb (String.eqb key) (SettingMap.keys sm)
  then Some (SettingMap.resolve (storedRecord "default" sm) (storedRecord id sm) key)
  else None.
Proof.
  unfold SettingMap.getOrDefault, storedRecord. simpl.
  apply (Obj_get_fold_set
           (fun key => SettingMap.resolve
                         (Js.nullish (JsMap.get (Some "default") (SettingMap.map sm)) [])
                         (Js.nullish (JsMap.get (Some id) (SettingMap.map sm)) []) key)).
Qed.

Lemma getOrDefault_resolve (sm : SettingMap.t) (id key : string) :
  In key (SettingMap.keys sm) ->
  Obj.get key (fst (SettingMap.getOrDefault id sm)) =
  Some (SettingMap.resolve (storedRecord "default" sm) (storedRecord id sm) key).
Proof.
  intros Hkey. rewrite getOrDefault_lookup.
  apply existsb_eqb_In in Hkey. rewrite Hkey. reflexivity.
Qed.



(** A value stored as [undefined] under a present key is not defaulted:
    it reads as the empty string. *)
Lemma getOrDefault_stored_undefined (sm : SettingMap.t) (id key : string) :
  In key (SettingMap.keys sm) ->
  Obj.get key (storedRecord id sm) = Some None ->
  Obj.get key (fst (SettingMap.getOrDefault id sm)) = Some "".
Proof.
  intros Hkey Hc. rewrite (getOrDefault_resolve sm id key Hkey).
  unfold SettingMap.resolve, Obj.has. rewrite Hc. reflexivity.
Qed.

(** [get], in contrast, stores the record it synthesizes. *)
Lemma get_materializes (sm : SettingMap.t) (id : string) :
  JsMap.get (Some id) (SettingMap.map sm) = None ->
  SettingMap.map (snd (SettingMap.get id sm)) =
  SettingMap.map sm ++ [(Some id, fst (SettingMap.get id sm))].
Proof.
  intros H. unfold SettingMap.get. rewrite H. simpl.
  unfold JsMap.set. destruct (JsMap.get (Some id) (SettingMap.map sm));
    [discriminate | reflexivity].
Qed.

(** ** GridParser *)

Lemma SettingMap_new_nonempty v vs :
  exists sm, SettingMap.new (v :: vs) = Js.Ok sm
             /\ SettingMap.keys sm = Obj.keys (snd v).
Proof.
  destruct v as [k r]. simpl. eexists. split; reflexivity.
Qed.

(** C9, as the code has it: the shape error is raised exactly when the
    grid has fewer than two rows, whatever its number of columns; with
    two rows or more a settings table is returned. *)
Theorem transformToParamValues_shape (rawSettings : list (list string))
    (mapper : Obj.t ParamDefinition) :
  (transformToParamValues rawSettings mapper = Js.Throw Js.InputShapeError
   <-> length rawSettings < 2)
  /\ (2 <= length rawSettings ->
      exists sm, transformToParamValues rawSettings mapper = Js.Ok sm).
Proof.
  unfold transformToParamValues.
  destruct (Nat.ltb_spec (length rawSettings) 2) as [Hlt|Hge].
  - split; [tauto | lia].
  - assert (Hbody : exists v vs,
               List.map (forEachRow (Js.nullish (rawSettings !! 0) []) mapper)
                        (drop 1 rawSettings) = v :: vs).
    { destruct rawSettings as [|h [|r rest]]; simpl in Hge; try lia.
      simpl. eauto. }
    destruct Hbody as (v & vs & ->).
    destruct (SettingMap_new_nonempty v vs) as (sm & Hsm & _).
    rewrite Hsm. split.
    + split; [discriminate | lia].
    + intros _. exists sm. reflexivity.
Qed.

Lemma transformToParamValues_shape_witness :
  exists sm,
    transformToParamValues
      [["ID"; "label1"]; ["default"; "d1"]] [("p1", {| label := "label1" |})]
    = Js.Ok sm.
Proof.
  apply (proj2 (transformToParamValues_shape
                  [["ID"; "label1"]; ["default"; "d1"]]
                  [("p1", {| label := "label1" |})])).
  simpl. repeat constructor.
Defined.

(** C9, counterexample: a grid of two rows and one column is smaller
    than 2x2, and no shape error is raised for it. *)
Lemma transformToParamValues_one_column :
  let grid := [["ID"]; ["default"]] in
  let mapper := [("p1", {| label := "label1" |})] in
  ~ (transformToParamValues grid mapper = Js.Throw Js.InputShapeError
     <-> (length grid < 2 \/ columns grid < 2)).
Proof.
  intros grid mapper [_ H].
  assert (Hc : length grid < 2 \/ columns grid < 2) by (right; unfold grid, columns; simpl; lia).
  specialize (H Hc). vm_compute in H. discriminate.
Qed.

(** The settings of a row whose label is not in the header row are
    [undefined], not an error. *)
Lemma forEachRow_missing_label headers mapper row param d :
  Obj.get param mapper = Some d ->
  List.NoDup (Obj.keys mapper) ->
  indexOf (label d) headers = None ->
  Obj.get param (snd (forEachRow headers mapper row)) = Some None.
Proof.
  intros Hget Hnd Hidx. unfold forEachRow. simpl.
  unfold Obj.fromEntries.
  set (f := fun p : string * ParamDefinition =>
              (fst p, match indexOf (label (snd p)) headers with
                      | Some i => row !! i
                      | None => None
                      end)).
  assert (Hgen : forall (l : Obj.t ParamDefinition) (o : Settings),
             List.NoDup (Obj.keys l) -> Obj.get param l = Some d ->
             Obj.get param
               (fold_left (fun o p => Obj.set (fst p) (snd p) o) (List.map f l) o)
             = Some None).
  { induction l as [|[k0 d0] l IH]; intros o Hnd' Hg; simpl in *; [discriminate|].
    inversion Hnd' as [|? ? Hnotin Hnd'']; subst.
    destruct (String.eqb_spec param k0) as [->|Hne].
    - injection Hg as ->. rewrite Hidx.
      assert (Hrest : forall (l' : Obj.t ParamDefinition) (o' : Settings),
                 ~ In k0 (Obj.keys l') ->
                 Obj.get k0 (fold_left (fun o p => Obj.set (fst p) (snd p) o)
                                       (List.map f l') o') = Obj.get k0 o').
      { induction l' as [|[k1 d1] l' IH']; intros o' Hn; simpl in *; [reflexivity|].
        rewrite IH' by tauto. apply Obj_get_set_ne. intros ->. tauto. }
      rewrite Hrest by exact Hnotin. apply Obj_get_set_eq.
    - apply IH; assumption. }
  apply Hgen; assumption.
Qed.

(** ** The key set of a [SettingMap] *)

Lemma Obj_keys_fold_set {V} (g : string -> V) k (l : list string) (o : Obj.t V) :
  In k (Obj.keys (fold_left (fun prev key => Obj.set key (g key) prev) l o))
  <-> In k l \/ In k (Obj.keys o).
Proof.
  rewrite <- !Obj_has_keys. unfold Obj.has. rewrite Obj_get_fold_set.
  destruct (existsb (String.eqb k) l) eqn:E.
  - apply existsb_eqb_In in E. tauto.
  - assert (~ In k l).
    { intros Hin. apply existsb_eqb_In in Hin. congruence. }
    destruct (Obj.get k o); split; auto; intros [?|?]; auto; contradiction.
Qed.

Lemma Obj_keys_fromEntries_const {V} (v : V) k (l : list string) :
  In k (Obj.keys (Obj.fromEntries (List.map (fun k => (k, v)) l))) <-> In k l.
Proof.
  unfold Obj.fromEntries.
  assert (H : forall o : Obj.t V,
             fold_left (fun o p => Obj.set (fst p) (snd p) o)
                       (List.map (fun k => (k, v)) l) o
             = fold_left (fun prev key => Obj.set key ((fun _ => v) key) prev) l o).
  { induction l as [|x l IH]; intros o; simpl; [reflexivity | apply IH]. }
  rewrite H, Obj_keys_fold_set. simpl. tauto.
Qed.

(** The values of a record, in key order, are its values at its keys. *)
Lemma Obj_values_by_keys (o : Settings) :
  List.NoDup (Obj.keys o) ->
  Obj.values o = List.map (fun k => Js.nullish (Obj.get k o) None) (Obj.keys o).
Proof.
  unfold Obj.values, Obj.keys.
  induction o as [|[k0 v0] o IH]; simpl; intros Hnd; [reflexivity|].
  inversion Hnd as [|? ? Hnotin Hnd']; subst.
  rewrite String.eqb_refl. simpl. f_equal.
  rewrite (IH Hnd'). apply map_ext_in. intros k Hk.
  destruct (String.eqb_spec k k0) as [->|Hne]; [contradiction | reflexivity].
Qed.

(** C10, as the code has it: the empty sequence raises; a non-empty one
    yields a table whose key set is the first record's; [getOrDefault]
    and the record synthesized by [get] range over exactly that key set;
    [entries] lists every record's own values, which are the values at
    that key set for a record that has those keys. *)
Theorem SettingMap_constructor_keys :
  SettingMap.new [] = Js.Throw Js.TypeError
  /\ forall v vs, exists sm,
       SettingMap.new (v :: vs) = Js.Ok sm
       /\ SettingMap.keys sm = Obj.keys (snd v)
       /\ (forall id k, In k (Obj.keys (fst (SettingMap.getOrDefault id sm)))
                        <-> In k (Obj.keys (snd v)))
       /\ (forall id, JsMap.get (Some id) (SettingMap.map sm) = None ->
           forall k, In k (Obj.keys (fst (SettingMap.get id sm)))
                     <-> In k (Obj.keys (snd v)))
       /\ (forall id, SettingMap.keys (snd (SettingMap.get id sm)) = Obj.keys (snd v))
       /\ SettingMap.entries sm
          = List.map (fun p => (fst p, Obj.values (snd p))) (SettingMap.map sm)
       /\ (forall p, In p (SettingMap.map sm) ->
           Obj.keys (snd p) = Obj.keys (snd v) ->
           List.NoDup (Obj.keys (snd p)) ->
           In (fst p,
               List.map (fun k => Js.nullish (Obj.get k (snd p)) None)
                        (SettingMap.keys sm))
              (SettingMap.entries sm)).
Proof.
  split; [reflexivity|].
  intros [k0 r0] vs. eexists. split; [reflexivity|]. simpl.
  split; [reflexivity|]. split; [|split; [|split; [|split]]].
  - intros id k. unfold SettingMap.getOrDefault. simpl.
    rewrite (Obj_keys_fold_set
               (fun key => SettingMap.resolve _ _ key)). simpl. tauto.
  - intros id Hnone k. unfold SettingMap.get. simpl. simpl in Hnone.
    rewrite Hnone. simpl. apply Obj_keys_fromEntries_const.
  - intros id. unfold SettingMap.get. simpl.
    destruct (JsMap.get (Some id) _); reflexivity.
  - reflexivity.
  - intros p Hin Hkeys Hnd. unfold SettingMap.entries. simpl.
    rewrite <- Hkeys, <- (Obj_values_by_keys (snd p) Hnd).
    apply (in_map (fun p => (fst p, Obj.values (snd p)))), Hin.
Qed.

(** C10, counterexample: the second record has other keys than the
    first; [entries] lists its own two values, not its value at the key
    set fixed at construction. *)
Lemma entries_not_by_keys :
  let values := [(Some "a", [("x", Some "1")]);
                 (Some "b", [("y", Some "2"); ("z", Some "3")])] in
  exists sm, SettingMap.new values = Js.Ok sm
             /\ SettingMap.keys sm = ["x"]
             /\ SettingMap.entries sm <> entriesByKeys sm.
Proof.
  eexists. split; [reflexivity|]. split; [reflexivity|].
  vm_compute. discriminate.
Qed.

(** ** VersionComparator *)

(** C8, the failing input: 2.0.0 follows 1.25.0 segment by segment, and
    the weighted difference computed by [sortMigrations] is negative. *)
Theorem sortMigrations_misorders :
  versionCompare "2.0.0" "1.25.0" = Gt
  /\ negative (sortMigrations "2.0.0" "1.25.0") = true.
Proof. split; vm_compute; reflexivity. Qed.

(** Distinct versions can also compare as equal. *)
Lemma sortMigrations_conflates :
  versionCompare "1.0.10" "1.1.0" = Lt
  /\ negative (sortMigrations "1.0.10" "1.1.0") = false
  /\ positive (sortMigrations "1.0.10" "1.1.0") = false.
Proof. repeat split; vm_compute; reflexivity. Qed.

(** The example of the specification does hold. *)
Lemma sortMigrations_1_2_0_vs_1_10_0 :
  versionCompare "1.2.0" "1.10.0" = Lt
  /\ negative (sortMigrations "1.2.0" "1.10.0") = true.
Proof. split; vm_compute; reflexivity. Qed.

(** ** Header de-duplication *)

Lemma dedupStep_length row c : length (dedupStep row c) = length row.
Proof. unfold dedupStep. apply length_insert. Qed.

Lemma dedupStep_lookup row c j :
  dedupStep row c !! j =
  if j =? c then
    match row !! c with
    | Some x => Some (if Js.cellEqb (row !! (c - 1)) (Some x) then "" else x)
    | None => None
    end
  else row !! j.
Proof.
  unfold dedupStep.
  destruct (Nat.eqb_spec j c) as [->|Hne].
  - destruct (row !! c) as [x|] eqn:Hc.
    + rewrite list_lookup_insert_eq by (eapply lookup_lt_Some; eauto).
      reflexivity.
    + rewrite list_insert_ge by (apply lookup_ge_None; exact Hc). exact Hc.
  - apply list_lookup_insert_ne. congruence.
Qed.

(** Going down from column [n] to column 1, every column is rewritten
    against the original value of its left neighbour. *)
Lemma dedup_loop_lookup n : forall row j,
  fold_left dedupStep (rev (seq 1 n)) row !! j =
  if (1 <=? j) && (j <=? n) then dedupCell row j else row !! j.
Proof.
  induction n as [|n IH]; intros row j.
  - cbn [seq rev fold_left].
    destruct (Nat.leb_spec 1 j) as [H1|H1]; [|reflexivity].
    destruct (Nat.leb_spec j 0) as [H2|H2]; [lia | reflexivity].
  - rewrite seq_S, rev_app_distr. change (1 + n) with (S n).
    cbn [rev app fold_left]. rewrite IH. unfold dedupCell.
    rewrite !dedupStep_lookup.
    destruct (Nat.leb_spec 1 j) as [H1|H1]; cbn [andb].
    + destruct (Nat.leb_spec j n) as [H2|H2].
      * destruct (Nat.leb_spec j (S n)) as [_|?]; [|lia].
        destruct (Nat.eqb_spec j (S n)) as [?|_]; [lia|].
        destruct (Nat.eqb_spec (j - 1) (S n)) as [?|_]; [lia|].
        reflexivity.
      * destruct (Nat.leb_spec j (S n)) as [H3|H3].
        -- assert (j = S n) by lia. subst j.
           rewrite Nat.eqb_refl.
           destruct (row !! S n); [|reflexivity].
           destruct (Nat.ltb_spec 0 (S n)) as [_|?]; [|lia].
           reflexivity.
        -- destruct (Nat.eqb_spec j (S n)) as [?|_]; [lia | reflexivity].
    + destruct (Nat.eqb_spec j (S n)) as [?|_]; [lia | reflexivity].
Qed.

Lemma dedup_loop_length l : forall row,
  length (fold_left dedupStep l row) = length row.
Proof.
  induction l as [|c l IH]; intros row; simpl; [reflexivity|].
  rewrite IH. apply dedupStep_length.
Qed.

Lemma dedupHeader_lookup raw c : dedupHeader raw !! c = dedupCell raw c.
Proof.
  unfold dedupHeader. rewrite dedup_loop_lookup.
  destruct (Nat.leb_spec 1 c) as [H1|H1]; cbn [andb].
  - destruct (Nat.leb_spec c (length raw - 1)) as [H2|H2]; [reflexivity|].
    unfold dedupCell.
    rewrite (proj2 (lookup_ge_None raw c)) by lia. reflexivity.
  - assert (c = 0) by lia. subst c. unfold dedupCell.
    destruct (raw !! 0); reflexivity.
Qed.

(** C6. Row 0 of the grid returned by [getValues] is the accumulated
    rule-name row in which a cell is blanked exactly when it equals the
    original value of its left neighbour, column 0 being kept; the row
    A A B B B becomes A _ B _ _. *)
Theorem getValues_header_dedup (filter : option string)
    (s s' : AbstractRuleRange.t) (grid : list Row) :
  AbstractRuleRange.getValues filter s = Js.Ok (grid, s') ->
  exists raw,
    rawHeader filter s = Js.Ok raw
    /\ grid !! 0 = Some (dedupHeader raw)
    /\ length (dedupHeader raw) = length raw
    /\ (forall c x, raw !! c = Some x ->
        dedupHeader raw !! c =
        Some (if (0 <? c) && Js.cellEqb (raw !! (c - 1)) (Some x) then "" else x))
    /\ dedupHeader ["A"; "A"; "B"; "B"; "B"] = ["A"; ""; "B"; ""; ""].
Proof.
  unfold AbstractRuleRange.getValues, rawHeader.
  destruct (AbstractRuleRange.reduce _ _ _) as [acc|e]; simpl; [|discriminate].
  intros [= <- _]. exists (AbstractRuleRange.row0 acc).
  split; [reflexivity|]. split; [reflexivity|].
  split; [apply dedup_loop_length|]. split; [|reflexivity].
  intros c x Hc. rewrite dedupHeader_lookup. unfold dedupCell.
  rewrite Hc. reflexivity.
Qed.

(** ** Migration runner *)

Lemma migrateLoop_runPending target sheetVersion ms : forall n w,
  migrateLoop target sheetVersion ms n w =
  runPending
    (List.filter (fun m => positive (sortMigrations (fst m) sheetVersion))
                 (reached target ms)) n w.
Proof.
  unfold reached.
  induction ms as [|[v m] ms IH]; intros n w; simpl; [reflexivity|].
  destruct (nonNegative (sortMigrations v target)); simpl; [reflexivity|].
  destruct (positive (sortMigrations v sheetVersion)); simpl.
  - destruct m; [apply IH | reflexivity].
  - apply IH.
Qed.







(** ** Sorting by a numeric key *)

Section SortByKey.

Context {A : Type} (key : A -> nat).

Let gt (a b : A) : bool := key b <? key a.
Let le_key (a b : A) : Prop := key a <= key b.

Lemma sortInsert_perm (g : A -> A -> bool) x l :
  Permutation (Js.sortInsert g x l) (x :: l).
Proof.
  induction l as [|y l IH]; simpl; [reflexivity|].
  destruct (g y x); [reflexivity|].
  rewrite IH. apply perm_swap.
Qed.

Lemma sort_fold_perm (g : A -> A -> bool) l : forall acc,
  Permutation (fold_left (fun acc x => Js.sortInsert g x acc) l acc) (acc ++ l).
Proof.
  induction l as [|x l IH]; intros acc; simpl.
  - rewrite app_nil_r. reflexivity.
  - rewrite IH, sortInsert_perm. apply Permutation_middle.
Qed.

Lemma sort_perm (g : A -> A -> bool) l : Permutation (Js.sort g l) l.
Proof. unfold Js.sort. apply (sort_fold_perm g l []). Qed.

Lemma sortInsert_sorted x l :
  StronglySorted le_key l -> StronglySorted le_key (Js.sortInsert gt x l).
Proof.
  induction l as [|y l IH]; simpl; intros Hs.
  - repeat constructor.
  - inversion Hs as [|? ? Hs' Hall]; subst. unfold gt at 1.
    destruct (Nat.ltb_spec (key x) (key y)) as [Hlt|Hge].
    + constructor; [exact Hs|]. constructor.
      * unfold le_key. lia.
      * eapply Forall_impl; [exact Hall|]. unfold le_key. intros; lia.
    + constructor; [apply IH, Hs'|].
      rewrite (List.Forall_forall (le_key y)). intros z Hz.
      apply (Permutation_in _ (sortInsert_perm gt x l)) in Hz.
      destruct Hz as [<-|Hz]; [exact Hge|].
      rewrite List.Forall_forall in Hall. apply Hall, Hz.
Qed.

Lemma sort_fold_sorted l : forall acc,
  StronglySorted le_key acc ->
  StronglySorted le_key (fold_left (fun acc x => Js.sortInsert gt x acc) l acc).
Proof.
  induction l as [|x l IH]; intros acc Hs; simpl; [exact Hs|].
  apply IH, sortInsert_sorted, Hs.
Qed.

Lemma sort_sorted l : StronglySorted le_key (Js.sort gt l).
Proof. unfold Js.sort. apply sort_fold_sorted. constructor. Qed.

(** An element that no earlier element exceeds goes to the end. *)
Lemma sortInsert_last x l :
  Forall (fun y => key y <= key x) l -> Js.sortInsert gt x l = l ++ [x].
Proof.
  induction l as [|y l IH]; simpl; intros Hall; [reflexivity|].
  inversion Hall as [|? ? Hy Hall']; subst. unfold gt at 1.
  destruct (Nat.ltb_spec (key x) (key y)) as [Hlt|Hge]; [lia|].
  rewrite (IH Hall'). reflexivity.
Qed.

(** A list that is already in order is left as it is. *)
Lemma sort_fold_sorted_id l : forall acc,
  StronglySorted le_key (acc ++ l) ->
  fold_left (fun acc x => Js.sortInsert gt x acc) l acc = acc ++ l.
Proof.
  induction l as [|x l IH]; intros acc Hs; simpl.
  - rewrite app_nil_r. reflexivity.
  - rewrite sortInsert_last.
    + rewrite IH; rewrite <- app_assoc; [reflexivity | exact Hs].
    + clear IH. induction acc as [|a acc IHa]; [constructor|].
      simpl in Hs. inversion Hs as [|? ? Hs' Hall]; subst.
      constructor.
      * rewrite List.Forall_forall in Hall. apply Hall.
        apply in_or_app. right. left. reflexivity.
      * apply IHa, Hs'.
Qed.

Lemma sort_sorted_id l : StronglySorted le_key l -> Js.sort gt l = l.
Proof. intros Hs. unfold Js.sort. apply (sort_fold_sorted_id l [] Hs). Qed.

End SortByKey.

(** ** The scenario of the specification *)

Lemma scenarioRange_built :
  AbstractRuleRange.new scenarioGrid scenarioClient AbstractRuleRange.defaultHeaders
  = Js.Ok scenarioRange.
Proof. reflexivity. Qed.

Lemma getValues_header_dedup_witness :
  exists raw,
    rawHeader None scenarioRange = Js.Ok raw
    /\ scenarioValues !! 0 = Some (dedupHeader raw)
    /\ length (dedupHeader raw) = length raw
    /\ (forall c x, raw !! c = Some x ->
        dedupHeader raw !! c =
        Some (if (0 <? c) && Js.cellEqb (raw !! (c - 1)) (Some x) then "" else x))
    /\ dedupHeader ["A"; "A"; "B"; "B"; "B"] = ["A"; ""; "B"; ""; ""].
Proof.
  apply (getValues_header_dedup None scenarioRange scenarioRangeAfter scenarioValues).
  reflexivity.
Defined.

(** ** [getRule] *)

Lemma Arr_get_nil {A} i : Arr.get i ([] : Arr.t A) = None.
Proof. unfold Arr.get. rewrite lookup_nil. reflexivity. Qed.



(** ** The row index under [RR.setRow] *)

Section SetRowFacts.

Implicit Types (s : RR.t) (category id k : string) (column : Row).

Lemma setRow_empty_id category column s : RR.setRow category "" column s = s.
Proof. reflexivity. Qed.

Lemma setRow_rowIndex_get category id column s k :
  id <> "" ->
  Obj.get k (RR.rowIndex (RR.setRow category id column s)) =
  if String.eqb k id then Some (positionFor id s) else Obj.get k (RR.rowIndex s).
Proof.
  intros Hid. unfold RR.setRow, positionFor.
  destruct (String.eqb_spec id "") as [?|_]; [contradiction|].
  destruct (Obj.get id (RR.rowIndex s)) as [i|] eqn:Hget; simpl.
  - destruct (String.eqb_spec k id) as [->|]; [exact Hget | reflexivity].
  - apply Obj_get_set.
Qed.

(** A tracked entity keeps its position. *)
Lemma setRow_keeps_position category id column s k i :
  Obj.get k (RR.rowIndex s) = Some i ->
  Obj.get k (RR.rowIndex (RR.setRow category id column s)) = Some i.
Proof.
  intros Hk. destruct (String.eqb_spec id "") as [->|Hid]; [exact Hk|].
  rewrite setRow_rowIndex_get by exact Hid.
  destruct (String.eqb_spec k id) as [->|]; [|exact Hk].
  unfold positionFor. rewrite Hk. reflexivity.
Qed.

Lemma setRow_length category id column s :
  RR.length (RR.setRow category id column s) =
  if String.eqb id "" then RR.length s
  else match Obj.get id (RR.rowIndex s) with
       | Some _ => RR.length s
       | None => S (RR.length s)
       end.
Proof.
  unfold RR.setRow. destruct (String.eqb id ""); [reflexivity|].
  destruct (Obj.get id (RR.rowIndex s)); reflexivity.
Qed.

Lemma setRow_keys category id column s k :
  In k (Obj.keys (RR.rowIndex (RR.setRow category id column s)))
  <-> In k (Obj.keys (RR.rowIndex s)) \/ (k = id /\ id <> "").
Proof.
  destruct (String.eqb_spec id "") as [->|Hid].
  - rewrite setRow_empty_id. intuition congruence.
  - rewrite <- !Obj_has_keys. unfold Obj.has.
    rewrite setRow_rowIndex_get by exact Hid.
    destruct (String.eqb_spec k id) as [->|Hne].
    + intuition.
    + destruct (Obj.get k (RR.rowIndex s)); intuition congruence.
Qed.

Lemma setRow_client category id column s :
  RR.client (RR.setRow category id column s) = RR.client s.
Proof. unfold RR.setRow. destruct (String.eqb id ""); reflexivity. Qed.

End SetRowFacts.

(** The pruning loop of [fillRuleValues] keeps the keys in [inSystem]. *)
Lemma prune_fold_get (inSystem : list string) (ks : list string) :
  forall (o : Obj.t nat) k,
  Obj.get k
    (fold_left (fun o k => if existsb (String.eqb k) inSystem then o
                           else Obj.delete k o) ks o) =
  if existsb (String.eqb k) inSystem then Obj.get k o
  else if existsb (String.eqb k) ks then None else Obj.get k o.
Proof.
  induction ks as [|x ks IH]; intros o k; simpl.
  - destruct (existsb (String.eqb k) inSystem); reflexivity.
  - rewrite IH.
    destruct (existsb (String.eqb k) inSystem) eqn:Ek.
    + destruct (existsb (String.eqb x) inSystem) eqn:Ex; [reflexivity|].
      rewrite Obj_get_delete.
      destruct (String.eqb_spec x k) as [->|]; [congruence | reflexivity].
    + destruct (existsb (String.eqb x) inSystem) eqn:Ex.
      * destruct (String.eqb_spec k x) as [->|]; [congruence|]. reflexivity.
      * rewrite Obj_get_delete. rewrite (String.eqb_sym k x).
        destruct (String.eqb x k); simpl.
        -- destruct (existsb (String.eqb k) ks); reflexivity.
        -- reflexivity.
Qed.

Lemma prune_get (inSystem : list string) (o : Obj.t nat) k :
  Obj.get k (RR.prune inSystem o) =
  if existsb (String.eqb k) inSystem then Obj.get k o else None.
Proof.
  unfold RR.prune. rewrite prune_fold_get.
  destruct (existsb (String.eqb k) inSystem); [reflexivity|].
  destruct (existsb (String.eqb k) (Obj.keys o)) eqn:E; [reflexivity|].
  apply Obj_get_None_keys. intros Hin. apply existsb_eqb_In in Hin. congruence.
Qed.

Lemma touch_refl s : touch [] s s.
Proof. split; [auto | intros k; simpl; tauto]. Qed.

Lemma touch_setRow ids s s' category id column :
  touch ids s s' -> touch (ids ++ [id]) s (RR.setRow category id column s').
Proof.
  intros [Hpos Hkeys]. split.
  - intros k i Hk. apply setRow_keeps_position, Hpos, Hk.
  - intros k. rewrite setRow_keys, Hkeys, in_app_iff. simpl.
    intuition (subst; auto).
Qed.

Lemma touch_ids_equiv ids ids' s s' :
  (forall k, In k ids <-> In k ids') -> touch ids s s' -> touch ids' s s'.
Proof.
  intros Heq [Hpos Hkeys]. split; [exact Hpos|].
  intros k. rewrite Hkeys, Heq. reflexivity.
Qed.

(** ** Pruning *)

Lemma touch_rows (f : RecordInfo -> Row) (g : RecordInfo -> Row) category
    (rows : list RecordInfo) : forall ids s s5,
  touch ids s s5 ->
  touch (ids ++ List.map id rows) s
    (fold_left
       (fun s record =>
          RR.setRow "none" (id record) (g record)
            (RR.setRow category (id record) (f record) s))
       rows s5).
Proof.
  induction rows as [|r rows IH]; intros ids s s5 Ht; simpl.
  - rewrite app_nil_r. exact Ht.
  - eapply touch_ids_equiv; [|apply (IH (ids ++ [id r]))].
    + intros k. rewrite !in_app_iff. simpl. tauto.
    + eapply touch_ids_equiv; [|apply touch_setRow, touch_setRow, Ht].
      intros k. rewrite !in_app_iff. simpl. tauto.
Qed.

(** [fillRuleValues] is [fillRows] followed by the pruning loop. *)
Lemma fillRuleValues_unfold rule rows s s' :
  RR.fillRuleValues rule rows s = Js.Ok s' ->
  exists ruleDefaults ruleValues,
    s' = RR.pruneRows rows
           (RR.fillRows rule ruleDefaults ruleValues rows
              (RR.recordColumnOrder rule s)).
Proof.
  unfold RR.fillRuleValues.
  destruct (defaults rule) as [ruleDefaults|]; [|discriminate].
  destruct (RR.getRule _ _) as [ruleValues|e]; simpl; [|discriminate].
  intros [= <-]. eauto.
Qed.

Lemma fillRows_touch rule ruleDefaults ruleValues rows s1 :
  touch ("ID" :: "default" :: List.map id rows) s1
    (RR.fillRows rule ruleDefaults ruleValues rows s1).
Proof.
  unfold RR.fillRows.
  eapply touch_ids_equiv;
    [|apply (touch_rows _ _ _ rows ["ID"; "ID"; "default"; "default"])].
  - intros k. rewrite in_app_iff. simpl. tauto.
  - change ["ID"; "ID"; "default"; "default"]
      with ((((([] ++ ["ID"]) ++ ["ID"]) ++ ["default"]) ++ ["default"])).
    do 4 apply touch_setRow. apply touch_refl.
Qed.

(** What [fillRuleValues] does to the row index: the sentinels and the
    records are touched in turn, then every key outside [inSystem] is
    deleted. *)
Lemma fillRuleValues_rowIndex rule rows s s' :
  RR.fillRuleValues rule rows s = Js.Ok s' ->
  exists s6,
    touch ("ID" :: "default" :: List.map id rows) s s6
    /\ (forall k, Obj.get k (RR.rowIndex s') =
                  if existsb (String.eqb k) ("ID" :: "default" :: List.map id rows)
                  then Obj.get k (RR.rowIndex s6) else None).
Proof.
  intros Hfill.
  destruct (fillRuleValues_unfold _ _ _ _ Hfill) as (d & rv & ->).
  exists (RR.fillRows rule d rv rows (RR.recordColumnOrder rule s)).
  split.
  - destruct (fillRows_touch rule d rv rows (RR.recordColumnOrder rule s))
      as [Hpos Hkeys].
    split; [exact Hpos | exact Hkeys].
  - intros k. apply prune_get.
Qed.


Lemma scenarioFilled_built :
  RR.fillRuleValues scenarioRule scenarioRecords scenarioRange = Js.Ok scenarioFilled.
Proof. reflexivity. Qed.



(** ** Positions in the row index *)

Lemma viaSetRow_trans s1 s2 s3 :
  viaSetRow s1 s2 -> viaSetRow s2 s3 -> viaSetRow s1 s3.
Proof.
  intros H12 H23. induction H23; [exact H12 | constructor; assumption].
Qed.

Lemma viaSetRow_fold {X} (step : RR.t -> X -> RR.t) (l : list X) :
  (forall s x, viaSetRow s (step s x)) ->
  forall s, viaSetRow s (fold_left step l s).
Proof.
  intros Hstep. induction l as [|x l IH]; intros s; simpl; [constructor|].
  eapply viaSetRow_trans; [apply Hstep | apply IH].
Qed.

Lemma setRulesRow_via header ths s row : viaSetRow s (RR.setRulesRow header ths s row).
Proof.
  unfold RR.setRulesRow. apply viaSetRow_fold.
  intros t th. constructor. constructor.
Qed.

Lemma setRules_via range s s' : RR.setRules range s = Js.Ok s' -> viaSetRow s s'.
Proof.
  unfold RR.setRules. destruct range as [|header rest]; [discriminate|].
  intros [= <-].
  apply (viaSetRow_fold (RR.setRulesRow header (thresholdsOf header))
           (header :: rest)).
  intros t row. apply setRulesRow_via.
Qed.

Lemma setRule_via ruleName ruleValues s : viaSetRow s (RR.setRule ruleName ruleValues s).
Proof.
  unfold RR.setRule. apply viaSetRow_fold. intros t row. constructor. constructor.
Qed.

Lemma setRow_distinctPositions category id column s :
  distinctPositions s -> distinctPositions (RR.setRow category id column s).
Proof.
  intros (Hle & Hinj & Hne).
  destruct (String.eqb_spec id "") as [->|Hid]; [repeat split; assumption|].
  assert (Hlen := setRow_length category id column s).
  destruct (String.eqb_spec id "") as [?|_]; [contradiction|].
  assert (Hget := fun k => setRow_rowIndex_get category id column s k Hid).
  unfold positionFor in Hget.
  destruct (Obj.get id (RR.rowIndex s)) as [i0|] eqn:Hknown.
  - assert (Hsame : forall k, Obj.get k (RR.rowIndex (RR.setRow category id column s))
                              = Obj.get k (RR.rowIndex s)).
    { intros k. rewrite Hget. destruct (String.eqb_spec k id) as [->|]; congruence. }
    repeat split.
    + intros k i. rewrite Hsame, Hlen. apply Hle.
    + intros k1 k2 i. rewrite !Hsame. apply Hinj.
    + rewrite setRow_keys. intuition congruence.
  - repeat split.
    + intros k i. rewrite Hget, Hlen.
      destruct (String.eqb k id); [intros [= <-]; lia|].
      intros H. apply Hle in H. lia.
    + intros k1 k2 i. rewrite !Hget.
      destruct (String.eqb_spec k1 id) as [->|H1];
        destruct (String.eqb_spec k2 id) as [->|H2]; try congruence.
      * intros [= <-] H. apply Hle in H. lia.
      * intros H [= <-]. apply Hle in H. lia.
      * apply Hinj.
    + rewrite setRow_keys. intuition congruence.
Qed.

Lemma viaSetRow_distinctPositions s s' :
  viaSetRow s s' -> distinctPositions s -> distinctPositions s'.
Proof.
  intros Hvia Hs. induction Hvia; [exact Hs|].
  apply setRow_distinctPositions. assumption.
Qed.

Lemma viaSetRow_keeps_position s s' k i :
  viaSetRow s s' -> Obj.get k (RR.rowIndex s) = Some i ->
  Obj.get k (RR.rowIndex s') = Some i.
Proof.
  intros Hvia Hk. induction Hvia; [exact Hk|].
  apply setRow_keeps_position. assumption.
Qed.

Lemma new_unfold range client :
  RR.new range client RR.defaultHeaders = RR.setRules range (initialRange client).
Proof. reflexivity. Qed.

Lemma initialRange_distinctPositions client : distinctPositions (initialRange client).
Proof.
  repeat split.
  - intros k i. simpl.
    destruct (String.eqb k "ID"); [intros [= <-]; lia|].
    destruct (String.eqb k "default"); [intros [= <-]; lia | discriminate].
  - intros k1 k2 i. simpl.
    destruct (String.eqb_spec k1 "ID") as [->|]; destruct (String.eqb_spec k2 "ID") as [->|];
      try destruct (String.eqb_spec k1 "default") as [->|];
      try destruct (String.eqb_spec k2 "default") as [->|];
      congruence.
  - simpl. intros [H|[H|[]]]; discriminate.
Qed.

(** The part of [fillRuleValues] before the pruning loop is a run of
    [setRow] calls. *)
Lemma fillRows_via rule ruleDefaults ruleValues rows s1 :
  viaSetRow s1 (RR.fillRows rule ruleDefaults ruleValues rows s1).
Proof.
  unfold RR.fillRows.
  eapply viaSetRow_trans; [|apply viaSetRow_fold].
  - do 4 constructor. constructor.
  - intros t r. constructor. constructor. constructor.
Qed.

Lemma fillRuleValues_via rule rows s s' :
  RR.fillRuleValues rule rows s = Js.Ok s' ->
  exists s1 s6,
    RR.rowIndex s1 = RR.rowIndex s /\ RR.length s1 = RR.length s
    /\ viaSetRow s1 s6
    /\ (forall k, Obj.get k (RR.rowIndex s') =
                  if existsb (String.eqb k) ("ID" :: "default" :: List.map id rows)
                  then Obj.get k (RR.rowIndex s6) else None)
    /\ RR.length s' = RR.length s6.
Proof.
  intros Hfill.
  destruct (fillRuleValues_unfold _ _ _ _ Hfill) as (d & rv & ->).
  exists (RR.recordColumnOrder rule s),
         (RR.fillRows rule d rv rows (RR.recordColumnOrder rule s)).
  split; [reflexivity|]. split; [reflexivity|].
  split; [apply fillRows_via|]. split; [|reflexivity].
  intros k. apply prune_get.
Qed.

Lemma fillRuleValues_distinctPositions rule rows s s' :
  RR.fillRuleValues rule rows s = Js.Ok s' ->
  distinctPositions s -> distinctPositions s'.
Proof.
  intros Hfill (Hle & Hinj & Hne).
  destruct (fillRuleValues_via _ _ _ _ Hfill)
    as (s1 & s6 & Hri & Hlen & Hvia & Hget & Hlen').
  assert (H1 : distinctPositions s1).
  { unfold distinctPositions. rewrite Hri, Hlen. repeat split; assumption. }
  destruct (viaSetRow_distinctPositions _ _ Hvia H1) as (Hle6 & Hinj6 & Hne6).
  repeat split.
  - intros k i. rewrite Hget, Hlen'.
    destruct (existsb _ _); [apply Hle6 | discriminate].
  - intros k1 k2 i. rewrite !Hget.
    destruct (existsb (String.eqb k1) _); [|discriminate].
    destruct (existsb (String.eqb k2) _); [|discriminate].
    apply Hinj6.
  - intros Hin. apply Obj_has_keys in Hin. unfold Obj.has in Hin.
    rewrite Hget in Hin. apply Hne6. apply Obj_has_keys. unfold Obj.has.
    destruct (existsb _ _); [exact Hin | discriminate].
Qed.

Lemma reachable_distinctPositions s : reachable s -> distinctPositions s.
Proof.
  induction 1 as [range client s Hnew | | | range s s' _ IH Hset | rule rows s s' _ IH Hfill].
  - rewrite new_unfold in Hnew.
    eapply viaSetRow_distinctPositions;
      [apply (setRules_via range), Hnew | apply initialRange_distinctPositions].
  - apply setRow_distinctPositions. assumption.
  - eapply viaSetRow_distinctPositions; [apply setRule_via | assumption].
  - eapply viaSetRow_distinctPositions;
      [apply (setRules_via range), Hset | assumption].
  - eapply fillRuleValues_distinctPositions; eassumption.
Qed.

(** ** The row index that [getValues] commits *)







(** Keys stay distinct under writes and deletions. *)
Lemma Obj_keys_update {V} k (v : V) (o : Obj.t V) :
  Obj.keys (Obj.update k v o) = Obj.keys o.
Proof.
  unfold Obj.keys. induction o as [|[k0 v0] o IH]; simpl; [reflexivity|].
  destruct (String.eqb k k0); simpl; [reflexivity | f_equal; exact IH].
Qed.

Lemma Obj_keys_insertIndex {V} n k (v : V) (o : Obj.t V) :
  Permutation (Obj.keys (Obj.insertIndex n k v o)) (k :: Obj.keys o).
Proof.
  unfold Obj.keys. induction o as [|[k0 v0] o IH]; simpl; [reflexivity|].
  destruct (Js.arrayIndex k0) as [m|]; [|reflexivity].
  destruct (m <? n)%Z; [|reflexivity].
  simpl. rewrite IH. apply perm_swap.
Qed.

Lemma Obj_keys_set_perm {V} k (v : V) (o : Obj.t V) :
  Obj.get k o = None -> Permutation (Obj.keys (Obj.set k v o)) (k :: Obj.keys o).
Proof.
  intros Hk. unfold Obj.set, Obj.has. rewrite Hk.
  destruct (Js.arrayIndex k) as [n|].
  - apply Obj_keys_insertIndex.
  - unfold Obj.keys. rewrite map_app. simpl.
    symmetry. apply Permutation_cons_append.
Qed.

Lemma Obj_keys_set_NoDup {V} k (v : V) (o : Obj.t V) :
  List.NoDup (Obj.keys o) -> List.NoDup (Obj.keys (Obj.set k v o)).
Proof.
  intros Hnd. destruct (Obj.get k o) as [v0|] eqn:Hk.
  - unfold Obj.set, Obj.has. rewrite Hk, Obj_keys_update. exact Hnd.
  - eapply Permutation_NoDup;
      [apply Permutation_sym, Obj_keys_set_perm, Hk|].
    constructor; [apply Obj_get_None_keys, Hk | exact Hnd].
Qed.

Lemma Obj_keys_delete_NoDup {V} k (o : Obj.t V) :
  List.NoDup (Obj.keys o) -> List.NoDup (Obj.keys (Obj.delete k o)).
Proof.
  unfold Obj.keys, Obj.delete.
  induction o as [|[k0 v0] o IH]; simpl; intros Hnd; [constructor|].
  inversion Hnd as [|? ? Hnotin Hnd']; subst.
  destruct (String.eqb k k0); simpl; [apply IH, Hnd'|].
  constructor; [|apply IH, Hnd'].
  intros Hin. apply Hnotin. apply in_map_iff in Hin as ([k1 v1] & <- & Hin).
  apply filter_In in Hin as [Hin _].
  apply in_map_iff. exists (k1, v1). split; [reflexivity | exact Hin].
Qed.

Lemma setRow_keys_NoDup category id column s :
  List.NoDup (Obj.keys (RR.rowIndex s)) ->
  List.NoDup (Obj.keys (RR.rowIndex (RR.setRow category id column s))).
Proof.
  intros Hnd. unfold RR.setRow. destruct (String.eqb id ""); [exact Hnd|].
  destruct (Obj.get id (RR.rowIndex s)); simpl; [exact Hnd|].
  apply Obj_keys_set_NoDup, Hnd.
Qed.

Lemma viaSetRow_keys_NoDup s s' :
  viaSetRow s s' -> List.NoDup (Obj.keys (RR.rowIndex s)) ->
  List.NoDup (Obj.keys (RR.rowIndex s')).
Proof.
  intros Hvia Hs. induction Hvia; [exact Hs|].
  apply setRow_keys_NoDup. assumption.
Qed.

Lemma prune_fold_keys_NoDup (inSystem ks : list string) : forall o : Obj.t nat,
  List.NoDup (Obj.keys o) ->
  List.NoDup
    (Obj.keys
       (fold_left (fun o k => if existsb (String.eqb k) inSystem then o
                              else Obj.delete k o) ks o)).
Proof.
  induction ks as [|x ks IH]; intros o Hnd; simpl; [exact Hnd|].
  apply IH. destruct (existsb (String.eqb x) inSystem); [exact Hnd|].
  apply Obj_keys_delete_NoDup, Hnd.
Qed.

Lemma fillRuleValues_keys_NoDup rule rows s s' :
  RR.fillRuleValues rule rows s = Js.Ok s' ->
  List.NoDup (Obj.keys (RR.rowIndex s)) ->
  List.NoDup (Obj.keys (RR.rowIndex s')).
Proof.
  intros Hfill Hnd.
  destruct (fillRuleValues_unfold _ _ _ _ Hfill) as (d & rv & ->).
  unfold RR.pruneRows, RR.prune. cbn [RR.rowIndex].
  apply prune_fold_keys_NoDup.
  eapply viaSetRow_keys_NoDup; [apply fillRows_via | exact Hnd].
Qed.

Lemma reachable_keys_NoDup s : reachable s -> List.NoDup (Obj.keys (RR.rowIndex s)).
Proof.
  induction 1 as [range client s Hnew | | | range s s' _ IH Hset | rule rows s s' _ IH Hfill].
  - rewrite new_unfold in Hnew.
    eapply viaSetRow_keys_NoDup; [apply (setRules_via range), Hnew|].
    simpl. repeat constructor; simpl; intuition discriminate.
  - apply setRow_keys_NoDup. assumption.
  - eapply viaSetRow_keys_NoDup; [apply setRule_via | assumption].
  - eapply viaSetRow_keys_NoDup; [apply (setRules_via range), Hset | assumption].
  - eapply fillRuleValues_keys_NoDup; eassumption.
Qed.





(** ** The grid of [getValues], block by block *)

Lemma imap_blank {A} (l : list A) : forall (f : nat -> A -> string),
  (forall i x, f i x = "") -> imap f l = replicate (length l) "".
Proof.
  induction l as [|x l IH]; intros f Hf; simpl; [reflexivity|].
  rewrite Hf. f_equal. apply IH. intros i y. apply Hf.
Qed.

Lemma imap_append_rows {A} (h g : A -> Row) (E : list A) : forall (rows : list Row) (k : nat),
  (forall m e, E !! m = Some e -> Js.nullish (rows !! (k + m)) [] = g e) ->
  imap (fun m e => Js.nullish (rows !! (k + m)) [] ++ h e) E
  = List.map (fun e => g e ++ h e) E.
Proof.
  induction E as [|e E IH]; intros rows k Hrows; simpl; [reflexivity|].
  f_equal.
  - rewrite (Hrows 0 e eq_refl). reflexivity.
  - specialize (IH rows (S k)).
    rewrite <- IH.
    + apply imap_ext. intros i x _. simpl.
      replace (k + S i) with (S (k + i)) by lia. reflexivity.
    + intros m e' Hm. replace (S k + m) with (k + S m) by lia.
      apply Hrows. exact Hm.
Qed.

Section BlockReduction.

Variable s : RR.t.

Let E := RR.sortedEntries (RR.rowIndex s).
Let store := ruleStore (RR.client s).

Lemma appendBlock_none acc rangeRaw g :
  (forall m e, E !! m = Some e -> Js.nullish (RR.body acc !! m) [] = g e) ->
  length (RR.body acc) <= length E ->
  RR.row0 (RR.appendBlock s acc "none" rangeRaw)
  = RR.row0 acc ++ replicate (RR.columnCount rangeRaw) ""
  /\ RR.row1 (RR.appendBlock s acc "none" rangeRaw) = [""; ""]
  /\ RR.body (RR.appendBlock s acc "none" rangeRaw)
     = List.map (fun e => g e ++ blockCells rangeRaw (snd e)) E.
Proof.
  intros Hrows Hlen. unfold RR.appendBlock. simpl.
  split; [reflexivity|]. split; [reflexivity|].
  fold E. rewrite drop_ge by exact Hlen. rewrite app_nil_r.
  apply (imap_append_rows (fun e => blockCells rangeRaw (snd e)) g E
           (RR.body acc) 0 Hrows).
Qed.

Lemma appendBlock_rule acc category rangeRaw g :
  category <> "none" ->
  RR.columnCount rangeRaw <> 0 ->
  (forall m e, E !! m = Some e -> Js.nullish (RR.body acc !! m) [] = g e) ->
  length (RR.body acc) <= length E ->
  RR.row0 (RR.appendBlock s acc category rangeRaw)
  = RR.row0 acc ++ replicate (RR.columnCount rangeRaw) category
  /\ RR.row1 (RR.appendBlock s acc category rangeRaw)
     = RR.row1 acc
       ++ helperOf store category :: replicate (RR.columnCount rangeRaw - 1) ""
  /\ RR.body (RR.appendBlock s acc category rangeRaw)
     = List.map (fun e => g e ++ blockCells rangeRaw (snd e)) E.
Proof.
  intros Hcat Hcount Hrows Hlen. unfold RR.appendBlock.
  destruct (String.eqb_spec category "none") as [?|_]; [contradiction|].
  cbn [RR.row0 RR.row1 RR.body].
  split; [reflexivity|]. split.
  - f_equal.
    destruct (RR.columnCount rangeRaw) as [|c] eqn:Hc; [contradiction|].
    cbn [replicate imap]. f_equal.
    + change (0 =? 0) with true. cbv iota.
      rewrite lookup_app_r by (simpl; lia).
      replace (0 + length (RR.row0 acc) - length (RR.row0 acc)) with 0 by lia.
      reflexivity.
    + rewrite Nat.sub_succ, Nat.sub_0_r.
      rewrite (imap_blank (replicate c "")); [|reflexivity].
      rewrite length_replicate. reflexivity.
  - fold E. rewrite drop_ge by exact Hlen. rewrite app_nil_r.
    apply (imap_append_rows (fun e => blockCells rangeRaw (snd e)) g E
             (RR.body acc) 0 Hrows).
Qed.

(** Blocks without columns are skipped. *)
Lemma reduce_emitted (blocks : Obj.t (Arr.t Row)) : forall acc,
  RR.reduce (RR.getValuesStep None s) blocks acc
  = RR.reduce (RR.getValuesStep None s) (emitted blocks) acc.
Proof.
  induction blocks as [|b blocks IH]; intros acc; [reflexivity|].
  unfold emitted. cbn [List.filter RR.reduce]. fold (emitted blocks).
  unfold RR.getValuesStep at 1. cbn [Js.bind].
  destruct (Nat.eqb_spec (RR.columnCount (snd b)) 0) as [Hc|Hc]; cbn [negb].
  - apply IH.
  - cbn [RR.reduce]. unfold RR.getValuesStep at 2. cbn [Js.bind].
    destruct (Nat.eqb_spec (RR.columnCount (snd b)) 0) as [?|_]; [contradiction|].
    cbn [Js.bind]. apply IH.
Qed.

(** The rule blocks after the identity block. *)
Lemma reduce_rule_blocks (blocks : Obj.t (Arr.t Row)) : forall acc g,
  Forall (fun b => fst b <> "none" /\ RR.columnCount (snd b) <> 0) blocks ->
  RR.body acc = List.map g E ->
  exists acc',
    RR.reduce (RR.getValuesStep None s) blocks acc = Js.Ok acc'
    /\ RR.row0 acc'
       = RR.row0 acc
         ++ layoutHeader0
              (List.map (fun b => (fst b, RR.columnCount (snd b))) blocks)
    /\ RR.row1 acc'
       = RR.row1 acc
         ++ layoutHeader1 store
              (List.map (fun b => (fst b, RR.columnCount (snd b))) blocks)
    /\ RR.body acc'
       = List.map
           (fun e => g e ++ concat (List.map (fun b => blockCells (snd b) (snd e))
                                             blocks)) E.
Proof.
  induction blocks as [|[category rangeRaw] blocks IH]; intros acc g Hall Hbody.
  - exists acc. split; [reflexivity|].
    unfold layoutHeader0, layoutHeader1. simpl. rewrite !app_nil_r.
    split; [reflexivity|]. split; [reflexivity|].
    rewrite Hbody. apply map_ext. intros e. rewrite app_nil_r. reflexivity.
  - inversion Hall as [|? ? [Hcat Hcount] Hall']; subst. simpl in Hcat, Hcount.
    cbn [RR.reduce]. unfold RR.getValuesStep at 1. cbn [Js.bind fst snd].
    destruct (Nat.eqb_spec (RR.columnCount rangeRaw) 0) as [?|_]; [contradiction|].
    cbn [Js.bind].
    destruct (appendBlock_rule acc category rangeRaw g Hcat Hcount)
      as (H0 & H1 & Hb).
    { intros m e Hm. rewrite Hbody.
      change (List.map g E) with (g <$> E). rewrite list_lookup_fmap, Hm.
      reflexivity. }
    { rewrite Hbody, length_map. lia. }
    destruct (IH (RR.appendBlock s acc category rangeRaw)
                (fun e => g e ++ blockCells rangeRaw (snd e)) Hall' Hb)
      as (acc' & Hred & H0' & H1' & Hb').
    exists acc'. split; [exact Hred|].
    unfold layoutHeader0, layoutHeader1 in *. cbn [List.map concat fst snd].
    rewrite H0', H1', Hb', H0, H1.
    unfold headerName at 2.
    destruct (String.eqb_spec category "none") as [?|_]; [contradiction|].
    rewrite <- !app_assoc. split; [reflexivity|]. split; [reflexivity|].
    apply map_ext. intros e. rewrite <- app_assoc. reflexivity.
Qed.

(** The grid of [getValues()] when the first emitted block is the
    identity block and no other block bears its name. *)
Lemma getValues_render arr0 blocks :
  emitted (RR.rules s) = ("none", arr0) :: blocks ->
  Forall (fun b => fst b <> "none") blocks ->
  exists s',
    RR.getValues None s
    = Js.Ok (renderGrid store (layoutOf s) (piecesOf s), s').
Proof.
  intros Hem Hnames.
  assert (Hall : Forall (fun b => fst b <> "none" /\ RR.columnCount (snd b) <> 0)
                        blocks).
  { rewrite List.Forall_forall in *. intros b Hb. split; [apply Hnames, Hb|].
    assert (Hin : In b (emitted (RR.rules s))) by (rewrite Hem; right; exact Hb).
    unfold emitted in Hin. apply filter_In in Hin as [_ Hc].
    destruct (Nat.eqb_spec (RR.columnCount (snd b)) 0); [discriminate | assumption]. }
  assert (Hc0 : RR.columnCount arr0 <> 0).
  { assert (Hin : In ("none", arr0) (emitted (RR.rules s))) by (rewrite Hem; left; reflexivity).
    unfold emitted in Hin. apply filter_In in Hin as [_ Hc]. simpl in Hc.
    destruct (Nat.eqb_spec (RR.columnCount arr0) 0); [discriminate | assumption]. }
  unfold RR.getValues. rewrite reduce_emitted, Hem.
  cbn [RR.reduce]. unfold RR.getValuesStep at 1. cbn [Js.bind fst snd].
  destruct (Nat.eqb_spec (RR.columnCount arr0) 0) as [?|_]; [contradiction|].
  cbn [Js.bind].
  set (acc0 := RR.mkAcc [] [] [] (RR.rowIndex s)).
  destruct (appendBlock_none acc0 arr0 (fun _ => [])) as (H0 & H1 & Hb).
  { intros m e _. reflexivity. }
  { simpl. lia. }
  destruct (reduce_rule_blocks blocks (RR.appendBlock s acc0 "none" arr0)
              (fun e => [] ++ blockCells arr0 (snd e)) Hall Hb)
    as (acc' & Hred & H0' & H1' & Hb').
  rewrite Hred. cbn [Js.bind]. eexists. f_equal. f_equal.
  unfold renderGrid, layoutOf, piecesOf. rewrite Hem.
  cbn [List.map tail fst snd]. fold E.
  rewrite H0', H1', Hb', H0, H1. f_equal. f_equal.
  rewrite map_map. apply map_ext. intros e. reflexivity.
Qed.

End BlockReduction.

(** ** Reading a rendered header back *)

Lemma dedupFrom_lookup raw : forall prev c,
  dedupFrom prev raw !! c =
  match raw !! c with
  | Some x =>
      Some (if Js.cellEqb (match c with 0 => prev | S c' => raw !! c' end) (Some x)
            then "" else x)
  | None => None
  end.
Proof.
  induction raw as [|x raw IH]; intros prev c; [reflexivity|].
  destruct c as [|c]; simpl; [reflexivity|].
  rewrite IH. destruct c; reflexivity.
Qed.

Lemma dedupHeader_dedupFrom raw : dedupHeader raw = dedupFrom None raw.
Proof.
  apply list_eq. intros c.
  rewrite dedupHeader_lookup, dedupFrom_lookup. unfold dedupCell.
  destruct (raw !! c) as [x|]; [|reflexivity].
  destruct c as [|c]; [reflexivity|].
  simpl. rewrite Nat.sub_0_r. reflexivity.
Qed.

Lemma cellEqb_refl x : Js.cellEqb (Some x) (Some x) = true.
Proof. simpl. apply String.eqb_refl. Qed.

Lemma dedupFrom_repeat x k rest :
  dedupFrom (Some x) (replicate k x ++ rest)
  = replicate k "" ++ dedupFrom (Some x) rest.
Proof.
  induction k as [|k IH]; simpl; [reflexivity|].
  rewrite String.eqb_refl, IH. reflexivity.
Qed.

Lemma dedupFrom_layout layout : forall prev,
  separated prev layout ->
  dedupFrom (Some prev) (layoutHeader0 layout) = niceHeader layout.
Proof.
  induction layout as [|[nm c] layout IH]; intros prev Hsep; [reflexivity|].
  destruct Hsep as (Hc & Hne & Hsep). simpl in Hc, Hne, Hsep.
  unfold layoutHeader0, niceHeader. cbn [List.map concat fst snd].
  destruct c as [|c]; [lia|]. cbn [replicate app dedupFrom].
  rewrite Nat.sub_succ, Nat.sub_0_r.
  assert (Heq : Js.cellEqb (Some prev) (Some (headerName nm)) = false).
  { simpl. destruct (String.eqb_spec prev (headerName nm)); congruence. }
  rewrite Heq. f_equal. rewrite dedupFrom_repeat. f_equal.
  apply IH, Hsep.
Qed.

Lemma dedupHeader_layout c0 layout :
  1 <= c0 -> separated "" layout ->
  dedupHeader (layoutHeader0 (("none", c0) :: layout))
  = niceHeader (("none", c0) :: layout).
Proof.
  intros Hc Hsep. rewrite dedupHeader_dedupFrom.
  unfold layoutHeader0, niceHeader. cbn [List.map concat fst snd].
  change (headerName "none") with "".
  destruct c0 as [|c0]; [lia|]. cbn [replicate app dedupFrom Js.cellEqb].
  rewrite Nat.sub_succ, Nat.sub_0_r. f_equal.
  rewrite dedupFrom_repeat. f_equal.
  apply dedupFrom_layout, Hsep.
Qed.

Lemma scan_fold_scanFrom header rest : forall pre st,
  header = pre ++ rest ->
  fold_left
    (fun st col =>
       if Js.truthy (Js.nullish (header !! col) "")
       then (col, snd st ++ [(fst st, col)])
       else st)
    (seq (length pre) (length rest)) st
  = scanFrom rest (length pre) (fst st) (snd st).
Proof.
  induction rest as [|x rest IH]; intros pre st Hh.
  - destruct st; reflexivity.
  - cbn [length seq fold_left scanFrom].
    assert (Hx : header !! length pre = Some x).
    { rewrite Hh, lookup_app_r by lia. rewrite Nat.sub_diag. reflexivity. }
    rewrite Hx. cbn [Js.nullish].
    specialize (IH (pre ++ [x])). rewrite length_app in IH. simpl in IH.
    replace (length pre + 1) with (S (length pre)) in IH by lia.
    destruct (Js.truthy x).
    + rewrite IH by (rewrite <- app_assoc; exact Hh). reflexivity.
    + rewrite IH by (rewrite <- app_assoc; exact Hh). reflexivity.
Qed.

Lemma thresholdsOf_scanFrom header :
  thresholdsOf header = closeScan (scanFrom header 0 0 []) (length header).
Proof.
  unfold thresholdsOf, closeScan.
  pose proof (scan_fold_scanFrom header header [] (0, []) eq_refl) as H.
  change (length (@nil string)) with 0 in H. rewrite H. reflexivity.
Qed.

Lemma scanFrom_blanks k rest : forall col start ths,
  scanFrom (replicate k "" ++ rest) col start ths = scanFrom rest (col + k) start ths.
Proof.
  induction k as [|k IH]; intros col start ths; simpl.
  - rewrite Nat.add_0_r. reflexivity.
  - rewrite IH. f_equal. lia.
Qed.

Lemma scanFrom_layout layout : forall col start ths,
  start < col ->
  Forall (fun b => Js.truthy (headerName (fst b)) = true /\ 1 <= snd b) layout ->
  closeScan (scanFrom (niceHeader layout) col start ths)
            (col + length (niceHeader layout))
  = ths ++ (start, col) :: spans (List.map snd layout) col.
Proof.
  induction layout as [|[nm c] layout IH]; intros col start ths Hlt Hall.
  - unfold closeScan. simpl. rewrite Nat.add_0_r.
    destruct (Nat.eqb_spec start col); [lia | reflexivity].
  - inversion Hall as [|? ? [Ht Hc] Hall']; subst. simpl in Ht, Hc.
    unfold niceHeader. cbn [List.map concat fst snd].
    fold (niceHeader layout). cbn [app scanFrom spans]. rewrite Ht.
    rewrite scanFrom_blanks.
    replace (S col + (c - 1)) with (col + c) by lia.
    replace (col + length (headerName nm :: replicate (c - 1) "" ++ niceHeader layout))
      with ((col + c) + length (niceHeader layout))
      by (simpl; rewrite length_app, length_replicate; lia).
    rewrite IH by (assumption || lia).
    rewrite <- app_assoc. reflexivity.
Qed.

Lemma thresholdsOf_layout c0 layout :
  1 <= c0 ->
  Forall (fun b => Js.truthy (headerName (fst b)) = true /\ 1 <= snd b) layout ->
  thresholdsOf (niceHeader (("none", c0) :: layout))
  = spans (c0 :: List.map snd layout) 0.
Proof.
  intros Hc Hall. rewrite thresholdsOf_scanFrom.
  unfold niceHeader. cbn [List.map concat fst snd]. fold (niceHeader layout).
  change (headerName "none") with "". cbn [app scanFrom Js.truthy String.eqb negb].
  rewrite scanFrom_blanks.
  replace (1 + (c0 - 1)) with c0 by lia.
  replace (length ("" :: replicate (c0 - 1) "" ++ niceHeader layout))
    with (c0 + length (niceHeader layout))
    by (simpl; rewrite length_app, length_replicate; lia).
  rewrite scanFrom_layout by (assumption || lia). reflexivity.
Qed.

Lemma categoryAt_headerName header start nm :
  nm <> "" -> header !! start = Some (headerName nm) -> categoryAt header start = nm.
Proof.
  intros Hnm Hh. unfold categoryAt. rewrite Hh. cbn [Js.nullish].
  unfold headerName, Js.truthy.
  destruct (String.eqb_spec nm "none") as [->|Hne]; [reflexivity|].
  destruct (String.eqb_spec nm ""); [contradiction | reflexivity].
Qed.

(** Cutting a rendered row at the spans of the header gives back the
    pieces, each under the name of its block. *)
Lemma spans_cut (rowBlocks : list (string * Row)) : forall (preH preR : Row),
  length preH = length preR ->
  Forall (fun b => fst b <> "" /\ 1 <= length (snd b)) rowBlocks ->
  List.map
    (fun th =>
       (categoryAt (preH ++ niceHeader (layoutOfBlocks rowBlocks)) (fst th),
        Js.slice (fst th) (snd th) (preR ++ concat (List.map snd rowBlocks))))
    (spans (List.map snd (layoutOfBlocks rowBlocks)) (length preH))
  = rowBlocks.
Proof.
  induction rowBlocks as [|[nm piece] rowBlocks IH]; intros preH preR Hlen Hall;
    [reflexivity|].
  inversion Hall as [|? ? [Hnm Hc] Hall']; subst. simpl in Hnm, Hc.
  unfold layoutOfBlocks, niceHeader.
  cbn [List.map concat fst snd spans].
  fold (layoutOfBlocks rowBlocks). fold (niceHeader (layoutOfBlocks rowBlocks)).
  f_equal.
  - f_equal.
    + apply categoryAt_headerName; [exact Hnm|].
      rewrite lookup_app_r by lia. rewrite Nat.sub_diag. reflexivity.
    + unfold Js.slice. rewrite Hlen.
      replace (length preR + length piece - length preR) with (length piece) by lia.
      rewrite drop_app_length, take_app_length. reflexivity.
  - specialize (IH (preH ++ headerName nm :: replicate (length piece - 1) "")
                   (preR ++ piece)).
    assert (Hl : length (preH ++ headerName nm :: replicate (length piece - 1) "")
                 = length preH + length piece).
    { rewrite length_app. simpl. rewrite length_replicate. lia. }
    rewrite Hl in IH. rewrite <- !app_assoc in IH. cbn [app] in IH.
    cbn [app]. apply IH; [|exact Hall'].
    rewrite length_app. lia.
Qed.

Lemma fold_left_map_arg {A B C} (f : A -> C -> A) (g : B -> C) (l : list B) :
  forall a, fold_left (fun a b => f a (g b)) l a = fold_left f (List.map g l) a.
Proof.
  induction l as [|b l IH]; intros a; simpl; [reflexivity | apply IH].
Qed.

(** On a rendered row, [setRules] writes the pieces under the names of
    their blocks. *)
Lemma setRulesRow_blocks (rowBlocks : list (string * Row)) c0 layout s :
  layoutOfBlocks rowBlocks = ("none", c0) :: layout ->
  Forall (fun b => fst b <> "none") layout ->
  Forall (fun b => fst b <> "" /\ 1 <= length (snd b)) rowBlocks ->
  let header := niceHeader (layoutOfBlocks rowBlocks) in
  let row := concat (List.map snd rowBlocks) in
  RR.setRulesRow header (thresholdsOf header) s row
  = setBlocks (Js.toKey (row !! 0)) rowBlocks s.
Proof.
  intros Hlayout Hnone Hall header row.
  assert (Hths : thresholdsOf header
                 = spans (List.map snd (layoutOfBlocks rowBlocks)) 0).
  { unfold header. rewrite Hlayout.
    assert (Hall2 : Forall (fun b => fst b <> "" /\ 1 <= snd b)
                           (("none", c0) :: layout)).
    { rewrite <- Hlayout. unfold layoutOfBlocks.
      rewrite List.Forall_forall in *. intros b Hb.
      apply in_map_iff in Hb as (b' & <- & Hb'). apply Hall, Hb'. }
    inversion Hall2 as [|? ? [_ Hc0] Hall2']; subst.
    apply thresholdsOf_layout; [exact Hc0|].
    rewrite List.Forall_forall in *. intros b Hb.
    destruct (Hall2' b Hb) as [Hnm Hw]. split; [|exact Hw].
    unfold headerName, Js.truthy.
    destruct (String.eqb_spec (fst b) "none") as [Hn|_];
      [exfalso; exact (Hnone b Hb Hn)|].
    destruct (String.eqb_spec (fst b) ""); [contradiction | reflexivity]. }
  unfold RR.setRulesRow, setBlocks. rewrite Hths.
  rewrite (fold_left_map_arg
             (fun s b => RR.setRow (fst b) (Js.toKey (row !! 0)) (snd b) s)
             (fun th => (categoryAt header (fst th),
                         Js.slice (fst th) (snd th) row))).
  pose proof (spans_cut rowBlocks [] [] eq_refl Hall) as Hcut.
  cbn [app length] in Hcut. fold header row in Hcut. rewrite Hcut.
  reflexivity.
Qed.

(** ** Arrays and the rule blocks under [setRow] *)

Lemma Arr_get_set {A} (q i : nat) (v : A) (a : Arr.t A) :
  Arr.get q (Arr.set i v a) = if q =? i then Some v else Arr.get q a.
Proof.
  unfold Arr.get, Arr.set.
  destruct (Nat.ltb_spec i (length a)) as [Hlt|Hge].
  - destruct (Nat.eqb_spec q i) as [->|Hne].
    + rewrite list_lookup_insert_eq by exact Hlt. reflexivity.
    + rewrite list_lookup_insert_ne by congruence. reflexivity.
  - destruct (Nat.eqb_spec q i) as [->|Hne].
    + rewrite lookup_app_r by exact Hge.
      rewrite lookup_app_r by (rewrite length_replicate; lia).
      rewrite length_replicate, Nat.sub_diag. reflexivity.
    + destruct (Nat.lt_ge_cases q (length a)) as [Hq|Hq].
      * rewrite lookup_app_l by exact Hq. reflexivity.
      * rewrite lookup_app_r by exact Hq.
        rewrite (proj2 (lookup_ge_None a q)) by exact Hq.
        destruct (Nat.lt_ge_cases (q - length a) (i - length a)) as [Hr|Hr].
        -- rewrite lookup_app_l by (rewrite length_replicate; exact Hr).
           rewrite lookup_replicate_2 by exact Hr. reflexivity.
        -- rewrite lookup_app_r by (rewrite length_replicate; exact Hr).
           rewrite length_replicate.
           destruct (q - length a - (i - length a)) as [|d] eqn:Hd; [lia|].
           reflexivity.
Qed.

(** The column count is read off a non-empty first row. *)
Lemma columnCount_head (a : Arr.t Row) r :
  Arr.get 0 a = Some r -> r <> [] -> RR.columnCount a = length r.
Proof.
  unfold Arr.get, RR.columnCount.
  destruct a as [|[x|] a]; simpl; try discriminate.
  intros [= ->] Hr. destruct r; [contradiction | reflexivity].
Qed.

Lemma setRow_rules_get category id column s cat :
  id <> "" ->
  Obj.get cat (RR.rules (RR.setRow category id column s)) =
  if String.eqb cat category
  then Some (Arr.set (positionFor id s) column
               (Js.nullish (Obj.get category (RR.rules s)) []))
  else Obj.get cat (RR.rules s).
Proof.
  intros Hid. unfold RR.setRow, positionFor.
  destruct (String.eqb_spec id "") as [?|_]; [contradiction|].
  destruct (Obj.get id (RR.rowIndex s)); simpl; apply Obj_get_set.
Qed.

Lemma Obj_keys_set_exact {V} k (v : V) (o : Obj.t V) :
  Js.arrayIndex k = None ->
  Obj.keys (Obj.set k v o) = if Obj.has k o then Obj.keys o else Obj.keys o ++ [k].
Proof.
  intros Hk. unfold Obj.set. destruct (Obj.has k o).
  - apply Obj_keys_update.
  - rewrite Hk. unfold Obj.keys. rewrite map_app. reflexivity.
Qed.

Lemma setRow_rules_keys category id column s :
  id <> "" -> Js.arrayIndex category = None ->
  Obj.keys (RR.rules (RR.setRow category id column s)) =
  if Obj.has category (RR.rules s) then Obj.keys (RR.rules s)
  else Obj.keys (RR.rules s) ++ [category].
Proof.
  intros Hid Hcat. unfold RR.setRow.
  destruct (String.eqb_spec id "") as [?|_]; [contradiction|].
  simpl. apply Obj_keys_set_exact, Hcat.
Qed.

Lemma positionFor_setRow category id column s :
  id <> "" -> positionFor id (RR.setRow category id column s) = positionFor id s.
Proof.
  intros Hid. unfold positionFor at 1.
  rewrite setRow_rowIndex_get by exact Hid. rewrite String.eqb_refl. reflexivity.
Qed.

Lemma setBlocks_empty_id rowBlocks s : setBlocks "" rowBlocks s = s.
Proof.
  unfold setBlocks. induction rowBlocks as [|b bs IH]; simpl; [reflexivity|].
  rewrite setRow_empty_id. exact IH.
Qed.

Lemma setBlocks_client id rowBlocks : forall s,
  RR.client (setBlocks id rowBlocks s) = RR.client s.
Proof.
  unfold setBlocks. induction rowBlocks as [|b bs IH]; intros s; simpl;
    [reflexivity|].
  rewrite IH. apply setRow_client.
Qed.

Section SetBlocks.

Variable id : string.
Hypothesis Hid : id <> "".

Lemma setBlocks_cons b bs s :
  setBlocks id (b :: bs) s = setBlocks id bs (RR.setRow (fst b) id (snd b) s).
Proof. reflexivity. Qed.

Lemma setBlocks_rowIndex bs : forall s k,
  bs <> [] ->
  Obj.get k (RR.rowIndex (setBlocks id bs s)) =
  if String.eqb k id then Some (positionFor id s) else Obj.get k (RR.rowIndex s).
Proof.
  induction bs as [|b bs IH]; intros s k Hne; [contradiction|].
  rewrite setBlocks_cons.
  destruct bs as [|b' bs'].
  - simpl. apply setRow_rowIndex_get, Hid.
  - rewrite IH by discriminate. rewrite positionFor_setRow by exact Hid.
    rewrite setRow_rowIndex_get by exact Hid.
    destruct (String.eqb k id); reflexivity.
Qed.

Lemma setBlocks_length bs : forall s,
  bs <> [] ->
  RR.length (setBlocks id bs s) =
  match Obj.get id (RR.rowIndex s) with
  | Some _ => RR.length s
  | None => S (RR.length s)
  end.
Proof.
  induction bs as [|b bs IH]; intros s Hne; [contradiction|].
  rewrite setBlocks_cons.
  assert (Hlen := setRow_length (fst b) id (snd b) s).
  destruct (String.eqb_spec id "") as [?|_]; [contradiction|].
  destruct bs as [|b' bs'].
  - simpl. exact Hlen.
  - rewrite IH by discriminate.
    rewrite setRow_rowIndex_get by exact Hid. rewrite String.eqb_refl.
    exact Hlen.
Qed.

Lemma setBlocks_rules_get bs : forall s cat,
  List.NoDup (Obj.keys bs) ->
  Obj.get cat (RR.rules (setBlocks id bs s)) =
  match Obj.get cat bs with
  | Some piece =>
      Some (Arr.set (positionFor id s) piece
              (Js.nullish (Obj.get cat (RR.rules s)) []))
  | None => Obj.get cat (RR.rules s)
  end.
Proof.
  induction bs as [|[nm piece] bs IH]; intros s cat Hnd; [reflexivity|].
  unfold Obj.keys in Hnd. simpl in Hnd.
  inversion Hnd as [|? ? Hnotin Hnd']; subst.
  rewrite setBlocks_cons. cbn [fst snd].
  rewrite IH by exact Hnd'. rewrite positionFor_setRow by exact Hid.
  rewrite !setRow_rules_get by exact Hid. simpl.
  destruct (String.eqb_spec cat nm) as [->|Hne].
  - replace (Obj.get nm bs) with (@None (list string)); [reflexivity|].
    symmetry. apply Obj_get_None_keys. exact Hnotin.
  - reflexivity.
Qed.

Lemma setBlocks_rules_keys bs : forall s,
  List.NoDup (Obj.keys bs) ->
  Forall (fun b => Js.arrayIndex (fst b) = None) bs ->
  Obj.keys (RR.rules (setBlocks id bs s)) =
  Obj.keys (RR.rules s)
  ++ List.filter (fun nm => negb (Obj.has nm (RR.rules s))) (Obj.keys bs).
Proof.
  induction bs as [|[nm piece] bs IH]; intros s Hnd Hall.
  - simpl. rewrite app_nil_r. reflexivity.
  - unfold Obj.keys in Hnd. simpl in Hnd.
    inversion Hnd as [|? ? Hnotin Hnd']; subst.
    inversion Hall as [|? ? Hidx Hall']; subst. simpl in Hidx.
    rewrite setBlocks_cons. cbn [fst snd].
    rewrite IH by assumption.
    rewrite setRow_rules_keys by assumption.
    assert (Hfilter :
      List.filter
        (fun nm0 => negb (Obj.has nm0 (RR.rules (RR.setRow nm id piece s))))
        (Obj.keys bs)
      = List.filter (fun nm0 => negb (Obj.has nm0 (RR.rules s))) (Obj.keys bs)).
    { apply filter_ext_in. intros nm0 Hin. unfold Obj.has.
      rewrite setRow_rules_get by exact Hid.
      destruct (String.eqb_spec nm0 nm) as [->|]; [contradiction | reflexivity]. }
    rewrite Hfilter.
    change (Obj.keys ((nm, piece) :: bs)) with (nm :: Obj.keys bs).
    cbn [List.filter].
    destruct (Obj.has nm (RR.rules s)); cbn [negb]; [reflexivity|].
    rewrite <- app_assoc. reflexivity.
Qed.

End SetBlocks.

(** ** Parsing a rendered grid *)

Lemma parsedPosition_inj k k' : parsedPosition k = parsedPosition k' -> k = k'.
Proof.
  unfold parsedPosition.
  destruct (Nat.ltb_spec k 2), (Nat.ltb_spec k' 2); lia.
Qed.

Lemma parsedPosition_mono k k' : k < k' -> parsedPosition k < parsedPosition k'.
Proof.
  unfold parsedPosition.
  destruct (Nat.ltb_spec k 2), (Nat.ltb_spec k' 2); lia.
Qed.

Lemma app_nil_r_filter_false {A} (l l' : list A) :
  l ++ List.filter (fun _ => false) l' = l.
Proof.
  induction l' as [|x l' IH]; simpl; [apply app_nil_r | exact IH].
Qed.

Lemma layoutOfBlocks_keys bs layout :
  layoutOfBlocks bs = layout -> Obj.keys bs = List.map fst layout.
Proof.
  intros <-. unfold layoutOfBlocks, Obj.keys. rewrite map_map. reflexivity.
Qed.

Lemma Obj_get_same_keys {V W} (o : Obj.t V) (o' : Obj.t W) k v :
  Obj.keys o = Obj.keys o' -> Obj.get k o = Some v ->
  exists v', Obj.get k o' = Some v'.
Proof.
  intros Hkeys Hget.
  assert (Hin : In k (Obj.keys o')).
  { rewrite <- Hkeys. apply Obj_has_keys. unfold Obj.has. rewrite Hget. reflexivity. }
  apply Obj_has_keys in Hin. unfold Obj.has in Hin.
  destruct (Obj.get k o') as [v'|]; [eauto | discriminate].
Qed.

Section ParseRows.

Variable client : Client.
Variable layout : list (string * nat).
Variable rowsBlocks : list (list (string * Row)).
Hypothesis Hwf : WellFormed layout rowsBlocks.

Let ids := List.map idOfBlocks rowsBlocks.

Lemma ids_lookup k bs : rowsBlocks !! k = Some bs -> ids !! k = Some (idOfBlocks bs).
Proof.
  intros H. unfold ids. change (List.map idOfBlocks rowsBlocks)
    with (idOfBlocks <$> rowsBlocks).
  rewrite list_lookup_fmap, H. reflexivity.
Qed.

Lemma ids_distinct k k' id :
  ids !! k = Some id -> ids !! k' = Some id -> k = k'.
Proof.
  intros H H'. pose proof (wf_ids_nodup _ _ Hwf) as Hnd. fold ids in Hnd.
  apply NoDup_ListNoDup in Hnd. exact (NoDup_lookup ids k k' id Hnd H H').
Qed.

Lemma ids_head :
  ids !! 0 = Some "ID" /\ ids !! 1 = Some "default".
Proof.
  destruct (wf_ids _ _ Hwf) as (rest & Hids). fold ids in Hids.
  rewrite Hids. split; reflexivity.
Qed.

Lemma ids_nonempty k id : ids !! k = Some id -> id <> "".
Proof.
  intros Hk ->. apply (wf_ids_nonempty _ _ Hwf). fold ids.
  apply list_elem_of_In. eapply list_elem_of_lookup_2. exact Hk.
Qed.

Lemma row_layout k bs : rowsBlocks !! k = Some bs -> layoutOfBlocks bs = layout.
Proof.
  intros Hk. pose proof (wf_rows _ _ Hwf) as Hrows.
  rewrite List.Forall_forall in Hrows. apply Hrows.
  apply list_elem_of_In. eapply list_elem_of_lookup_2. exact Hk.
Qed.

Lemma row_keys k bs : rowsBlocks !! k = Some bs -> Obj.keys bs = List.map fst layout.
Proof. intros Hk. apply layoutOfBlocks_keys, (row_layout k), Hk. Qed.

Lemma layout_names_head : exists rest, List.map fst layout = "none" :: rest
                                       /\ ~ In "none" rest.
Proof.
  destruct (wf_none _ _ Hwf) as (c0 & rest & -> & Hrest).
  exists (List.map fst rest). split; [reflexivity|].
  intros Hin. apply in_map_iff in Hin as (b & Hb & Hin).
  rewrite List.Forall_forall in Hrest. exact (Hrest b Hin Hb).
Qed.

(** The state after the first [m] data rows. *)
Record ParsedUpTo (m : nat) (T : RR.t) : Prop := {
  pu_length : RR.length T = if m <=? 2 then 2 else m;
  pu_known : forall k id, k < m -> ids !! k = Some id ->
             Obj.get id (RR.rowIndex T) = Some (parsedPosition k);
  pu_other : forall key, (forall k, k < m -> ids !! k <> Some key) ->
             Obj.get key (RR.rowIndex T)
             = Obj.get key (RR.rowIndex (initialRange client));
  pu_cells : forall k bs nm piece,
             k < m -> rowsBlocks !! k = Some bs -> Obj.get nm bs = Some piece ->
             Arr.get (parsedPosition k)
                     (Js.nullish (Obj.get nm (RR.rules T)) []) = Some piece;
  pu_keys : Obj.keys (RR.rules T)
            = if m =? 0 then ["none"] else List.map fst layout;
  pu_nodup : List.NoDup (Obj.keys (RR.rowIndex T));
  pu_client : RR.client T = client
}.

Lemma parsed_init : ParsedUpTo 0 (initialRange client).
Proof.
  constructor; try reflexivity; try (intros; lia).
  simpl. repeat constructor; simpl; intuition discriminate.
Qed.

Lemma parsed_position m T bs :
  ParsedUpTo m T -> rowsBlocks !! m = Some bs ->
  positionFor (idOfBlocks bs) T = parsedPosition m.
Proof.
  intros HT Hm. pose proof (ids_lookup m bs Hm) as Hid.
  destruct ids_head as [H0 H1].
  unfold positionFor.
  rewrite (pu_other _ _ HT)
    by (intros k Hk Hk'; pose proof (ids_distinct _ _ _ Hk' Hid); lia).
  rewrite (pu_length _ _ HT).
  destruct m as [|[|m]].
  - assert (idOfBlocks bs = "ID") as -> by congruence. reflexivity.
  - assert (idOfBlocks bs = "default") as -> by congruence. reflexivity.
  - assert (Hne0 : idOfBlocks bs <> "ID").
    { intros Heq. rewrite Heq in Hid. pose proof (ids_distinct _ _ _ Hid H0). lia. }
    assert (Hne1 : idOfBlocks bs <> "default").
    { intros Heq. rewrite Heq in Hid. pose proof (ids_distinct _ _ _ Hid H1). lia. }
    simpl.
    destruct (String.eqb_spec (idOfBlocks bs) "ID"); [contradiction|].
    destruct (String.eqb_spec (idOfBlocks bs) "default"); [contradiction|].
    unfold parsedPosition. destruct m; reflexivity.
Qed.

Lemma parsed_step m T bs :
  ParsedUpTo m T -> rowsBlocks !! m = Some bs ->
  ParsedUpTo (S m) (setBlocks (idOfBlocks bs) bs T).
Proof.
  intros HT Hm.
  pose proof (ids_lookup m bs Hm) as Hidm.
  pose proof (ids_nonempty m _ Hidm) as Hid.
  pose proof (parsed_position m T bs HT Hm) as Hpos.
  pose proof (row_keys m bs Hm) as Hkeys.
  destruct layout_names_head as (names' & Hnames & Hnot).
  assert (Hbs : bs <> []).
  { intros ->. unfold Obj.keys in Hkeys. simpl in Hkeys. congruence. }
  assert (Hnd : List.NoDup (Obj.keys bs))
    by (rewrite Hkeys; exact (wf_nodup _ _ Hwf)).
  assert (Hidx : Forall (fun b => Js.arrayIndex (fst b) = None) bs).
  { rewrite List.Forall_forall. intros b Hb.
    assert (Hin : In (fst b) (List.map fst layout)).
    { rewrite <- Hkeys. unfold Obj.keys. apply in_map. exact Hb. }
    apply in_map_iff in Hin as (b' & Hfst & Hin').
    pose proof (wf_names _ _ Hwf) as Hn. rewrite List.Forall_forall in Hn.
    rewrite <- Hfst. apply (Hn b' Hin'). }
  constructor.
  - rewrite setBlocks_length by assumption.
    assert (Hget : Obj.get (idOfBlocks bs) (RR.rowIndex T)
                   = Obj.get (idOfBlocks bs) (RR.rowIndex (initialRange client))).
    { apply (pu_other _ _ HT). intros k Hk Hk'.
      pose proof (ids_distinct _ _ _ Hk' Hidm). lia. }
    rewrite Hget, (pu_length _ _ HT).
    destruct ids_head as [H0 H1].
    destruct m as [|[|m]].
    + assert (idOfBlocks bs = "ID") as -> by congruence. reflexivity.
    + assert (idOfBlocks bs = "default") as -> by congruence. reflexivity.
    + assert (Hne0 : idOfBlocks bs <> "ID").
      { intros Heq. rewrite Heq in Hidm.
        pose proof (ids_distinct _ _ _ Hidm H0). lia. }
      assert (Hne1 : idOfBlocks bs <> "default").
      { intros Heq. rewrite Heq in Hidm.
        pose proof (ids_distinct _ _ _ Hidm H1). lia. }
      simpl.
      destruct (String.eqb_spec (idOfBlocks bs) "ID"); [contradiction|].
      destruct (String.eqb_spec (idOfBlocks bs) "default"); [contradiction|].
      destruct m; reflexivity.
  - intros k id Hk Hidk. rewrite setBlocks_rowIndex by assumption.
    destruct (String.eqb_spec id (idOfBlocks bs)) as [->|Hne].
    + rewrite Hpos. f_equal. f_equal. exact (ids_distinct _ _ _ Hidm Hidk).
    + apply (pu_known _ _ HT); [|exact Hidk].
      destruct (Nat.eq_dec k m) as [->|]; [congruence | lia].
  - intros key Hkey. rewrite setBlocks_rowIndex by assumption.
    destruct (String.eqb_spec key (idOfBlocks bs)) as [->|Hne].
    + exfalso. apply (Hkey m); [lia | exact Hidm].
    + apply (pu_other _ _ HT). intros k Hk. apply Hkey. lia.
  - intros k bs' nm piece Hk Hk' Hget.
    rewrite setBlocks_rules_get by assumption. rewrite Hpos.
    assert (Hkeys' : Obj.keys bs' = Obj.keys bs)
      by (rewrite Hkeys; apply (row_keys k), Hk').
    destruct (Obj_get_same_keys bs' bs nm piece Hkeys' Hget) as (piece' & Hget').
    rewrite Hget'. cbn [Js.nullish]. rewrite Arr_get_set.
    destruct (Nat.eqb_spec (parsedPosition k) (parsedPosition m)) as [Heq|Hne].
    + apply parsedPosition_inj in Heq. subst k. congruence.
    + apply (pu_cells _ _ HT k bs'); [|assumption|assumption].
      destruct (Nat.eq_dec k m) as [->|]; [congruence | lia].
  - rewrite setBlocks_rules_keys by assumption.
    rewrite (pu_keys _ _ HT), Hkeys, Hnames. cbn [Nat.eqb].
    assert (Hhas : forall nm, Obj.has nm (RR.rules T) = true
                              <-> In nm (Obj.keys (RR.rules T)))
      by (intros; apply Obj_has_keys).
    rewrite (pu_keys _ _ HT) in Hhas.
    destruct m as [|m]; cbn [Nat.eqb] in *.
    + cbn [List.filter].
      replace (Obj.has "none" (RR.rules T)) with true
        by (symmetry; apply Hhas; left; reflexivity).
      cbn [negb]. f_equal.
      rewrite <- (filter_ext_in (fun _ => true)).
      * clear. induction names' as [|x l IH]; simpl; [reflexivity | f_equal; exact IH].
      * intros nm Hin.
        destruct (Obj.has nm (RR.rules T)) eqn:E; [|reflexivity].
        apply Hhas in E. destruct E as [<-|[]]. contradiction.
    + rewrite Hnames in Hhas.
      rewrite <- (filter_ext_in (fun _ => false)).
      * rewrite app_nil_r_filter_false. reflexivity.
      * intros nm Hin.
        replace (Obj.has nm (RR.rules T)) with true
          by (symmetry; apply Hhas; exact Hin).
        reflexivity.
  - eapply viaSetRow_keys_NoDup; [|exact (pu_nodup _ _ HT)].
    unfold setBlocks. apply viaSetRow_fold. intros t b. constructor. constructor.
  - rewrite <- (pu_client _ _ HT). apply setBlocks_client.
Qed.

Lemma parsed_rest (todo : list (list (string * Row))) : forall done T,
  rowsBlocks = done ++ todo ->
  ParsedUpTo (length done) T ->
  ParsedUpTo (length rowsBlocks) (parseRows todo T).
Proof.
  induction todo as [|bs todo IH]; intros done T Hsplit HT.
  - rewrite Hsplit, app_nil_r. exact HT.
  - unfold parseRows. cbn [fold_left]. fold (parseRows todo).
    apply (IH (done ++ [bs])).
    + rewrite <- app_assoc. exact Hsplit.
    + rewrite length_app. cbn [length]. rewrite Nat.add_1_r.
      apply parsed_step; [exact HT|].
      rewrite Hsplit, lookup_app_r by lia. rewrite Nat.sub_diag. reflexivity.
Qed.

Lemma parsed_all :
  ParsedUpTo (length rowsBlocks) (parseRows rowsBlocks (initialRange client)).
Proof. apply (parsed_rest rowsBlocks [] _ eq_refl parsed_init). Qed.

End ParseRows.

(** ** Uniqueness of the sorted order *)

Lemma sorted_perm_eq {A} (key : A -> nat) (l1 : list A) : forall l2,
  StronglySorted (fun a b => key a <= key b) l1 ->
  StronglySorted (fun a b => key a < key b) l2 ->
  Permutation l1 l2 -> l1 = l2.
Proof.
  induction l1 as [|a l1 IH]; intros l2 Hs1 Hs2 Hp.
  - apply Permutation_nil in Hp. subst. reflexivity.
  - destruct l2 as [|b l2].
    { apply Permutation_sym, Permutation_nil in Hp. discriminate. }
    inversion Hs1 as [|? ? Hs1' Hall1]; subst.
    inversion Hs2 as [|? ? Hs2' Hall2]; subst.
    rewrite List.Forall_forall in Hall1, Hall2.
    assert (Hab : a = b).
    { assert (Ha : In a (b :: l2))
        by (apply (Permutation_in _ Hp); left; reflexivity).
      destruct Ha as [Ha|Ha]; [congruence|].
      assert (Hb : In b (a :: l1))
        by (apply (Permutation_in _ (Permutation_sym Hp)); left; reflexivity).
      destruct Hb as [Hb|Hb]; [congruence|].
      pose proof (Hall2 a Ha). pose proof (Hall1 b Hb). lia. }
    subst b. f_equal. apply IH; [assumption | assumption|].
    exact (Permutation_cons_inv Hp).
Qed.

Lemma sort_unique {A} (key : A -> nat) (l L : list A) :
  StronglySorted (fun a b => key a < key b) L ->
  Permutation l L ->
  Js.sort (fun a b => key b <? key a) l = L.
Proof.
  intros Hs Hp. apply (sorted_perm_eq key).
  - apply (sort_sorted key).
  - exact Hs.
  - rewrite sort_perm. exact Hp.
Qed.

Lemma Obj_In_get {V} (o : Obj.t V) k v :
  List.NoDup (Obj.keys o) -> (In (k, v) o <-> Obj.get k o = Some v).
Proof.
  intros Hnd. split; [|apply Obj_get_Some_In].
  unfold Obj.keys in Hnd.
  induction o as [|[k0 v0] o IH]; simpl; [tauto|].
  inversion Hnd as [|? ? Hnotin Hnd']; subst.
  intros [[= -> ->]|Hin].
  - rewrite String.eqb_refl. reflexivity.
  - destruct (String.eqb_spec k k0) as [->|_].
    + exfalso. apply Hnotin. apply in_map_iff. exists (k0, v). split; [reflexivity | exact Hin].
    + apply IH; assumption.
Qed.

Lemma Obj_as_map {V} (d : V) (o : Obj.t V) :
  List.NoDup (Obj.keys o) ->
  o = List.map (fun k => (k, Js.nullish (Obj.get k o) d)) (Obj.keys o).
Proof.
  unfold Obj.keys.
  induction o as [|[k0 v0] o IH]; simpl; intros Hnd; [reflexivity|].
  inversion Hnd as [|? ? Hnotin Hnd']; subst.
  rewrite String.eqb_refl. simpl. f_equal.
  rewrite (IH Hnd') at 1. apply map_ext_in. intros k Hk.
  destruct (String.eqb_spec k k0) as [->|_]; [contradiction | reflexivity].
Qed.

Lemma map_keys_values {V} (f : string -> V) (o : Obj.t V) :
  List.NoDup (Obj.keys o) ->
  (forall k v, Obj.get k o = Some v -> f k = v) ->
  List.map f (Obj.keys o) = List.map snd o.
Proof.
  intros Hnd Hf. unfold Obj.keys. rewrite map_map.
  apply map_ext_in. intros [k v] Hin. simpl.
  apply Hf. apply Obj_In_get; assumption.
Qed.

Lemma imap_entries_In (ids : list string) : forall (f : nat -> nat) key v,
  In (key, v) (imap (fun k id => (id, f k)) ids)
  <-> exists k, ids !! k = Some key /\ v = f k.
Proof.
  induction ids as [|id ids IH]; intros f key v; simpl.
  - split; [tauto | intros (k & Hk & _); discriminate].
  - change (imap ((fun k id0 => (id0, f k)) ∘ S) ids)
      with (imap (fun k id0 => (id0, (f ∘ S) k)) ids).
    rewrite IH. split.
    + intros [[= <- <-]|(k & Hk & Hv)]; [exists 0; auto | exists (S k); auto].
    + intros ([|k] & Hk & Hv); simpl in Hk.
      * injection Hk as <-. left. subst. reflexivity.
      * right. exists k. auto.
Qed.

Lemma imap_entries_sorted (ids : list string) : forall (f : nat -> nat),
  (forall k k', k < k' -> f k < f k') ->
  StronglySorted (fun a b : string * nat => snd a < snd b)
                 (imap (fun k id => (id, f k)) ids).
Proof.
  induction ids as [|id ids IH]; intros f Hf; simpl; constructor.
  - apply (IH (f ∘ S)). intros k k' Hk. apply Hf. lia.
  - rewrite List.Forall_forall. intros [key v] Hin.
    change (imap ((fun k id0 => (id0, f k)) ∘ S) ids)
      with (imap (fun k id0 => (id0, (f ∘ S) k)) ids) in Hin.
    apply imap_entries_In in Hin as (k & _ & ->). simpl. apply Hf. lia.
Qed.

Lemma imap_entries_keys (ids : list string) : forall (f : nat -> nat),
  List.map fst (imap (fun k id => (id, f k)) ids) = ids.
Proof.
  induction ids as [|id ids IH]; intros f; simpl; [reflexivity|].
  f_equal. apply (IH (f ∘ S)).
Qed.

Section ParsedRange.

Variable client : Client.
Variable layout : list (string * nat).
Variable rowsBlocks : list (list (string * Row)).
Hypothesis Hwf : WellFormed layout rowsBlocks.

Let ids := List.map idOfBlocks rowsBlocks.
Let T := parseRows rowsBlocks (initialRange client).
Let arrT (nm : string) : Arr.t Row := Js.nullish (Obj.get nm (RR.rules T)) [].

Lemma parsed_T : ParsedUpTo client layout rowsBlocks (length rowsBlocks) T.
Proof. apply parsed_all, Hwf. Qed.

Lemma rows_at_least_two : 2 <= length rowsBlocks.
Proof.
  destruct (wf_ids _ _ Hwf) as (rest & Hids).
  apply (f_equal (@length string)) in Hids. rewrite length_map in Hids.
  simpl in Hids. lia.
Qed.


Lemma parsed_rowIndex_perm : Permutation (RR.rowIndex T) (parsedEntries ids).
Proof.
  pose proof parsed_T as HT.
  pose proof rows_at_least_two as Hn.
  destruct (ids_head layout rowsBlocks Hwf) as [H0 H1]. fold ids in H0, H1.
  apply Permutation.NoDup_Permutation.
  - apply (List.NoDup_map_inv fst). exact (pu_nodup _ _ _ _ _ HT).
  - apply (List.NoDup_map_inv fst). unfold parsedEntries.
    rewrite imap_entries_keys. exact (wf_ids_nodup _ _ Hwf).
  - intros [key v]. rewrite (Obj_In_get _ key v (pu_nodup _ _ _ _ _ HT)).
    unfold parsedEntries. rewrite imap_entries_In. split.
    + intros Hget.
      destruct (in_dec String.string_dec key ids) as [Hin|Hnot].
      * apply list_elem_of_In, list_elem_of_lookup_1 in Hin as (k & Hk).
        exists k. split; [exact Hk|].
        assert (Hlt : k < length rowsBlocks).
        { apply lookup_lt_Some in Hk. unfold ids in Hk.
          rewrite length_map in Hk. exact Hk. }
        rewrite (pu_known _ _ _ _ _ HT k key Hlt Hk) in Hget. congruence.
      * exfalso.
        rewrite (pu_other _ _ _ _ _ HT key) in Hget.
        -- simpl in Hget.
           destruct (String.eqb_spec key "ID") as [->|_].
           { apply Hnot, list_elem_of_In. eapply list_elem_of_lookup_2. exact H0. }
           destruct (String.eqb_spec key "default") as [->|_]; [|discriminate].
           apply Hnot, list_elem_of_In. eapply list_elem_of_lookup_2. exact H1.
        -- intros k _ Hk. apply Hnot, list_elem_of_In.
           eapply list_elem_of_lookup_2. exact Hk.
    + intros (k & Hk & ->).
      apply (pu_known _ _ _ _ _ HT); [|exact Hk].
      apply lookup_lt_Some in Hk. unfold ids in Hk.
      rewrite length_map in Hk. exact Hk.
Qed.

Lemma parsed_sortedEntries : RR.sortedEntries (RR.rowIndex T) = parsedEntries ids.
Proof.
  unfold RR.sortedEntries.
  apply (sort_unique snd).
  - apply imap_entries_sorted. apply parsedPosition_mono.
  - exact parsed_rowIndex_perm.
Qed.

Lemma parsed_rules_keys : Obj.keys (RR.rules T) = List.map fst layout.
Proof.
  rewrite (pu_keys _ _ _ _ _ parsed_T).
  pose proof rows_at_least_two.
  destruct (length rowsBlocks); [lia | reflexivity].
Qed.

Lemma parsed_rules :
  RR.rules T = List.map (fun nm => (nm, arrT nm)) (List.map fst layout).
Proof.
  rewrite <- parsed_rules_keys. apply Obj_as_map.
  rewrite parsed_rules_keys. exact (wf_nodup _ _ Hwf).
Qed.

Lemma first_row : exists bs0, rowsBlocks !! 0 = Some bs0.
Proof.
  pose proof rows_at_least_two.
  destruct rowsBlocks as [|bs0 ?]; [simpl in *; lia | eauto].
Qed.

Lemma block_of_layout k bs b :
  rowsBlocks !! k = Some bs -> In b layout ->
  exists piece, Obj.get (fst b) bs = Some piece /\ length piece = snd b.
Proof.
  intros Hk Hb.
  pose proof (row_layout layout rowsBlocks Hwf k bs Hk) as Hl.
  pose proof (row_keys layout rowsBlocks Hwf k bs Hk) as Hkeys.
  rewrite <- Hl in Hb. unfold layoutOfBlocks in Hb.
  apply in_map_iff in Hb as ([nm piece] & <- & Hin). simpl.
  exists piece. split; [|reflexivity].
  apply Obj_In_get; [|exact Hin].
  rewrite Hkeys. exact (wf_nodup _ _ Hwf).
Qed.

Lemma parsed_columnCount b : In b layout -> RR.columnCount (arrT (fst b)) = snd b.
Proof.
  intros Hb. destruct first_row as (bs0 & H0).
  destruct (block_of_layout 0 bs0 b H0 Hb) as (piece & Hget & Hlen).
  pose proof rows_at_least_two as Hn.
  pose proof (pu_cells _ _ _ _ _ parsed_T 0 bs0 (fst b) piece
                ltac:(lia) H0 Hget) as Hcell.
  change (parsedPosition 0) with 0 in Hcell.
  rewrite <- Hlen. apply columnCount_head; [exact Hcell|].
  pose proof (wf_names _ _ Hwf) as Hnames. rewrite List.Forall_forall in Hnames.
  destruct (Hnames b Hb) as (_ & _ & Hw).
  intros ->. simpl in Hlen. lia.
Qed.

Lemma parsed_emitted : emitted (RR.rules T) = RR.rules T.
Proof.
  rewrite parsed_rules. unfold emitted.
  rewrite <- (filter_ext_in (fun _ => true)).
  - generalize (List.map (fun nm => (nm, arrT nm)) (List.map fst layout)).
    intros l. induction l as [|x l IH]; simpl; [reflexivity | f_equal; exact IH].
  - intros [nm arr] Hin. simpl.
    apply in_map_iff in Hin as (nm' & [= <- <-] & Hin).
    apply in_map_iff in Hin as (b & <- & Hb).
    rewrite (parsed_columnCount b Hb).
    pose proof (wf_names _ _ Hwf) as Hnames. rewrite List.Forall_forall in Hnames.
    destruct (Hnames b Hb) as (_ & _ & Hw).
    destruct (Nat.eqb_spec (snd b) 0); [lia | reflexivity].
Qed.

Lemma parsed_layoutOf : layoutOf T = layout.
Proof.
  unfold layoutOf. rewrite parsed_emitted, parsed_rules, !map_map. simpl.
  rewrite <- (map_id layout) at 2. apply map_ext_in. intros b Hb.
  rewrite (parsed_columnCount b Hb). destruct b; reflexivity.
Qed.

Lemma parsed_piecesOf : piecesOf T = List.map (List.map snd) rowsBlocks.
Proof.
  unfold piecesOf. rewrite parsed_emitted, parsed_sortedEntries.
  apply list_eq. intros k.
  change (List.map (List.map snd) rowsBlocks) with ((List.map snd) <$> rowsBlocks).
  match goal with
  | |- List.map ?f ?l !! k = _ => change (List.map f l) with (f <$> l)
  end.
  rewrite !list_lookup_fmap. unfold parsedEntries. rewrite list_lookup_imap.
  unfold ids. change (List.map idOfBlocks rowsBlocks) with (idOfBlocks <$> rowsBlocks).
  rewrite list_lookup_fmap.
  destruct (rowsBlocks !! k) as [bs|] eqn:Hk; [|reflexivity].
  simpl. f_equal.
  rewrite parsed_rules, map_map. simpl.
  rewrite <- (row_keys layout rowsBlocks Hwf k bs Hk).
  apply map_keys_values.
  - rewrite (row_keys layout rowsBlocks Hwf k bs Hk). exact (wf_nodup _ _ Hwf).
  - intros nm piece Hget. unfold blockCells.
    assert (Hlt : k < length rowsBlocks) by (eapply lookup_lt_Some; exact Hk).
    pose proof (pu_cells _ _ _ _ _ parsed_T k bs nm piece Hlt Hk Hget) as Hcell.
    fold (arrT nm) in Hcell. rewrite Hcell. reflexivity.
Qed.

Lemma parsed_client : RR.client T = client.
Proof. exact (pu_client _ _ _ _ _ parsed_T). Qed.

(** [getValues()] on the parsed range renders the layout and the rows
    again. *)
Lemma parsed_getValues :
  exists T',
    RR.getValues None T
    = Js.Ok (renderGrid (ruleStore client) layout
               (List.map (List.map snd) rowsBlocks), T').
Proof.
  destruct (wf_none _ _ Hwf) as (c0 & rest & Hlayout & Hrest).
  destruct (getValues_render T (arrT "none")
              (List.map (fun nm => (nm, arrT nm)) (List.map fst rest)))
    as (T' & Hget).
  - rewrite parsed_emitted, parsed_rules, Hlayout. reflexivity.
  - rewrite List.Forall_forall in *. intros b Hb.
    apply in_map_iff in Hb as (nm & <- & Hin).
    apply in_map_iff in Hin as (b' & <- & Hin). simpl. apply Hrest, Hin.
  - exists T'. rewrite Hget, parsed_layoutOf, parsed_piecesOf, parsed_client.
    reflexivity.
Qed.

End ParsedRange.

(** ** The constructor on a rendered grid *)

Lemma setRulesRow_no_id header ths s row :
  Js.toKey (row !! 0) = "" -> RR.setRulesRow header ths s row = s.
Proof.
  intros Hid. unfold RR.setRulesRow. rewrite Hid.
  induction ths as [|th ths IH]; simpl; [reflexivity|].
  rewrite setRow_empty_id. exact IH.
Qed.

Lemma separated_of_names (rest : list (string * nat)) : forall prev,
  Forall (fun b => fst b <> "none" /\ 1 <= snd b) rest ->
  List.NoDup (List.map fst rest) ->
  ~ In prev (List.map fst rest) ->
  separated prev rest.
Proof.
  induction rest as [|[nm c] rest IH]; intros prev Hall Hnd Hprev; simpl; [exact I|].
  inversion Hall as [|? ? [Hnm Hc] Hall']; subst. simpl in Hnm, Hc.
  simpl in Hnd. inversion Hnd as [|? ? Hnotin Hnd']; subst.
  assert (Hh : headerName nm = nm).
  { unfold headerName. destruct (String.eqb_spec nm "none"); [contradiction | reflexivity]. }
  rewrite Hh. split; [exact Hc|]. split.
  - intros ->. apply Hprev. left. reflexivity.
  - apply IH; assumption.
Qed.

Section RenderedGrid.

Variable client : Client.
Variable layout : list (string * nat).
Variable rowsBlocks : list (list (string * Row)).
Hypothesis Hwf : WellFormed layout rowsBlocks.

Let store := ruleStore client.
Let grid := renderGrid store layout (List.map (List.map snd) rowsBlocks).

Lemma rendered_header : dedupHeader (layoutHeader0 layout) = niceHeader layout.
Proof.
  destruct (wf_none _ _ Hwf) as (c0 & rest & Hlayout & Hrest).
  pose proof (wf_names _ _ Hwf) as Hnames.
  pose proof (wf_nodup _ _ Hwf) as Hnd.
  rewrite Hlayout in *.
  inversion Hnames as [|? ? (_ & _ & Hc0) Hnames']; subst.
  simpl in Hnd. inversion Hnd as [|? ? Hnotin Hnd']; subst.
  apply dedupHeader_layout; [exact Hc0|].
  apply separated_of_names; [| exact Hnd' |].
  - rewrite List.Forall_forall in *. intros b Hb.
    split; [apply Hrest, Hb | apply (Hnames' b Hb)].
  - intros Hin. apply in_map_iff in Hin as (b & Hb & Hin).
    rewrite List.Forall_forall in Hnames'.
    destruct (Hnames' b Hin) as (Hne & _). congruence.
Qed.

Lemma rendered_rows (rows : list (list (string * Row))) : forall s,
  Forall (fun bs => layoutOfBlocks bs = layout) rows ->
  fold_left (RR.setRulesRow (niceHeader layout) (thresholdsOf (niceHeader layout)))
            (List.map (fun ps => concat ps) (List.map (List.map snd) rows)) s
  = parseRows rows s.
Proof.
  destruct (wf_none _ _ Hwf) as (c0 & rest & Hlayout & Hrest).
  pose proof (wf_names _ _ Hwf) as Hnames.
  induction rows as [|bs rows IH]; intros s Hall; [reflexivity|].
  apply Forall_cons in Hall as [Hbs Hall'].
  cbn [List.map fold_left]. unfold parseRows. cbn [fold_left].
  fold (parseRows rows).
  rewrite <- (IH _ Hall'). f_equal.
  pose proof (setRulesRow_blocks bs c0 rest s) as Hrow.
  rewrite Hbs in Hrow. apply Hrow; [exact Hlayout | exact Hrest |].
  rewrite List.Forall_forall in *. intros b Hb.
  assert (Hin : In (fst b, length (snd b)) layout).
  { rewrite <- Hbs. unfold layoutOfBlocks.
    apply (in_map (fun b => (fst b, length (snd b)))). exact Hb. }
  destruct (Hnames _ Hin) as (Hne & _ & Hw). simpl in Hne, Hw. auto.
Qed.

(** The constructor reads a rendered grid back row by row. *)
Lemma new_renderGrid :
  RR.new grid client RR.defaultHeaders
  = Js.Ok (parseRows rowsBlocks (initialRange client)).
Proof.
  rewrite new_unfold. unfold grid, renderGrid, RR.setRules.
  rewrite rendered_header. f_equal. cbn [fold_left].
  destruct (wf_none _ _ Hwf) as (c0 & rest & Hlayout & Hrest).
  rewrite (setRulesRow_no_id _ _ (initialRange client) (niceHeader layout))
    by (rewrite Hlayout; reflexivity).
  rewrite (setRulesRow_no_id _ _ (initialRange client)) by reflexivity.
  apply rendered_rows. exact (wf_rows _ _ Hwf).
Qed.

(** A well-formed grid is a fixed point of parsing and rendering. *)
Lemma renderGrid_roundtrip :
  exists T T',
    RR.new grid client RR.defaultHeaders = Js.Ok T
    /\ RR.getValues None T = Js.Ok (grid, T').
Proof.
  destruct (parsed_getValues client layout rowsBlocks Hwf) as (T' & Hget).
  exists (parseRows rowsBlocks (initialRange client)), T'.
  split; [apply new_renderGrid | exact Hget].
Qed.

End RenderedGrid.

(** ** Stabilized ranges *)

Lemma rowsBlocksOf_pieces s :
  List.map (List.map snd) (rowsBlocksOf s) = piecesOf s.
Proof.
  unfold rowsBlocksOf, piecesOf. rewrite map_map. apply map_ext. intros e.
  rewrite map_map. reflexivity.
Qed.

Lemma nodupb_NoDup l : nodupb l = true -> List.NoDup l.
Proof.
  induction l as [|x l IH]; simpl; intros H; [constructor|].
  apply andb_prop in H as [Hx Hl]. constructor; [|apply IH, Hl].
  intros Hin. apply existsb_eqb_In in Hin. rewrite Hin in Hx. discriminate.
Qed.

Lemma emitted_columnCount blocks b :
  In b (emitted blocks) -> 1 <= RR.columnCount (snd b).
Proof.
  unfold emitted. intros Hin. apply filter_In in Hin as [_ Hc].
  destruct (Nat.eqb_spec (RR.columnCount (snd b)) 0); [discriminate | lia].
Qed.

Section Stable.

Variable s : RR.t.
Hypothesis Hstable : stable s = true.

Let E := RR.sortedEntries (RR.rowIndex s).

Lemma stable_blocks :
  exists arr0 blocks,
    emitted (RR.rules s) = ("none", arr0) :: blocks
    /\ Forall (fun b => fst b <> "none" /\ fst b <> ""
                        /\ Js.arrayIndex (fst b) = None) blocks
    /\ List.NoDup (List.map fst blocks)
    /\ (exists rest, List.map fst E = "ID" :: "default" :: rest)
    /\ List.NoDup (List.map fst E)
    /\ Forall (fun e => fst e <> ""
                        /\ exists r, Arr.get (snd e) arr0 = Some (fst e :: r)) E
    /\ Forall (fun b => Forall (fun e => length (blockCells (snd b) (snd e))
                                         = RR.columnCount (snd b)) E)
              (emitted (RR.rules s)).
Proof.
  unfold stable in Hstable. fold E in Hstable.
  destruct (emitted (RR.rules s)) as [|[cat0 arr0] blocks] eqn:Hem; [discriminate|].
  repeat (apply andb_prop in Hstable as [Hstable ?]).
  apply String.eqb_eq in Hstable. subst cat0.
  exists arr0, blocks. split; [reflexivity|].
  split; [|split; [|split; [|split; [|split]]]].
  - rewrite List.Forall_forall. intros b Hb.
    match goal with
    | H : forallb _ blocks = true |- _ =>
        rewrite forallb_forall in H; specialize (H b Hb);
        apply andb_prop in H as [H Hidx]; apply andb_prop in H as [Hn Ht]
    end.
    split; [|split].
    + destruct (String.eqb_spec (fst b) "none"); [discriminate | assumption].
    + unfold Js.truthy in Ht.
      destruct (String.eqb_spec (fst b) ""); [discriminate | assumption].
    + destruct (Js.arrayIndex (fst b)); [discriminate | reflexivity].
  - apply nodupb_NoDup. assumption.
  - destruct (List.map fst E) as [|a [|b rest]]; try discriminate.
    match goal with
    | H : (_ =? "ID")%string && _ = true |- _ =>
        apply andb_prop in H as [Ha Hb];
        apply String.eqb_eq in Ha, Hb; subst
    end.
    eauto.
  - apply nodupb_NoDup. assumption.
  - rewrite List.Forall_forall. intros e He.
    match goal with
    | H : forallb (fun e => Js.truthy (fst e) && _) E = true |- _ =>
        rewrite forallb_forall in H; specialize (H e He);
        apply andb_prop in H as [Ht Hrow]
    end.
    split.
    + unfold Js.truthy in Ht.
      destruct (String.eqb_spec (fst e) ""); [discriminate | assumption].
    + destruct (Arr.get (snd e) arr0) as [[|c r]|]; try discriminate.
      apply String.eqb_eq in Hrow. subst c. eauto.
  - rewrite List.Forall_forall. intros b Hb.
    rewrite List.Forall_forall. intros e He.
    match goal with
    | H : forallb (fun b => forallb _ E) _ = true |- _ =>
        rewrite forallb_forall in H; specialize (H b Hb);
        rewrite forallb_forall in H; specialize (H e He)
    end.
    unfold blockCells.
    destruct (Arr.get (snd e) (snd b)) as [r|]; simpl.
    + apply Nat.eqb_eq. assumption.
    + apply length_replicate.
Qed.

Lemma stable_row_layout e :
  In e E ->
  layoutOfBlocks (List.map (fun b => (fst b, blockCells (snd b) (snd e)))
                           (emitted (RR.rules s)))
  = layoutOf s.
Proof.
  intros He.
  destruct stable_blocks as (arr0 & blocks & _ & _ & _ & _ & _ & _ & Hwidth).
  unfold layoutOfBlocks, layoutOf. rewrite map_map. simpl.
  apply map_ext_in. intros b Hb. f_equal.
  rewrite List.Forall_forall in Hwidth. specialize (Hwidth b Hb).
  rewrite List.Forall_forall in Hwidth. apply Hwidth, He.
Qed.

Lemma stable_row_id e :
  In e E ->
  idOfBlocks (List.map (fun b => (fst b, blockCells (snd b) (snd e)))
                       (emitted (RR.rules s)))
  = fst e.
Proof.
  intros He.
  destruct stable_blocks as (arr0 & blocks & Hem & _ & _ & _ & _ & Hrows & _).
  rewrite List.Forall_forall in Hrows. destruct (Hrows e He) as (_ & r & Hr).
  unfold idOfBlocks. rewrite Hem. cbn [List.map concat fst snd].
  unfold blockCells at 1. rewrite Hr. reflexivity.
Qed.

Lemma stable_ids : List.map idOfBlocks (rowsBlocksOf s) = List.map fst E.
Proof.
  unfold rowsBlocksOf. fold E. rewrite map_map.
  apply map_ext_in. intros e He. apply stable_row_id, He.
Qed.

Lemma stable_wellFormed : WellFormed (layoutOf s) (rowsBlocksOf s).
Proof.
  destruct stable_blocks
    as (arr0 & blocks & Hem & Hnames & Hnd & Hids & Hndids & Hrows & Hwidth).
  constructor.
  - exists (RR.columnCount arr0),
           (List.map (fun b => (fst b, RR.columnCount (snd b))) blocks).
    unfold layoutOf. rewrite Hem. split; [reflexivity|].
    rewrite List.Forall_forall in *. intros b Hb.
    apply in_map_iff in Hb as (b' & <- & Hb'). apply (Hnames b' Hb').
  - unfold layoutOf. rewrite List.Forall_forall. intros b Hb.
    apply in_map_iff in Hb as (b' & <- & Hb'). simpl.
    assert (Hc : 1 <= RR.columnCount (snd b'))
      by (apply (emitted_columnCount (RR.rules s)), Hb').
    rewrite Hem in Hb'. destruct Hb' as [<-|Hb'].
    + simpl. split; [discriminate|]. split; [reflexivity | exact Hc].
    + rewrite List.Forall_forall in Hnames.
      destruct (Hnames b' Hb') as (_ & Hne & Hidx). auto.
  - unfold layoutOf. rewrite map_map. simpl. rewrite Hem. simpl.
    constructor; [|exact Hnd].
    intros Hin. apply in_map_iff in Hin as (b & Hb & Hin).
    rewrite List.Forall_forall in Hnames.
    destruct (Hnames b Hin) as (Hne & _). congruence.
  - unfold rowsBlocksOf. rewrite List.Forall_forall. intros bs Hbs.
    apply in_map_iff in Hbs as (e & <- & He). apply stable_row_layout, He.
  - rewrite stable_ids. exact Hids.
  - rewrite stable_ids. exact Hndids.
  - rewrite stable_ids. intros Hin.
    apply in_map_iff in Hin as (e & He & Hin).
    rewrite List.Forall_forall in Hrows. destruct (Hrows e Hin) as (Hne & _).
    congruence.
Qed.

(** The grid of a stabilized range is the rendering of its layout and
    rows. *)
Lemma stable_getValues :
  exists s',
    RR.getValues None s
    = Js.Ok (renderGrid (ruleStore (RR.client s)) (layoutOf s)
               (List.map (List.map snd) (rowsBlocksOf s)), s').
Proof.
  destruct stable_blocks as (arr0 & blocks & Hem & Hnames & _).
  rewrite rowsBlocksOf_pieces.
  apply (getValues_render s arr0 blocks Hem).
  rewrite List.Forall_forall in *. intros b Hb. apply (Hnames b Hb).
Qed.

End Stable.

(** ** Runs of [setRow] calls *)

Lemma runRows_app calls1 calls2 s :
  runRows (calls1 ++ calls2) s = runRows calls2 (runRows calls1 s).
Proof. apply fold_left_app. Qed.

Lemma runRows_via calls s : viaSetRow s (runRows calls s).
Proof. apply viaSetRow_fold. intros t call. constructor. constructor. Qed.

Lemma setRow_goodRules category id column s :
  category = "none" \/ ordinaryName category ->
  goodRules s -> goodRules (RR.setRow category id column s).
Proof.
  intros Hcat (rest & Hkeys & Hnames & Hnd).
  destruct (String.eqb_spec id "") as [->|Hid];
    [rewrite setRow_empty_id; exists rest; auto|].
  assert (Hidx : Js.arrayIndex category = None).
  { destruct Hcat as [->|(_ & _ & H)]; [reflexivity | exact H]. }
  unfold goodRules. rewrite (setRow_rules_keys _ _ _ _ Hid Hidx).
  destruct (Obj.has category (RR.rules s)) eqn:Hhas; [exists rest; auto|].
  assert (Hnot : ~ In category (Obj.keys (RR.rules s))).
  { intros Hin. apply Obj_has_keys in Hin. congruence. }
  rewrite Hkeys in Hnot |- *. exists (rest ++ [category]).
  split; [reflexivity|].
  destruct Hcat as [->|Hord]; [exfalso; apply Hnot; left; reflexivity|].
  split.
  - apply Forall_app. split; [exact Hnames | constructor; [exact Hord | constructor]].
  - apply NoDup_ListNoDup. apply NoDup_app. split; [apply NoDup_ListNoDup, Hnd|].
    split; [|apply NoDup_singleton].
    intros x Hx Hx'. apply list_elem_of_In in Hx, Hx'.
    destruct Hx' as [<-|[]]. apply Hnot. right. exact Hx.
Qed.

Lemma runRows_goodRules calls : forall s,
  Forall (fun call => fst (fst call) = "none" \/ ordinaryName (fst (fst call))) calls ->
  goodRules s -> goodRules (runRows calls s).
Proof.
  induction calls as [|call calls IH]; intros s Hall Hs; [exact Hs|].
  apply Forall_cons in Hall as [Hc Hall]. simpl.
  apply IH; [exact Hall|]. apply setRow_goodRules; assumption.
Qed.

Lemma positionFor_le id s :
  distinctPositions s -> id <> "" ->
  positionFor id s <= RR.length (RR.setRow "none" id [] s).
Proof.
  intros (Hle & _) Hid. rewrite setRow_length. unfold positionFor.
  destruct (String.eqb_spec id ""); [contradiction|].
  destruct (Obj.get id (RR.rowIndex s)) as [i|] eqn:Hi; [apply (Hle _ _ Hi) | lia].
Qed.

Lemma setRow_length_le category id column s :
  RR.length s <= RR.length (RR.setRow category id column s).
Proof.
  rewrite setRow_length. destruct (String.eqb id ""); [lia|].
  destruct (Obj.get id (RR.rowIndex s)); lia.
Qed.

Lemma setRow_bounded category id column s :
  distinctPositions s -> bounded s -> bounded (RR.setRow category id column s).
Proof.
  intros Hd Hb.
  destruct (String.eqb_spec id "") as [->|Hid]; [exact Hb|].
  intros c arr i r Harr Hr.
  rewrite setRow_rules_get in Harr by exact Hid.
  pose proof (setRow_length_le category id column s) as Hlen.
  destruct (String.eqb_spec c category) as [->|Hne].
  - injection Harr as <-. rewrite Arr_get_set in Hr.
    destruct (Nat.eqb_spec i (positionFor id s)) as [->|_].
    + pose proof (positionFor_le id s Hd Hid) as Hp.
      rewrite setRow_length in Hp |- *. exact Hp.
    + destruct (Obj.get category (RR.rules s)) as [a|] eqn:Ha; simpl in Hr.
      * pose proof (Hb _ _ _ _ Ha Hr). lia.
      * rewrite Arr_get_nil in Hr. discriminate.
  - pose proof (Hb _ _ _ _ Harr Hr). lia.
Qed.

Lemma runRows_bounded calls : forall s,
  distinctPositions s -> bounded s ->
  distinctPositions (runRows calls s) /\ bounded (runRows calls s).
Proof.
  induction calls as [|call calls IH]; intros s Hd Hb; [split; assumption|].
  simpl. apply IH; [apply setRow_distinctPositions | apply setRow_bounded]; assumption.
Qed.

Lemma runRows_rules_other c calls : forall s,
  Forall (fun call => fst (fst call) <> c) calls ->
  Obj.get c (RR.rules (runRows calls s)) = Obj.get c (RR.rules s).
Proof.
  induction calls as [|call calls IH]; intros s Hall; [reflexivity|].
  apply Forall_cons in Hall as [Hc Hall]. simpl. rewrite (IH _ Hall).
  destruct (String.eqb_spec (snd (fst call)) "") as [->|Hid]; [reflexivity|].
  rewrite setRow_rules_get by exact Hid.
  destruct (String.eqb_spec c (fst (fst call))); [congruence | reflexivity].
Qed.

(** An entity that a run starts to track is put above the old counter. *)
Lemma runRows_fresh calls : forall s k i,
  Obj.get k (RR.rowIndex s) = None ->
  Obj.get k (RR.rowIndex (runRows calls s)) = Some i ->
  RR.length s < i.
Proof.
  induction calls as [|call calls IH]; intros s k i Hnone Hi; simpl in Hi.
  - rewrite Hnone in Hi. discriminate.
  - destruct call as [[cat id0] col]. simpl in Hi.
    pose proof (setRow_length_le cat id0 col s) as Hlen.
    destruct (Obj.get k (RR.rowIndex (RR.setRow cat id0 col s))) as [j|] eqn:Hj.
    + rewrite (viaSetRow_keeps_position _ _ _ _ (runRows_via calls _) Hj) in Hi.
      injection Hi as <-.
      destruct (String.eqb_spec id0 "") as [->|Hid];
        [rewrite setRow_empty_id in Hj; congruence|].
      rewrite setRow_rowIndex_get in Hj by exact Hid.
      destruct (String.eqb_spec k id0) as [->|_]; [|congruence].
      unfold positionFor in Hj. rewrite Hnone in Hj. injection Hj as <-. lia.
    + pose proof (IH _ _ _ Hj Hi). lia.
Qed.

Lemma setRow_hasRow_keep c Q k category id column s :
  distinctPositions s ->
  (category = c -> Q id column) ->
  hasRow c Q k s -> hasRow c Q k (RR.setRow category id column s).
Proof.
  intros (Hle & Hinj & _) HQ (i & arr & r & Hk & Harr & Hr & Hq).
  destruct (String.eqb_spec id "") as [->|Hid]; [exists i, arr, r; auto|].
  destruct (String.eqb_spec c category) as [->|Hne].
  - destruct (Nat.eqb_spec i (positionFor id s)) as [Hp|Hp].
    + assert (id = k) as ->.
      { unfold positionFor in Hp.
        destruct (Obj.get id (RR.rowIndex s)) as [j|] eqn:Hj.
        - subst j. apply (Hinj _ _ _ Hj Hk).
        - pose proof (Hle _ _ Hk). lia. }
      exists i, (Arr.set i column arr), column.
      split; [apply setRow_keeps_position, Hk|].
      split; [rewrite setRow_rules_get by exact Hid; rewrite String.eqb_refl,
                <- Hp, Harr; reflexivity|].
      split; [rewrite Arr_get_set, Nat.eqb_refl; reflexivity | auto].
    + exists i, (Arr.set (positionFor id s) column arr), r.
      split; [apply setRow_keeps_position, Hk|].
      split; [rewrite setRow_rules_get by exact Hid; rewrite String.eqb_refl,
                Harr; reflexivity|].
      split; [|exact Hq]. rewrite Arr_get_set.
      destruct (Nat.eqb_spec i (positionFor id s)); [contradiction | exact Hr].
  - exists i, arr, r. split; [apply setRow_keeps_position, Hk|].
    split; [|auto]. rewrite setRow_rules_get by exact Hid.
    destruct (String.eqb_spec c category); [contradiction | exact Harr].
Qed.

Lemma setRow_hasRow_new c (Q : string -> Row -> Prop) id column s :
  id <> "" -> Q id column -> hasRow c Q id (RR.setRow c id column s).
Proof.
  intros Hid HQ.
  exists (positionFor id s),
         (Arr.set (positionFor id s) column (Js.nullish (Obj.get c (RR.rules s)) [])),
         column.
  split; [rewrite setRow_rowIndex_get by exact Hid; rewrite String.eqb_refl; reflexivity|].
  split; [rewrite setRow_rules_get by exact Hid; rewrite String.eqb_refl; reflexivity|].
  split; [rewrite Arr_get_set, Nat.eqb_refl; reflexivity | exact HQ].
Qed.

Lemma runRows_hasRow c Q calls : forall s k,
  distinctPositions s ->
  Forall (fun call => fst (fst call) = c -> Q (snd (fst call)) (snd call)) calls ->
  k <> "" ->
  hasRow c Q k s \/ (exists column, In (c, k, column) calls) ->
  hasRow c Q k (runRows calls s).
Proof.
  induction calls as [|call calls IH]; intros s k Hd Hall Hk Hor.
  - destruct Hor as [H|(col & [])]. exact H.
  - apply Forall_cons in Hall as [Hc Hall]. simpl.
    apply IH; [apply setRow_distinctPositions, Hd | exact Hall | exact Hk |].
    destruct Hor as [H|(col & [Heq|Hin])].
    + left. apply setRow_hasRow_keep; assumption.
    + left. subst call. simpl in *. apply setRow_hasRow_new; auto.
    + right. eauto.
Qed.

Lemma setRow_uniform w category id column s :
  (category <> "none" -> length column = w category) ->
  uniform w s -> uniform w (RR.setRow category id column s).
Proof.
  intros Hcol Hu.
  destruct (String.eqb_spec id "") as [->|Hid]; [exact Hu|].
  intros c arr i r Hc Harr Hr.
  rewrite setRow_rules_get in Harr by exact Hid.
  destruct (String.eqb_spec c category) as [->|Hne].
  - injection Harr as <-. rewrite Arr_get_set in Hr.
    destruct (i =? positionFor id s); [injection Hr as <-; auto|].
    destruct (Obj.get category (RR.rules s)) as [a|] eqn:Ha; simpl in Hr.
    + apply (Hu _ _ _ _ Hc Ha Hr).
    + rewrite Arr_get_nil in Hr. discriminate.
  - apply (Hu _ _ _ _ Hc Harr Hr).
Qed.

Lemma runRows_uniform w calls : forall s,
  Forall (fun call => fst (fst call) <> "none" ->
                      length (snd call) = w (fst (fst call))) calls ->
  uniform w s -> uniform w (runRows calls s).
Proof.
  induction calls as [|call calls IH]; intros s Hall Hu; [exact Hu|].
  apply Forall_cons in Hall as [Hc Hall]. simpl.
  apply IH; [exact Hall|]. apply setRow_uniform; assumption.
Qed.

(** ** Reconciliation stabilizes a range *)

Lemma runRows_records nm (f g : RecordInfo -> Row) rows : forall s,
  fold_left
    (fun s record =>
       RR.setRow "none" (id record) (g record)
         (RR.setRow nm (id record) (f record) s)) rows s
  = runRows (flat_map (fun record => [(nm, id record, f record);
                                      ("none", id record, g record)]) rows) s.
Proof.
  induction rows as [|r rows IH]; intros s; [reflexivity|].
  simpl. rewrite IH. reflexivity.
Qed.

Lemma fillRows_calls rule d rv rows s1 :
  exists x0 r0 r1 f,
    length r0 = length (params rule) /\ length r1 = length (params rule)
    /\ (forall record, length (f record) = length (params rule))
    /\ RR.fillRows rule d rv rows s1
       = runRows (fillCalls (name rule) x0 r0 r1 f rows) s1.
Proof.
  unfold RR.fillRows. cbv zeta.
  match goal with
  | |- context [fold_left
                  (fun s record =>
                     RR.setRow "none" _ _ (RR.setRow _ _ (@?f record) s)) _
                  (RR.setRow _ "default" ?r1
                     (RR.setRow _ _ _
                        (RR.setRow _ "ID" ?r0
                           (RR.setRow _ _ [_; ?x0] _))))] =>
      exists x0, r0, r1, f
  end.
  split; [rewrite !length_map; reflexivity|].
  split; [rewrite !length_map; reflexivity|].
  split; [intros record; rewrite !length_map; reflexivity|].
  unfold fillCalls. rewrite runRows_app.
  rewrite (runRows_records _ _ (fun record => [id record; displayName record])).
  reflexivity.
Qed.

Section FillCalls.

Variables (nm x0 : string) (r0 r1 : Row) (f : RecordInfo -> Row).
Variable rows : list RecordInfo.
Variable P : nat.
Hypothesis Hnm : nm <> "none".
Hypothesis Hr0 : length r0 = P.
Hypothesis Hr1 : length r1 = P.
Hypothesis Hf : forall record, length (f record) = P.

Let calls := fillCalls nm x0 r0 r1 f rows.
Let inSystem := "ID" :: "default" :: List.map id rows.

Lemma fillCalls_categories :
  Forall (fun call => fst (fst call) = "none" \/ fst (fst call) = nm) calls.
Proof.
  unfold calls, fillCalls. apply Forall_app. split.
  - repeat (apply List.Forall_cons); try apply List.Forall_nil; simpl; auto.
  - induction rows as [|r rs IH]; simpl; [constructor|].
    constructor; [auto|]. constructor; [auto | exact IH].
Qed.

Lemma fillCalls_identity :
  Forall (fun call => fst (fst call) = "none" ->
                      identityRow (snd (fst call)) (snd call)) calls.
Proof.
  unfold calls, fillCalls. apply Forall_app. split.
  - repeat (apply List.Forall_cons); try apply List.Forall_nil; simpl;
      intros H; try congruence; eexists; reflexivity.
  - induction rows as [|r rs IH]; simpl; [constructor|].
    constructor; [simpl; intros H; congruence|].
    constructor; [simpl; intros _; eexists; reflexivity | exact IH].
Qed.

Lemma fillCalls_width :
  Forall (fun call => fst (fst call) = nm -> length (snd call) = P) calls.
Proof.
  unfold calls, fillCalls. apply Forall_app. split.
  - repeat (apply List.Forall_cons); try apply List.Forall_nil; simpl;
      intros H; congruence.
  - induction rows as [|r rs IH]; simpl; [constructor|].
    constructor; [simpl; intros _; apply Hf|].
    constructor; [simpl; intros H; congruence | exact IH].
Qed.

Lemma fillCalls_touch_none k :
  In k inSystem -> exists column, In ("none", k, column) calls.
Proof.
  unfold inSystem, calls, fillCalls. intros [<-|[<-|Hin]].
  - eexists. left. reflexivity.
  - eexists. right. right. left. reflexivity.
  - apply in_map_iff in Hin as (r & <- & Hin).
    exists [id r; displayName r]. apply in_app_iff. right.
    apply in_flat_map. exists r. split; [exact Hin | right; left; reflexivity].
Qed.

Lemma fillCalls_touch_rule k :
  In k inSystem -> exists column, In (nm, k, column) calls.
Proof.
  unfold inSystem, calls, fillCalls. intros [<-|[<-|Hin]].
  - eexists. right. left. reflexivity.
  - eexists. right. right. right. left. reflexivity.
  - apply in_map_iff in Hin as (r & <- & Hin).
    exists (f r). apply in_app_iff. right.
    apply in_flat_map. exists r. split; [exact Hin | left; reflexivity].
Qed.

End FillCalls.

Lemma fillRuleValues_settled rule rows s s' :
  goodRule rule -> Tidy s ->
  RR.fillRuleValues rule rows s = Js.Ok s' -> Settled s'.
Proof.
  intros [Hname Hparams] Ht Hfill.
  pose proof (fillRuleValues_distinctPositions _ _ _ _ Hfill (tidy_positions _ Ht)) as Hd'.
  pose proof (fillRuleValues_keys_NoDup _ _ _ _ Hfill (tidy_ids _ Ht)) as Hnd'.
  destruct (fillRuleValues_unfold _ _ _ _ Hfill) as (d & rv & ->). clear Hfill.
  set (s1 := RR.recordColumnOrder rule s) in *.
  destruct (fillRows_calls rule d rv rows s1)
    as (x0 & r0 & r1 & f & Hr0 & Hr1 & Hf & Hcalls).
  rewrite Hcalls in *. clear Hcalls.
  set (nm := name rule) in *. set (P := length (params rule)) in *.
  set (calls := fillCalls nm x0 r0 r1 f rows) in *.
  set (s6 := runRows calls s1) in *.
  set (inSystem := "ID" :: "default" :: List.map id rows).
  destruct Hname as (Hnm & Hnm' & Hidx).
  assert (HP : P <> 0).
  { unfold P. destruct (params rule); [contradiction | discriminate]. }
  assert (Hd1 : distinctPositions s1) by exact (tidy_positions _ Ht).
  assert (Hb1 : bounded s1) by exact (tidy_bounded _ Ht).
  destruct (runRows_bounded calls s1 Hd1 Hb1) as [Hd6 Hb6].
  assert (Hcats : Forall (fun call => fst (fst call) = "none" \/ fst (fst call) = nm) calls)
    by apply fillCalls_categories.
  assert (Hg6 : goodRules s6).
  { apply runRows_goodRules; [|exact (tidy_rules _ Ht)].
    eapply Forall_impl; [exact Hcats|].
    intros call [H|H]; [left; exact H | right; rewrite H; repeat split; assumption]. }
  assert (Hget : forall k, Obj.get k (RR.rowIndex (RR.pruneRows rows s6)) =
                           if existsb (String.eqb k) inSystem
                           then Obj.get k (RR.rowIndex s6) else None)
    by (intros k; apply prune_get).
  assert (Hin : forall k i, Obj.get k (RR.rowIndex (RR.pruneRows rows s6)) = Some i ->
                            In k inSystem /\ Obj.get k (RR.rowIndex s6) = Some i /\ k <> "").
  { intros k i Hk. rewrite Hget in Hk.
    destruct (existsb (String.eqb k) inSystem) eqn:E; [|discriminate].
    split; [apply existsb_eqb_In, E|]. split; [exact Hk|].
    intros ->. destruct Hd6 as (_ & _ & Hne). apply Hne.
    apply (Obj_get_Some_In _ _ _) in Hk.
    apply in_map_iff. exists ("", i). split; [reflexivity | exact Hk]. }
  assert (Hnone : forall k i, Obj.get k (RR.rowIndex (RR.pruneRows rows s6)) = Some i ->
                              hasRow "none" identityRow k s6).
  { intros k i Hk. destruct (Hin k i Hk) as (Hsys & _ & Hne).
    apply runRows_hasRow; [exact Hd1 | | exact Hne |].
    - apply (fillCalls_identity nm x0 r0 r1 f rows); assumption.
    - right. apply fillCalls_touch_none, Hsys. }
  assert (Hrule : forall k i, Obj.get k (RR.rowIndex (RR.pruneRows rows s6)) = Some i ->
                              hasRow nm (fun _ r => length r = P) k s6).
  { intros k i Hk. destruct (Hin k i Hk) as (Hsys & _ & Hne).
    apply runRows_hasRow; [exact Hd1 | | exact Hne |].
    - apply (fillCalls_width nm x0 r0 r1 f rows P); assumption.
    - right. apply fillCalls_touch_rule, Hsys. }
  assert (HID : Obj.get "ID" (RR.rowIndex (RR.pruneRows rows s6)) = Some 0).
  { rewrite Hget. simpl.
    apply (viaSetRow_keeps_position _ _ _ _ (runRows_via calls s1)).
    exact (tidy_ID _ Ht). }
  assert (Hdefault : Obj.get "default" (RR.rowIndex (RR.pruneRows rows s6)) = Some 1).
  { rewrite Hget. simpl.
    apply (viaSetRow_keeps_position _ _ _ _ (runRows_via calls s1)).
    exact (tidy_default _ Ht). }
  constructor; [constructor|]; try assumption.
  - (* widths *)
    intros c arr k i r Hc Harr Hk Hr Hcount.
    destruct (Hin k i Hk) as (Hsys & Hk6 & Hne).
    change (Obj.get c (RR.rules s6) = Some arr) in Harr.
    destruct (String.eqb_spec c nm) as [->|Hcn].
    + destruct (Hrule k i Hk) as (i2 & arr2 & r2 & Hk2 & Harr2 & Hr2 & Hlen).
      destruct (Hrule "ID" 0 HID) as (i0 & arr0 & rr & Hk0 & Harr0 & Hrr & Hlen0).
      destruct (Hin "ID" 0 HID) as (_ & HID6 & _).
      assert (i2 = i) by congruence. assert (arr2 = arr) by congruence.
      assert (i0 = 0) by congruence. assert (arr0 = arr) by congruence.
      subst i2 arr2 i0 arr0.
      rewrite (columnCount_head arr rr Hrr)
        by (intros ->; simpl in Hlen0; congruence).
      congruence.
    + assert (Hsame : Obj.get c (RR.rules s6) = Obj.get c (RR.rules s)).
      { unfold s6. rewrite runRows_rules_other; [reflexivity|].
        eapply Forall_impl; [exact Hcats|].
        intros call [H|H]; congruence. }
      rewrite Hsame in Harr.
      destruct (Obj.get k (RR.rowIndex s)) as [j|] eqn:Hj.
      * assert (j = i).
        { pose proof (viaSetRow_keeps_position s1 s6 k j (runRows_via calls s1) Hj).
          congruence. }
        subst j. apply (tidy_width _ Ht c arr k i r); assumption.
      * pose proof (runRows_fresh calls s1 k i Hj Hk6) as Hfresh.
        pose proof (tidy_bounded _ Ht c arr i r Harr Hr) as Hle.
        change (RR.length s1) with (RR.length s) in Hfresh. lia.
  - (* identity rows *)
    intros k i Hk. destruct (Hnone k i Hk) as (i2 & arr & r & Hk2 & Harr & Hr & HQ).
    destruct (Hin k i Hk) as (_ & Hk6 & _).
    exists i, arr, r. assert (i2 = i) by congruence. subst i2. auto.
Qed.

Lemma NoDup_nodupb l : List.NoDup l -> nodupb l = true.
Proof.
  induction 1 as [|x l Hx _ IH]; simpl; [reflexivity|].
  rewrite IH, andb_true_r.
  destruct (existsb (String.eqb x) l) eqn:E; [|reflexivity].
  apply existsb_eqb_In in E. contradiction.
Qed.

Lemma NoDup_keys_filter {V} (p : string * V -> bool) (o : Obj.t V) :
  List.NoDup (Obj.keys o) -> List.NoDup (Obj.keys (List.filter p o)).
Proof.
  unfold Obj.keys. induction o as [|b o IH]; simpl; intros Hnd; [constructor|].
  inversion Hnd as [|? ? Hnot Hnd']; subst.
  destruct (p b); simpl; [|apply IH, Hnd'].
  constructor; [|apply IH, Hnd'].
  intros Hin. apply Hnot. apply in_map_iff in Hin as (b' & Hb' & Hin).
  apply in_map_iff. exists b'. split; [exact Hb'|].
  apply filter_In in Hin. tauto.
Qed.

(** In position order the sentinels come first. *)
Lemma sortedEntries_sentinels (ri : Obj.t nat) :
  List.NoDup (Obj.keys ri) ->
  (forall k1 k2 i, Obj.get k1 ri = Some i -> Obj.get k2 ri = Some i -> k1 = k2) ->
  Obj.get "ID" ri = Some 0 -> Obj.get "default" ri = Some 1 ->
  exists rest, RR.sortedEntries ri = ("ID", 0) :: ("default", 1) :: rest.
Proof.
  intros Hnd Hinj HID Hdefault. unfold RR.sortedEntries.
  pose proof (sort_sorted snd ri) as Hsorted.
  pose proof (sort_perm (fun a b : string * nat => snd b <? snd a) ri) as Hperm.
  cbv zeta in Hsorted.
  set (E := Js.sort (fun a b : string * nat => snd b <? snd a) ri) in *.
  assert (Hmem : forall k i, In (k, i) E <-> Obj.get k ri = Some i).
  { intros k i. rewrite <- (Obj_In_get ri k i Hnd).
    split; apply Permutation_in; [exact Hperm | symmetry; exact Hperm]. }
  assert (HndE : List.NoDup (List.map fst E)).
  { eapply Permutation.Permutation_NoDup; [|exact Hnd].
    apply Permutation_map. symmetry. exact Hperm. }
  assert (H0 : In ("ID", 0) E) by (apply Hmem, HID).
  assert (H1 : In ("default", 1) E) by (apply Hmem, Hdefault).
  destruct E as [|[k1 i1] E1]; [destruct H0|].
  inversion Hsorted as [|? ? Hs1 Hall1]; subst.
  rewrite List.Forall_forall in Hall1.
  assert (Hk1 : (k1, i1) = ("ID", 0)).
  { destruct H0 as [H0|H0]; [exact H0|].
    pose proof (Hall1 _ H0) as Hle. simpl in Hle.
    assert (i1 = 0) by lia. subst i1.
    f_equal. apply (Hinj k1 "ID" 0); [apply Hmem; left; reflexivity | exact HID]. }
  injection Hk1 as -> ->.
  destruct H1 as [H1|H1]; [discriminate|].
  destruct E1 as [|[k2 i2] E2]; [destruct H1|].
  inversion Hs1 as [|? ? Hs2 Hall2]; subst.
  rewrite List.Forall_forall in Hall2.
  assert (Hk2 : (k2, i2) = ("default", 1)).
  { destruct H1 as [H1|H1]; [exact H1|].
    pose proof (Hall2 _ H1) as Hle. simpl in Hle.
    assert (Hi2 : Obj.get k2 ri = Some i2) by (apply Hmem; right; left; reflexivity).
    destruct i2 as [|[|i2]]; [| |lia].
    - assert (k2 = "ID") by (apply (Hinj k2 "ID" 0); assumption). subst k2.
      inversion HndE as [|? ? Hnot _]; subst. exfalso. apply Hnot. left. reflexivity.
    - f_equal. apply (Hinj k2 "default" 1); assumption. }
  injection Hk2 as -> ->. eauto.
Qed.

Lemma settled_stable s : Settled s -> stable s = true.
Proof.
  intros [Ht Hidentity].
  destruct (tidy_rules _ Ht) as (rest & Hkeys & Hnames & Hndrest).
  destruct (tidy_positions _ Ht) as (Hle & Hinj & Hne).
  pose proof (tidy_ids _ Ht) as Hnd.
  assert (Hndrules : List.NoDup (Obj.keys (RR.rules s))).
  { rewrite Hkeys. constructor; [|exact Hndrest].
    intros Hin. rewrite List.Forall_forall in Hnames.
    destruct (Hnames _ Hin) as (H & _). congruence. }
  destruct (sortedEntries_sentinels (RR.rowIndex s) Hnd Hinj (tidy_ID _ Ht)
              (tidy_default _ Ht)) as (erest & HE).
  pose proof (sort_perm (fun a b : string * nat => snd b <? snd a) (RR.rowIndex s))
    as Hperm.
  fold (RR.sortedEntries (RR.rowIndex s)) in Hperm.
  assert (Hmem : forall e, In e (RR.sortedEntries (RR.rowIndex s)) ->
                           Obj.get (fst e) (RR.rowIndex s) = Some (snd e)).
  { intros [k i] He. apply (Obj_In_get _ k i Hnd).
    apply (Permutation_in _ Hperm He). }
  destruct (Hidentity "ID" 0 (tidy_ID _ Ht))
    as (i0 & a0 & r0 & Hi0 & Ha0 & Hr0 & (x0 & ->)).
  rewrite (tidy_ID _ Ht) in Hi0. injection Hi0 as <-.
  assert (Hcount0 : RR.columnCount a0 = 2)
    by (rewrite (columnCount_head a0 _ Hr0); [reflexivity | discriminate]).
  destruct (RR.rules s) as [|[c0 a0'] blocks0] eqn:Hrules; [discriminate|].
  simpl in Hkeys. injection Hkeys as -> Hrest.
  simpl in Ha0. injection Ha0 as ->.
  assert (Hblocks : forall b, In b (emitted blocks0) ->
                      ordinaryName (fst b)
                      /\ Obj.get (fst b) (RR.rules s) = Some (snd b)
                      /\ RR.columnCount (snd b) <> 0).
  { intros [c arr] Hb. apply filter_In in Hb as [Hb Hc]. simpl in *.
    split; [|split].
    - rewrite List.Forall_forall in Hnames. apply Hnames. rewrite <- Hrest.
      apply in_map_iff. exists (c, arr). auto.
    - rewrite Hrules. apply (Obj_In_get (("none", a0) :: blocks0) c arr Hndrules).
      right. exact Hb.
    - destruct (Nat.eqb_spec (RR.columnCount arr) 0); [discriminate | assumption]. }
  unfold stable. rewrite Hrules. unfold emitted at 1. cbn [List.filter snd].
  rewrite Hcount0. cbn [Nat.eqb negb]. fold (emitted blocks0).
  repeat match goal with
         | |- andb _ _ = true => apply andb_true_intro; split
         end.
  - reflexivity.
  - apply forallb_forall. intros b Hb.
    destruct (Hblocks b Hb) as ((H1 & H2 & H3) & _).
    rewrite H3. unfold Js.truthy.
    destruct (String.eqb_spec (fst b) "none"); [contradiction|].
    destruct (String.eqb_spec (fst b) ""); [contradiction | reflexivity].
  - apply NoDup_nodupb. apply (NoDup_keys_filter _ blocks0).
    inversion Hndrules; assumption.
  - rewrite HE. reflexivity.
  - apply NoDup_nodupb.
    eapply Permutation.Permutation_NoDup; [|exact Hnd].
    apply Permutation_map. symmetry. exact Hperm.
  - apply forallb_forall. intros e He. pose proof (Hmem e He) as Hget.
    destruct (Hidentity _ _ Hget) as (i & a & r & Hi & Ha & Hr & (x & ->)).
    rewrite Hrules in Ha. simpl in Ha. injection Ha as <-.
    assert (i = snd e) by congruence. subst i. rewrite Hr.
    rewrite String.eqb_refl, andb_true_r. unfold Js.truthy.
    destruct (String.eqb_spec (fst e) "") as [Heq|]; [|reflexivity].
    exfalso. apply Hne. apply in_map_iff. exists e. split; [exact Heq|].
    apply (Permutation_in _ Hperm He).
  - apply forallb_forall. intros b Hb. apply forallb_forall. intros e He.
    pose proof (Hmem e He) as Hget.
    destruct (Arr.get (snd e) (snd b)) as [r|] eqn:Hr; [|reflexivity].
    apply Nat.eqb_eq. destruct Hb as [<-|Hb].
    + simpl in Hr |- *.
      destruct (Hidentity _ _ Hget) as (i & a & r' & Hi & Ha & Hr' & (x & ->)).
      rewrite Hrules in Ha. simpl in Ha. injection Ha as <-.
      assert (i = snd e) by congruence. subst i.
      rewrite Hr in Hr'. injection Hr' as ->. rewrite Hcount0. reflexivity.
    + destruct (Hblocks b Hb) as ((H1 & _) & H2 & H3).
      apply (tidy_width _ Ht (fst b) (snd b) (fst e) (snd e) r); assumption.
Qed.

(** ** Sheets that the constructor reads into a tidy range *)

Lemma setRulesRow_calls header ths row : forall s,
  RR.setRulesRow header ths s row
  = runRows (List.map (fun th => (categoryAt header (fst th), Js.toKey (row !! 0),
                                  Js.slice (fst th) (snd th) row)) ths) s.
Proof.
  unfold RR.setRulesRow, runRows.
  induction ths as [|th ths IH]; intros s; [reflexivity|].
  simpl. apply IH.
Qed.

Lemma setRules_calls header range : forall s,
  fold_left (RR.setRulesRow header (thresholdsOf header)) range s
  = runRows (setRulesCalls header range) s.
Proof.
  unfold setRulesCalls.
  induction range as [|row range IH]; intros s; [reflexivity|].
  simpl. rewrite runRows_app, <- setRulesRow_calls. apply IH.
Qed.

Lemma slice_length_same {A} (a b : nat) (l l' : list A) :
  length l = length l' -> length (Js.slice a b l) = length (Js.slice a b l').
Proof.
  intros H. unfold Js.slice. rewrite !length_take, !length_drop, H. reflexivity.
Qed.

Lemma columnCount_uniform (arr : Arr.t Row) n :
  (forall i r, Arr.get i arr = Some r -> length r = n) ->
  RR.columnCount arr <> 0 -> RR.columnCount arr = n.
Proof.
  intros Hall Hc. unfold RR.columnCount in *.
  destruct (List.filter nonEmptyRow arr) as [|[r|] rest] eqn:Hf; try contradiction.
  assert (Hin : In (Some r) arr).
  { apply (proj1 (filter_In nonEmptyRow (Some r) arr)). rewrite Hf. left. reflexivity. }
  apply list_elem_of_In, list_elem_of_lookup_1 in Hin as (i & Hi).
  apply (Hall i). unfold Arr.get. rewrite Hi. reflexivity.
Qed.

Lemma uniform_width w s :
  uniform w s ->
  forall c arr k i r,
    c <> "none" -> Obj.get c (RR.rules s) = Some arr ->
    Obj.get k (RR.rowIndex s) = Some i -> Arr.get i arr = Some r ->
    RR.columnCount arr <> 0 -> length r = RR.columnCount arr.
Proof.
  intros Hu c arr k i r Hc Harr _ Hr Hcount.
  rewrite (columnCount_uniform arr (w c)); [|intros j r' Hr'|exact Hcount].
  - apply (Hu c arr i r Hc Harr Hr).
  - apply (Hu c arr j r' Hc Harr Hr').
Qed.

Lemma initialRange_bounded client : bounded (initialRange client).
Proof.
  intros c arr i r. simpl.
  destruct (String.eqb c "none"); [|discriminate].
  intros [= <-]. destruct i as [|i]; [simpl; lia | discriminate].
Qed.

Lemma new_tidy range client s :
  goodSheet range -> RR.new range client RR.defaultHeaders = Js.Ok s -> Tidy s.
Proof.
  intros Hgood Hnew. rewrite new_unfold in Hnew.
  pose proof (setRules_via range _ _ Hnew) as Hvia.
  destruct range as [|header body]; [destruct Hgood|].
  destruct Hgood as (Hrect & Hnames & Hnd).
  unfold RR.setRules in Hnew. rewrite setRules_calls in Hnew.
  injection Hnew as <-.
  set (calls := setRulesCalls header (header :: body)) in *.
  set (wmap := List.map (fun th => (categoryAt header (fst th),
                                    length (Js.slice (fst th) (snd th) header)))
                        (thresholdsOf header)).
  set (w := fun c => Js.nullish (Obj.get c wmap) 0).
  assert (Hcalls : forall call, In call calls ->
            exists row th, In row (header :: body) /\ In th (thresholdsOf header)
              /\ call = (categoryAt header (fst th), Js.toKey (row !! 0),
                         Js.slice (fst th) (snd th) row)).
  { intros call Hin. apply in_flat_map in Hin as (row & Hrow & Hin).
    apply in_map_iff in Hin as (th & <- & Hth). eauto. }
  destruct (runRows_bounded calls (initialRange client)
              (initialRange_distinctPositions client) (initialRange_bounded client))
    as [Hd Hb].
  constructor.
  - apply (runRows_goodRules calls (initialRange client)).
    + rewrite List.Forall_forall. intros call Hin.
      destruct (Hcalls call Hin) as (row & th & _ & Hth & ->). simpl.
      rewrite List.Forall_forall in Hnames. apply Hnames.
      apply in_map_iff. exists th. auto.
    + exists []. split; [reflexivity|]. split; constructor.
  - exact Hd.
  - eapply viaSetRow_keys_NoDup; [exact Hvia|].
    simpl. repeat constructor; simpl; intuition discriminate.
  - apply (viaSetRow_keeps_position _ _ _ _ Hvia). reflexivity.
  - apply (viaSetRow_keeps_position _ _ _ _ Hvia). reflexivity.
  - exact Hb.
  - apply (uniform_width w). apply (runRows_uniform w calls (initialRange client)).
    + rewrite List.Forall_forall. intros call Hin.
      destruct (Hcalls call Hin) as (row & th & Hrow & Hth & ->). simpl. intros _.
      rewrite List.Forall_forall in Hrect.
      rewrite (slice_length_same _ _ row header (Hrect row Hrow)).
      unfold w.
      assert (Hget : Obj.get (categoryAt header (fst th)) wmap
                     = Some (length (Js.slice (fst th) (snd th) header))).
      { apply Obj_In_get.
        - unfold wmap, Obj.keys. rewrite map_map. exact Hnd.
        - unfold wmap. apply in_map_iff. exists th. auto. }
      rewrite Hget. reflexivity.
    + intros c arr i r Hc. simpl.
      destruct (String.eqb_spec c "none"); [contradiction | discriminate].
Qed.

(** ** The grid of a settled range is a good sheet *)

Lemma niceHeader_length layout :
  Forall (fun b => 1 <= snd b) layout ->
  length (niceHeader layout) = total (List.map snd layout).
Proof.
  unfold niceHeader. induction 1 as [|b layout Hb _ IH]; [reflexivity|].
  cbn [List.map concat total]. rewrite length_app, IH. simpl.
  rewrite length_replicate. lia.
Qed.

Lemma layoutHeader1_length store layout :
  Forall (fun b => 1 <= snd b) layout ->
  length (layoutHeader1 store layout) = total (List.map snd layout).
Proof.
  unfold layoutHeader1. induction 1 as [|b layout Hb _ IH]; [reflexivity|].
  cbn [List.map concat total]. rewrite length_app, IH. simpl.
  rewrite length_replicate. lia.
Qed.

Lemma pieces_length (bs : list (string * Row)) :
  length (concat (List.map snd bs)) = total (List.map snd (layoutOfBlocks bs)).
Proof.
  unfold layoutOfBlocks. induction bs as [|b bs IH]; [reflexivity|].
  cbn [List.map concat total snd]. rewrite length_app, IH. reflexivity.
Qed.

Lemma headerCategories_layout c0 layout :
  1 <= c0 ->
  Forall (fun b => fst b <> "none" /\ fst b <> "" /\ 1 <= snd b) layout ->
  headerCategories (niceHeader (("none", c0) :: layout))
  = "none" :: List.map fst layout.
Proof.
  intros Hc0 Hall. unfold headerCategories.
  rewrite thresholdsOf_layout; [|exact Hc0|].
  - set (full := ("none", c0) :: layout).
    set (blanks := List.map (fun b : string * nat => (fst b, replicate (snd b) "")) full).
    assert (Hlayout : layoutOfBlocks blanks = full).
    { unfold blanks, layoutOfBlocks. rewrite map_map.
      rewrite <- (map_id full) at 2. apply map_ext. intros [nm w]. simpl.
      rewrite length_replicate. reflexivity. }
    pose proof (spans_cut blanks [] [] eq_refl) as Hcut.
    rewrite Hlayout in Hcut. cbn [app length] in Hcut.
    change (c0 :: List.map snd layout) with (List.map snd full).
    transitivity (List.map fst blanks).
    + rewrite <- Hcut at 1; [rewrite map_map; reflexivity|].
      unfold blanks. rewrite List.Forall_forall. intros b Hb.
      apply in_map_iff in Hb as (b' & <- & Hb'). simpl.
      rewrite length_replicate. destruct Hb' as [<-|Hb'].
      * simpl. split; [discriminate | exact Hc0].
      * rewrite List.Forall_forall in Hall. destruct (Hall b' Hb') as (_ & H & H').
        auto.
    + unfold blanks. rewrite map_map. reflexivity.
  - rewrite List.Forall_forall in *. intros b Hb.
    destruct (Hall b Hb) as (Hn & He & Hw). split; [|exact Hw].
    unfold headerName, Js.truthy.
    destruct (String.eqb_spec (fst b) "none"); [contradiction|].
    destruct (String.eqb_spec (fst b) ""); [contradiction | reflexivity].
Qed.

Lemma rendered_goodSheet store layout rowsBlocks rest :
  WellFormed layout rowsBlocks -> layout = ("none", 2) :: rest ->
  goodSheet (renderGrid store layout (List.map (List.map snd) rowsBlocks)).
Proof.
  intros Hwf Hlayout. unfold renderGrid, goodSheet.
  rewrite (rendered_header {| ruleStore := store |} layout rowsBlocks Hwf).
  destruct (wf_none _ _ Hwf) as (c0 & rest' & Hl & Hrest).
  pose proof (wf_names _ _ Hwf) as Hnames.
  pose proof (wf_nodup _ _ Hwf) as Hnd.
  rewrite Hlayout in Hl. injection Hl as <- <-.
  assert (Hw : Forall (fun b : string * nat => 1 <= snd b) layout).
  { eapply Forall_impl; [exact Hnames|]. intros b (_ & _ & H). exact H. }
  assert (Hcats : headerCategories (niceHeader layout) = List.map fst layout).
  { rewrite Hlayout. apply headerCategories_layout; [lia|].
    rewrite Hlayout in Hnames. apply Forall_cons in Hnames as [_ Hnames].
    rewrite List.Forall_forall in *. intros b Hb.
    destruct (Hnames b Hb) as (H1 & _ & H2). split; [apply Hrest, Hb | auto]. }
  split; [|split].
  - rewrite (niceHeader_length layout Hw).
    constructor; [apply niceHeader_length, Hw|]. constructor.
    + rewrite Hlayout in Hw |- *. apply Forall_cons in Hw as [_ Hw].
      cbn [tail List.map snd total]. rewrite length_app.
      rewrite (layoutHeader1_length store rest Hw). reflexivity.
    + rewrite List.Forall_forall. intros row Hrow.
      rewrite map_map in Hrow. apply in_map_iff in Hrow as (bs & <- & Hbs).
      pose proof (wf_rows _ _ Hwf) as Hrows. rewrite List.Forall_forall in Hrows.
      rewrite pieces_length, (Hrows bs Hbs). reflexivity.
  - rewrite Hcats. rewrite List.Forall_forall. intros c Hc.
    apply in_map_iff in Hc as (b & <- & Hb).
    rewrite Hlayout in Hb. destruct Hb as [<-|Hb]; [left; reflexivity|].
    right. rewrite Hlayout in Hnames. apply Forall_cons in Hnames as [_ Hnames].
    rewrite List.Forall_forall in Hnames, Hrest.
    destruct (Hnames b Hb) as (H1 & H2 & _).
    split; [apply Hrest, Hb | split; assumption].
  - rewrite Hcats. exact Hnd.
Qed.

Lemma settled_goodSheet s grid s1 :
  Settled s -> RR.getValues None s = Js.Ok (grid, s1) -> goodSheet grid.
Proof.
  intros Hs Hget. pose proof (settled_stable s Hs) as Hstable.
  destruct (stable_getValues s Hstable) as (s' & Hrender).
  rewrite Hrender in Hget. injection Hget as <- _.
  destruct (stable_blocks s Hstable) as (arr0 & blocks & Hem & _).
  destruct Hs as [Ht Hidentity].
  destruct (Hidentity "ID" 0 (tidy_ID _ Ht))
    as (i0 & a0 & r0 & Hi0 & Ha0 & Hr0 & (x0 & ->)).
  rewrite (tidy_ID _ Ht) in Hi0. injection Hi0 as <-.
  assert (Harr0 : arr0 = a0).
  { destruct (tidy_rules _ Ht) as (rest & Hkeys & _).
    destruct (RR.rules s) as [|[c0 a0'] blocks0]; [discriminate|].
    simpl in Hkeys. injection Hkeys as -> _. simpl in Ha0. injection Ha0 as ->.
    unfold emitted in Hem. simpl in Hem.
    rewrite (columnCount_head a0 _ Hr0) in Hem by discriminate.
    simpl in Hem. congruence. }
  subst a0.
  eapply rendered_goodSheet; [apply stable_wellFormed, Hstable|].
  unfold layoutOf. rewrite Hem. cbn [List.map fst snd].
  rewrite (columnCount_head arr0 _ Hr0) by discriminate. reflexivity.
Qed.

(** ** Reconciled ranges *)

Lemma reconciled_settled s : reconciled s -> Settled s.
Proof.
  induction 1 as [range client rule rows s0 s Hgood Hnew Hrule Hfill
                 | rule rows s s' _ IH Hrule Hfill].
  - apply (fillRuleValues_settled rule rows s0); [exact Hrule | | exact Hfill].
    apply (new_tidy range client); assumption.
  - apply (fillRuleValues_settled rule rows s); [exact Hrule | | exact Hfill].
    apply settled_tidy, IH.
Qed.

(** A reconciled range is stabilized, and the grid it writes is a sheet
    that the next reconciliation can start from. *)
Lemma reconciled_stable s :
  reconciled s ->
  stable s = true
  /\ exists grid s1, RR.getValues None s = Js.Ok (grid, s1) /\ goodSheet grid.
Proof.
  intros Hr. pose proof (reconciled_settled s Hr) as Hs.
  pose proof (settled_stable s Hs) as Hstable. split; [exact Hstable|].
  destruct (stable_getValues s Hstable) as (s' & Hget).
  eexists _, s'. split; [exact Hget|]. apply (settled_goodSheet s _ s' Hs Hget).
Qed.

(** The sheet of the scenario is good, and so is the sheet of a fresh
    installation. *)
Lemma scenarioGrid_good : goodSheet scenarioGrid /\ goodSheet [[""]].
Proof.
  split.
  - split; [repeat constructor|]. split.
    + constructor; [left; reflexivity|].
      constructor; [right; repeat split; discriminate | constructor].
    + repeat constructor; simpl; intuition discriminate.
  - split; [repeat constructor|]. split.
    + constructor; [left; reflexivity | constructor].
    + repeat constructor; simpl; intuition.
Qed.

Lemma scenarioFilled_reconciled : reconciled scenarioFilled.
Proof.
  apply (reconciled_first scenarioGrid scenarioClient scenarioRule scenarioRecords
           scenarioRange).
  - apply scenarioGrid_good.
  - exact scenarioRange_built.
  - split; [repeat split; discriminate | discriminate].
  - exact scenarioFilled_built.
Qed.

(** C1. For a stabilized range, the grid that [getValues()] returns is
    read back by the constructor (which runs [setRules] on it) into a
    range whose [getValues()] returns exactly that grid again.  By
    [reconciled_stable] the ranges that reconciliation leaves are
    stabilized. *)
Theorem getValues_roundtrip (s s1 : RR.t) (grid : list Row) :
  stable s = true ->
  RR.getValues None s = Js.Ok (grid, s1) ->
  exists t t1,
    RR.new grid (RR.client s) RR.defaultHeaders = Js.Ok t
    /\ RR.getValues None t = Js.Ok (grid, t1).
Proof.
  intros Hstable Hget.
  destruct (stable_getValues s Hstable) as (s' & Hrender).
  rewrite Hrender in Hget. injection Hget as <- _.
  apply renderGrid_roundtrip. apply stable_wellFormed, Hstable.
Qed.

Lemma getValues_roundtrip_witness :
  exists t t1,
    RR.new scenarioFilledValues scenarioClient RR.defaultHeaders = Js.Ok t
    /\ RR.getValues None t = Js.Ok (scenarioFilledValues, t1).
Proof.
  apply (getValues_roundtrip scenarioFilled scenarioFilledAfter scenarioFilledValues);
    reflexivity.
Defined.

(** C1, counterexample: a rule named "5" is reconciled on an empty sheet.
    Its name is an array index, so its block is enumerated before the
    identity block; the grid that [getValues()] returns is read back
    into a range whose [getValues()] returns another grid. *)
Lemma roundtrip_fails_for_numbered_rule :
  exists s0 s s1 t t1,
    RR.new [[""]] scenarioClient RR.defaultHeaders = Js.Ok s0
    /\ RR.fillRuleValues numberedRule scenarioRecords s0 = Js.Ok s
    /\ RR.getValues None s = Js.Ok (numberedValues, s1)
    /\ RR.new numberedValues scenarioClient RR.defaultHeaders = Js.Ok t
    /\ RR.getValues None t = Js.Ok (numberedReread, t1)
    /\ numberedReread <> numberedValues.
Proof.
  do 5 eexists.
  split; [reflexivity|]. split; [reflexivity|].
  split; [vm_compute; reflexivity|].
  split; [reflexivity|]. split; [vm_compute; reflexivity|].
  unfold numberedReread, numberedValues. discriminate.
Qed.

(** * Further properties *)

(** ** [SettingMap]: [set], [get] and the defaults *)

Lemma cellEqb_eq (a b : Js.cell) : Js.cellEqb a b = true <-> a = b.
Proof.
  destruct a as [x|], b as [y|]; simpl; try (split; congruence).
  rewrite String.eqb_eq. split; congruence.
Qed.

Lemma cellEqb_same (a : Js.cell) : Js.cellEqb a a = true.
Proof. apply cellEqb_eq. reflexivity. Qed.

Lemma JsMap_get_update {V} (k k' : Js.cell) (v : V) m :
  JsMap.get k' (JsMap.update k v m) =
  if Js.cellEqb k' k
  then match JsMap.get k m with Some _ => Some v | None => None end
  else JsMap.get k' m.
Proof.
  induction m as [|[k0 v0] m IH]; simpl.
  - destruct (Js.cellEqb k' k); reflexivity.
  - destruct (Js.cellEqb k k0) eqn:E0; simpl.
    + apply cellEqb_eq in E0. subst k0.
      destruct (Js.cellEqb k' k); reflexivity.
    + rewrite IH. destruct (Js.cellEqb k' k) eqn:E.
      * apply cellEqb_eq in E. subst k'. rewrite E0. reflexivity.
      * reflexivity.
Qed.

Lemma JsMap_get_app {V} (k : Js.cell) (m1 m2 : JsMap.t V) :
  JsMap.get k (m1 ++ m2) =
  match JsMap.get k m1 with Some v => Some v | None => JsMap.get k m2 end.
Proof.
  induction m1 as [|[k0 v0] m1 IH]; simpl; [reflexivity|].
  destruct (Js.cellEqb k k0); [reflexivity | exact IH].
Qed.

Lemma JsMap_get_set {V} (k k' : Js.cell) (v : V) m :
  JsMap.get k' (JsMap.set k v m) = if Js.cellEqb k' k then Some v else JsMap.get k' m.
Proof.
  unfold JsMap.set. destruct (JsMap.get k m) as [v0|] eqn:E.
  - rewrite JsMap_get_update, E. reflexivity.
  - rewrite JsMap_get_app. simpl.
    destruct (Js.cellEqb k' k) eqn:E'.
    + apply cellEqb_eq in E'. subst k'. rewrite E. reflexivity.
    + destruct (JsMap.get k' m); reflexivity.
Qed.

Lemma JsMap_keys_update {V} (k : Js.cell) (v : V) m :
  List.map fst (JsMap.update k v m) = List.map fst m.
Proof.
  induction m as [|[k0 v0] m IH]; simpl; [reflexivity|].
  destruct (Js.cellEqb k k0); simpl; [reflexivity | rewrite IH; reflexivity].
Qed.

(** X1. [set(id, setting)] followed by [get(id)] returns [setting] and
    leaves the table as [set] left it; the records of the other ids and
    the key set are untouched; in the order of [entries()] a stored id
    keeps its place and a new id comes last. *)
Theorem SettingMap_set_get (sm : SettingMap.t) (id : string) (setting : Settings) :
  let sm' := SettingMap.set id setting sm in
  SettingMap.get id sm' = (setting, sm')
  /\ (forall id', id' <> Some id ->
      JsMap.get id' (SettingMap.map sm') = JsMap.get id' (SettingMap.map sm))
  /\ SettingMap.keys sm' = SettingMap.keys sm
  /\ List.map fst (SettingMap.entries sm') =
     match JsMap.get (Some id) (SettingMap.map sm) with
     | Some _ => List.map fst (SettingMap.entries sm)
     | None => List.map fst (SettingMap.entries sm) ++ [Some id]
     end.
Proof.
  intros sm'. unfold sm', SettingMap.set, SettingMap.get, SettingMap.entries.
  cbn [SettingMap.map SettingMap.keys].
  split; [|split; [|split]].
  - rewrite JsMap_get_set, cellEqb_same. reflexivity.
  - intros id' Hne. rewrite JsMap_get_set.
    destruct (Js.cellEqb id' (Some id)) eqn:E; [|reflexivity].
    apply cellEqb_eq in E. contradiction.
  - reflexivity.
  - rewrite !map_map. cbn [fst]. unfold JsMap.set.
    destruct (JsMap.get (Some id) (SettingMap.map sm)).
    + apply JsMap_keys_update.
    + rewrite map_app. reflexivity.
Qed.




(** ** Errors of [getRule], [fillRuleValues] and [getValues] *)

Lemma setRow_keeps_none category id column s :
  Obj.has "none" (RR.rules s) = true ->
  Obj.has "none" (RR.rules (RR.setRow category id column s)) = true.
Proof.
  intros H. destruct (String.eqb_spec id "") as [->|Hid]; [exact H|].
  unfold Obj.has in *. rewrite setRow_rules_get by exact Hid.
  destruct (String.eqb "none" category); [reflexivity | exact H].
Qed.

Lemma viaSetRow_keeps_none s s' :
  viaSetRow s s' -> Obj.has "none" (RR.rules s) = true ->
  Obj.has "none" (RR.rules s') = true.
Proof.
  intros Hvia H. induction Hvia; [exact H|].
  apply setRow_keeps_none. assumption.
Qed.

Lemma reachable_has_none s : reachable s -> Obj.has "none" (RR.rules s) = true.
Proof.
  induction 1 as [range client s Hnew | | | range s s' _ IH Hset | rule rows s s' _ IH Hfill].
  - rewrite new_unfold in Hnew.
    apply (viaSetRow_keeps_none _ _ (setRules_via range _ _ Hnew)). reflexivity.
  - apply setRow_keeps_none. assumption.
  - eapply viaSetRow_keeps_none; [apply setRule_via | assumption].
  - eapply viaSetRow_keeps_none; [apply (setRules_via range), Hset | assumption].
  - destruct (fillRuleValues_unfold _ _ _ _ Hfill) as (d & rv & ->).
    cbn [RR.pruneRows RR.rules].
    eapply viaSetRow_keeps_none; [apply fillRows_via | exact IH].
Qed.

Lemma getRule_returns ruleName s :
  Obj.has "none" (RR.rules s) = true -> exists rv, RR.getRule ruleName s = Js.Ok rv.
Proof.
  unfold Obj.has, RR.getRule. intros H.
  destruct (Obj.get "none" (RR.rules s)) as [none|]; [|discriminate].
  destruct (Obj.get ruleName (RR.rules s)) as [rule|]; [|eauto].
  destruct (length rule =? 0); eauto.
Qed.

(** X3. On every range reached through the constructor, [setRow],
    [setRule], [setRules] and [fillRuleValues], [getRule] returns, and
    [fillRuleValues] fails exactly when the rule has no [defaults], with
    the error for the missing defaults; otherwise it returns a range that
    is reached in turn. *)
Theorem fillRuleValues_errors (rule : RuleDefinition) (rows : list RecordInfo)
    (s : RR.t) :
  reachable s ->
  (forall ruleName, exists rv, RR.getRule ruleName s = Js.Ok rv)
  /\ (defaults rule = None ->
      RR.fillRuleValues rule rows s = Js.Throw Js.MissingDefaultsError)
  /\ (defaults rule <> None ->
      exists s', RR.fillRuleValues rule rows s = Js.Ok s' /\ reachable s').
Proof.
  intros Hreach. pose proof (reachable_has_none s Hreach) as Hnone.
  split; [|split].
  - intros ruleName. apply getRule_returns, Hnone.
  - intros Hd. unfold RR.fillRuleValues. rewrite Hd. reflexivity.
  - intros Hd.
    assert (Hfill : exists s', RR.fillRuleValues rule rows s = Js.Ok s').
    { unfold RR.fillRuleValues.
      destruct (defaults rule) as [d|]; [|contradiction].
      destruct (getRule_returns (name rule) (RR.recordColumnOrder rule s) Hnone)
        as (rv & ->).
      simpl. eauto. }
    destruct Hfill as (s' & Hfill). exists s'. split; [exact Hfill|].
    eapply reach_fillRuleValues; eassumption.
Qed.

Lemma fillRuleValues_errors_witness :
  exists s', RR.fillRuleValues scenarioRule scenarioRecords scenarioRange = Js.Ok s'
             /\ reachable s'.
Proof.
  apply (fillRuleValues_errors scenarioRule scenarioRecords scenarioRange).
  - exact (reach_new scenarioGrid scenarioClient scenarioRange eq_refl).
  - discriminate.
Defined.

(** ** Rows without an id *)

Lemma fold_left_filter_neutral {A B} (f : A -> B -> A) (p : B -> bool) (l : list B) :
  (forall a x, p x = false -> f a x = a) ->
  forall a, fold_left f (List.filter p l) a = fold_left f l a.
Proof.
  intros Hp. induction l as [|x l IH]; intros a; simpl; [reflexivity|].
  destruct (p x) eqn:E; simpl; [apply IH|].
  rewrite (Hp a x E). apply IH.
Qed.

(** X4. The constructor raises a TypeError on the empty grid.  On any
    other grid the data rows whose first cell is empty leave no trace:
    the range is the one read from the grid without them. *)
Theorem new_ignores_blank_ids (client : Client) (header : Row) (body : list Row) :
  RR.new [] client RR.defaultHeaders = Js.Throw Js.TypeError
  /\ RR.new (header :: body) client RR.defaultHeaders
     = RR.new (header :: List.filter (fun row => Js.truthy (Js.toKey (row !! 0))) body)
              client RR.defaultHeaders.
Proof.
  split; [reflexivity|].
  rewrite !new_unfold. unfold RR.setRules. f_equal. cbn [fold_left].
  symmetry. apply fold_left_filter_neutral.
  intros s row Hrow. apply setRulesRow_no_id.
  unfold Js.truthy in Hrow.
  destruct (String.eqb_spec (Js.toKey (row !! 0)) ""); [assumption | discriminate].
Qed.

(** ** [getValues] with a granularity *)






(** ** A completed run of [migrate] *)

Lemma positive_nonNegative d : positive d = true -> nonNegative d = true.
Proof.
  unfold positive, nonNegative. rewrite ltb_spec, leb_spec.
  unfold SFltb, SFleb. destruct (SFcompare _ _) as [[| |]|]; congruence.
Qed.

Lemma takeWhile_Forall {A} (p : A -> bool) (l : list A) :
  Forall (fun x => p x = true) (takeWhile p l).
Proof.
  induction l as [|x l IH]; simpl; [constructor|].
  destruct (p x) eqn:E; constructor; assumption.
Qed.

Lemma pending_at_target target ms :
  List.filter (fun m => positive (sortMigrations (fst m) target)) (reached target ms) = [].
Proof.
  unfold reached.
  pose proof (takeWhile_Forall
                (fun m : string * bool => negb (nonNegative (sortMigrations (fst m) target)))
                ms) as Hall.
  induction Hall as [|m l Hm _ IH]; simpl; [reflexivity|].
  destruct (positive (sortMigrations (fst m) target)) eqn:E; [|exact IH].
  apply positive_nonNegative in E. rewrite E in Hm. discriminate.
Qed.

(** X6. When [migrate] returns, the version it leaves in the script
    property reads as the target version, and for a non-empty target a
    second run invokes no migration and writes nothing. *)
Theorem migrate_settles (target : string) (migrations : Obj.t Migration)
    (w w' : Script) (n : nat) :
  migrate target migrations w = (Js.Ok n, w') ->
  Js.nullish (sheet_version w') "0" = target
  /\ (Js.truthy target = true -> migrate target migrations w' = (Js.Ok 0, w')).
Proof.
  intros Hrun.
  assert (Hversion : Js.nullish (sheet_version w') "0" = target).
  { unfold migrate in Hrun. rewrite migrateLoop_runPending in Hrun.
    set (sheetVersion := Js.nullish (sheet_version w) "0") in *.
    destruct (String.eqb_spec sheetVersion target) as [Heq|Hne].
    - rewrite Heq, pending_at_target in Hrun. cbn [runPending] in Hrun.
      injection Hrun as _ <-.
      destruct (Js.truthy target) eqn:Ht; [|reflexivity].
      rewrite <- Heq. reflexivity.
    - destruct (runPending _ _ _) as [[m|e] w2]; [|discriminate].
      injection Hrun as _ <-. reflexivity. }
  split; [exact Hversion|].
  intros Ht. unfold migrate. rewrite migrateLoop_runPending, Hversion, Ht.
  rewrite pending_at_target. cbn [runPending]. rewrite String.eqb_refl.
  reflexivity.
Qed.

Lemma migrate_settles_witness :
  let w' := mkScript (Some "2.0")
              [Invoked "1.2"; Persisted "1.2"; Persisted "2.0"] in
  Js.nullish (sheet_version w') "0" = "2.0"
  /\ (Js.truthy "2.0" = true ->
      migrate "2.0" [("1.2", true); ("1.0", true)] w' = (Js.Ok 0, w')).
Proof.
  apply (migrate_settles "2.0" [("1.2", true); ("1.0", true)]
           (mkScript (Some "1.0") []) _ 1).
  vm_compute. reflexivity.
Defined.

(** ** The table of a parsed grid *)



Lemma Obj_get_map_values {V W} (g : V -> W) k (l : Obj.t V) :
  Obj.get k (List.map (fun p => (fst p, g (snd p))) l) =
  match Obj.get k l with Some v => Some (g v) | None => None end.
Proof.
  induction l as [|[k0 v0] l IH]; simpl; [reflexivity|].
  destruct (String.eqb k k0); [reflexivity | exact IH].
Qed.






Lemma transformToParamValues_returns (header : Row) (body : list Row)
    (mapper : Obj.t ParamDefinition) :
  body <> [] -> exists sm, transformToParamValues (header :: body) mapper = Js.Ok sm.
Proof.
  intros Hbody. destruct body as [|row0 body']; [contradiction|].
  eexists. reflexivity.
Qed.



(** ** [makeCampaignIndexedSettings] *)

Section IndexedSettings.

Variable headers : list Js.cell.

Let write (campaignId : string) (row : list Js.cell)
    (result : Obj.t (Obj.t Js.cell)) (c : nat) : Obj.t (Obj.t Js.cell) :=
  Obj.set campaignId
    (Obj.set (Js.toKey (cellAt headers (c - 1))) (cellAt row c)
       (Js.nullish (Obj.get campaignId result) []))
    result.

Lemma indexedCell_write campaignId row result c id h :
  indexedCell (write campaignId row result c) id h =
  if String.eqb id campaignId && String.eqb h (Js.toKey (cellAt headers (c - 1)))
  then Some (cellAt row c)
  else indexedCell result id h.
Proof.
  unfold indexedCell, write. rewrite Obj_get_set.
  destruct (String.eqb_spec id campaignId) as [->|Hne]; simpl; [|reflexivity].
  rewrite Obj_get_set.
  destruct (String.eqb h _); [reflexivity|].
  destruct (Obj.get campaignId result); reflexivity.
Qed.

Lemma indexedCell_row campaignId row (cs : list nat) : forall result id h,
  indexedCell (fold_left (write campaignId row) cs result) id h =
  if String.eqb id campaignId
  then match last (List.filter
                     (fun c => String.eqb h (Js.toKey (cellAt headers (c - 1)))) cs) with
       | Some c => Some (cellAt row c)
       | None => indexedCell result id h
       end
  else indexedCell result id h.
Proof.
  induction cs as [|c cs IH]; intros result id h.
  - simpl. destruct (String.eqb id campaignId); reflexivity.
  - cbn [fold_left List.filter]. rewrite IH, indexedCell_write.
    destruct (String.eqb id campaignId); [|reflexivity]. simpl.
    destruct (String.eqb h (Js.toKey (cellAt headers (c - 1)))); [|reflexivity].
    destruct (List.filter _ cs) as [|q rest] eqn:Hf; [reflexivity|].
    rewrite last_cons_cons.
    destruct (last (q :: rest)) eqn:El; [reflexivity|].
    apply last_None in El. discriminate.
Qed.

Lemma indexedCell_rows (rows : list (list Js.cell)) : forall result id h,
  ~ In id (List.map (fun row => Js.toKey (cellAt row 0)) rows) ->
  indexedCell
    (fold_left (fun result row =>
                  fold_left (write (Js.toKey (cellAt row 0)) row)
                            (seq 1 (length row - 1)) result)
               rows result) id h
  = indexedCell result id h.
Proof.
  induction rows as [|row rows IH]; intros result id h Hnot; [reflexivity|].
  cbn [fold_left]. rewrite IH by (intros Hin; apply Hnot; right; exact Hin).
  rewrite indexedCell_row.
  destruct (String.eqb_spec id (Js.toKey (cellAt row 0))) as [->|_]; [|reflexivity].
  exfalso. apply Hnot. left. reflexivity.
Qed.

Lemma makeCampaignIndexedSettings_fold (rows : list (list Js.cell)) :
  makeCampaignIndexedSettings headers rows =
  fold_left (fun result row =>
               fold_left (write (Js.toKey (cellAt row 0)) row)
                         (seq 1 (length row - 1)) result)
            rows [].
Proof. reflexivity. Qed.

Lemma filter_seq_unique (p : nat -> bool) (x : nat) : forall n a,
  a <= x < a + n ->
  (forall c, a <= c < a + n -> p c = true -> c = x) -> p x = true ->
  List.filter p (seq a n) = [x].
Proof.
  induction n as [|n IH]; intros a Hx Hp Hpx; [lia|].
  cbn [seq List.filter]. destruct (Nat.eq_dec a x) as [->|Hne].
  - rewrite Hpx. f_equal.
    assert (Hnone : forall m b, x < b -> (forall c, b <= c < b + m -> p c = true -> c = x) ->
                                List.filter p (seq b m) = []).
    { induction m as [|m IHm]; intros b Hb Hpb; [reflexivity|].
      cbn [seq List.filter]. destruct (p b) eqn:E.
      - specialize (Hpb b ltac:(lia) E). lia.
      - apply IHm; [lia|]. intros c Hc. apply Hpb. lia. }
    apply Hnone; [lia|]. intros c Hc. apply Hp. lia.
  - destruct (p a) eqn:E.
    + specialize (Hp a ltac:(lia) E). contradiction.
    + apply IH; [lia | | exact Hpx]. intros c Hc. apply Hp. lia.
Qed.

(** The cell stored under the id of a row and the name of a header. *)
Lemma indexed_lookup (rows : list (list Js.cell))
    (row : list Js.cell) (j : nat) :
  List.NoDup (List.map (fun row => Js.toKey (cellAt row 0)) rows) ->
  List.NoDup (List.map Js.toKey headers) ->
  In row rows -> length row = S (length headers) -> j < length headers ->
  indexedCell (makeCampaignIndexedSettings headers rows)
              (Js.toKey (cellAt row 0)) (Js.toKey (cellAt headers j))
  = Some (cellAt row (S j)).
Proof.
  intros Hids Hhs Hin Hlen Hj. rewrite makeCampaignIndexedSettings_fold.
  apply in_split in Hin as (before & after & ->).
  rewrite map_app in Hids. cbn [List.map] in Hids.
  apply NoDup_remove_2 in Hids.
  rewrite fold_left_app. cbn [fold_left].
  rewrite indexedCell_rows
    by (intros Hin; apply Hids; apply in_or_app; right; exact Hin).
  rewrite indexedCell_row, String.eqb_refl.
  rewrite (filter_seq_unique _ (S j)).
  - reflexivity.
  - lia.
  - intros c Hc Heq. apply String.eqb_eq in Heq.
    destruct c as [|c]; [lia|]. f_equal.
    replace (S c - 1) with c in Heq by lia.
    assert (Hc' : c < length headers) by lia.
    apply (NoDup_lookup (Js.toKey <$> headers) c j (Js.toKey (cellAt headers c))).
    + apply NoDup_ListNoDup. exact Hhs.
    + rewrite list_lookup_fmap. unfold cellAt.
      destruct (lookup_lt_is_Some_2 headers c Hc') as (x & ->). reflexivity.
    + rewrite <- Heq, list_lookup_fmap. unfold cellAt.
      destruct (lookup_lt_is_Some_2 headers j Hj) as (x & ->). reflexivity.
  - replace (S j - 1) with j by lia. apply String.eqb_refl.
Qed.

(** An id that no row bears has no entry. *)
Lemma indexed_absent (rows : list (list Js.cell)) (id : string) :
  ~ In id (List.map (fun row => Js.toKey (cellAt row 0)) rows) ->
  Obj.get id (makeCampaignIndexedSettings headers rows) = None.
Proof.
  intros Hnot. rewrite makeCampaignIndexedSettings_fold.
  assert (Hgen : forall (rs : list (list Js.cell)) result,
             ~ In id (List.map (fun row => Js.toKey (cellAt row 0)) rs) ->
             Obj.get id
               (fold_left (fun result row =>
                  fold_left (write (Js.toKey (cellAt row 0)) row)
                            (seq 1 (length row - 1)) result) rs result)
             = Obj.get id result).
  { induction rs as [|r rs IH]; intros result Hn; [reflexivity|].
    cbn [fold_left]. rewrite IH by (intros H; apply Hn; right; exact H).
    assert (Hne : id <> Js.toKey (cellAt r 0))
      by (intros ->; apply Hn; left; reflexivity).
    generalize (seq 1 (length r - 1)). intros cs. revert result.
    induction cs as [|c cs IHc]; intros result; [reflexivity|].
    cbn [fold_left]. rewrite IHc. unfold write. rewrite Obj_get_set.
    destruct (String.eqb_spec id (Js.toKey (cellAt r 0))); [contradiction|].
    reflexivity. }
  rewrite Hgen by exact Hnot. reflexivity.
Qed.

End IndexedSettings.

(** X8. The object [makeCampaignIndexedSettings] builds from rows with
    distinct ids and headers with distinct names holds, for a row that
    has one cell per header after its id, every cell of the row under
    its id and the name of its header; an id that no row bears has no
    entry. *)
Theorem makeCampaignIndexedSettings_lookup (headers : list Js.cell)
    (rows : list (list Js.cell))
    (row : list Js.cell) (j : nat) :
  List.NoDup (List.map (fun row => Js.toKey (cellAt row 0)) rows) ->
  List.NoDup (List.map Js.toKey headers) ->
  In row rows -> length row = S (length headers) -> j < length headers ->
  indexedCell (makeCampaignIndexedSettings headers rows)
              (Js.toKey (cellAt row 0)) (Js.toKey (cellAt headers j))
  = Some (cellAt row (S j))
  /\ forall id, ~ In id (List.map (fun row => Js.toKey (cellAt row 0)) rows) ->
                Obj.get id (makeCampaignIndexedSettings headers rows) = None.
Proof.
  intros Hids Hhs Hin Hlen Hj. split.
  - apply indexed_lookup; assumption.
  - intros id Hnot. apply indexed_absent, Hnot.
Qed.

Lemma makeCampaignIndexedSettings_lookup_witness :
  indexedCell
    (makeCampaignIndexedSettings [Some "label1"; Some "label2"]
       [[Some "ID"; Some "label1"; Some "label2"];
        [Some "default"; Some ""; Some "d2"]])
    "default" "label2" = Some (Some "d2").
Proof.
  apply (makeCampaignIndexedSettings_lookup [Some "label1"; Some "label2"]
           [[Some "ID"; Some "label1"; Some "label2"];
            [Some "default"; Some ""; Some "d2"]]
           [Some "default"; Some ""; Some "d2"] 1).
  - simpl. repeat constructor; simpl; intuition discriminate.
  - simpl. repeat constructor; simpl; intuition discriminate.
  - right. left. reflexivity.
  - reflexivity.
  - simpl. lia.
Defined.

(** ** Settings survive a reconciliation pass *)

Lemma storedCell_indexedCell cs rowId h :
  storedCell cs rowId h = Js.nullish (indexedCell cs rowId h) None.
Proof.
  unfold storedCell, indexedCell. destruct (Obj.get rowId cs); reflexivity.
Qed.

Lemma fillRows_calls_exact rule d rv rows s1 :
  exists x0 declared,
    RR.fillRows rule d rv rows s1
    = runRows
        (fillCalls (name rule) x0 (ruleLabels rule)
           (List.map (fun h => Js.nullish (storedCell (currentSettingsOf rv) "default" h)
                                          (declared h))
                     (ruleLabels rule))
           (fun record =>
              List.map (fun h => Js.nullish (storedCell (currentSettingsOf rv)
                                               (id record) h) "")
                       (ruleLabels rule))
           rows) s1.
Proof.
  unfold RR.fillRows. cbv zeta.
  match goal with
  | |- context [RR.setRow _ "default" (List.map (fun h => Js.nullish _ (@?dec h)) _)
                  (RR.setRow _ _ _
                     (RR.setRow _ "ID" _
                        (RR.setRow _ _ [_; ?x0] _)))] =>
      exists x0, dec
  end.
  unfold fillCalls. rewrite runRows_app.
  rewrite (runRows_records _ _ (fun record => [id record; displayName record])).
  reflexivity.
Qed.

Lemma getRule_rows nm s arr a0 :
  Obj.get nm (RR.rules s) = Some arr -> arr <> [] ->
  Obj.get "none" (RR.rules s) = Some a0 ->
  RR.getRule nm s =
  Js.Ok (List.map (joinedRow a0 arr)
           (Js.sort (fun a b => b <? a)
              (List.filter (inBoth a0 arr) (Obj.values (RR.rowIndex s))))).
Proof.
  intros Harr Hne Hnone. unfold RR.getRule. rewrite Harr, Hnone.
  destruct arr; [contradiction | reflexivity].
Qed.

Lemma reachable_sentinels s :
  reachable s ->
  Obj.get "ID" (RR.rowIndex s) = Some 0 /\ Obj.get "default" (RR.rowIndex s) = Some 1.
Proof.
  induction 1 as [range client s Hnew | | | range s s' _ IH Hset | rule rows s s' _ IH Hfill].
  - rewrite new_unfold in Hnew.
    split; apply (viaSetRow_keeps_position _ _ _ _ (setRules_via range _ _ Hnew));
      reflexivity.
  - destruct IHreachable. split; apply setRow_keeps_position; assumption.
  - destruct IHreachable.
    split; apply (viaSetRow_keeps_position _ _ _ _ (setRule_via _ _ _)); assumption.
  - destruct IH.
    split; apply (viaSetRow_keeps_position _ _ _ _ (setRules_via range _ _ Hset));
      assumption.
  - destruct IH as [H0 H1].
    destruct (fillRuleValues_rowIndex _ _ _ _ Hfill) as (s6 & [Hpos _] & Hget).
    split; rewrite Hget; simpl; apply Hpos; assumption.
Qed.

Lemma Obj_values_NoDup (ri : Obj.t nat) :
  List.NoDup (Obj.keys ri) ->
  (forall k1 k2 i, Obj.get k1 ri = Some i -> Obj.get k2 ri = Some i -> k1 = k2) ->
  List.NoDup (Obj.values ri).
Proof.
  intros Hnd Hinj. unfold Obj.values.
  apply NoDup_map_NoDup_ForallPairs; [|apply (List.NoDup_map_inv fst), Hnd].
  intros [k1 i1] [k2 i2] H1 H2. simpl. intros <-.
  apply (Obj_In_get ri k1 i1 Hnd) in H1. apply (Obj_In_get ri k2 i1 Hnd) in H2.
  f_equal. apply (Hinj k1 k2 i1); assumption.
Qed.

Lemma map_lookup_eq {A B} (f : A -> B) (l : list A) (r : list B) :
  length r = length l ->
  (forall j x, l !! j = Some x -> r !! j = Some (f x)) ->
  List.map f l = r.
Proof.
  intros Hlen H. apply list_eq. intros j.
  change (List.map f l) with (f <$> l). rewrite list_lookup_fmap.
  destruct (l !! j) as [x|] eqn:E; simpl.
  - symmetry. apply H, E.
  - symmetry. apply lookup_ge_None. apply lookup_ge_None in E. lia.
Qed.

Section KeepsSettings.

Variables (rule : RuleDefinition) (s : RR.t) (arr a0 : Arr.t Row).
Hypothesis Hkeys : List.NoDup (Obj.keys (RR.rowIndex s)).
Hypothesis Hpos : distinctPositions s.
Hypothesis HID : Obj.get "ID" (RR.rowIndex s) = Some 0.
Hypothesis Hcells : identityCells s.
Hypothesis Hlabels : List.NoDup (ruleLabels rule).
Hypothesis Harr : Obj.get (name rule) (RR.rules s) = Some arr.
Hypothesis Hnone : Obj.get "none" (RR.rules s) = Some a0.
Hypothesis Hheader : Arr.get 0 arr = Some (ruleLabels rule).
Hypothesis Hidrow : Arr.get 0 a0 <> None.

Let idxs := Js.sort (fun a b => b <? a)
              (List.filter (inBoth a0 arr) (Obj.values (RR.rowIndex s))).
Let rv := List.map (joinedRow a0 arr) idxs.
Let labels := ruleLabels rule.

Lemma idxs_In i :
  In i idxs <-> In i (Obj.values (RR.rowIndex s)) /\ inBoth a0 arr i = true.
Proof.
  unfold idxs. rewrite <- filter_In.
  split; apply Permutation_in; [|symmetry]; apply sort_perm.
Qed.

Lemma idxs_NoDup : List.NoDup idxs.
Proof.
  unfold idxs. eapply Permutation.Permutation_NoDup; [symmetry; apply sort_perm|].
  apply List.NoDup_filter. apply Obj_values_NoDup.
  - exact Hkeys.
  - apply Hpos.
Qed.

Lemma tracked_value k i :
  Obj.get k (RR.rowIndex s) = Some i -> In i (Obj.values (RR.rowIndex s)).
Proof.
  intros Hk. apply Obj_get_Some_In in Hk.
  apply in_map_iff. exists (k, i). auto.
Qed.

Lemma idxs_head : exists rest, idxs = 0 :: rest.
Proof.
  assert (H0 : In 0 idxs).
  { apply idxs_In. split.
    - apply (tracked_value "ID"), HID.
    - unfold inBoth. rewrite Hheader.
      destruct (Arr.get 0 a0); [reflexivity | contradiction]. }
  pose proof (sort_sorted (fun i : nat => i)
                (List.filter (inBoth a0 arr) (Obj.values (RR.rowIndex s)))) as Hs.
  change (StronglySorted (fun a b : nat => a <= b) idxs) in Hs.
  revert H0 Hs. generalize idxs. intros l H0 Hs.
  destruct l as [|x rest]; [destruct H0|].
  destruct H0 as [->|H0]; [eauto|].
  apply StronglySorted_inv in Hs as [_ Hall]. rewrite List.Forall_forall in Hall.
  pose proof (Hall 0 H0). assert (x = 0) by lia. subst. eauto.
Qed.

Lemma rv_headers :
  match rv with r0 :: _ => drop 1 r0 | [] => [] end = List.map Some labels.
Proof.
  unfold rv. destruct idxs_head as (rest & ->). cbn [List.map].
  unfold joinedRow. rewrite Hheader. reflexivity.
Qed.

Lemma joinedRow_id k i r0 :
  Obj.get k (RR.rowIndex s) = Some i -> Arr.get i a0 = Some r0 ->
  Js.toKey (cellAt (joinedRow a0 arr i) 0) = k.
Proof.
  intros Hk Hr0. unfold joinedRow, cellAt. rewrite Hr0. cbn.
  rewrite (Hcells k i a0 r0 Hk Hnone Hr0). reflexivity.
Qed.

Lemma rv_ids_NoDup :
  List.NoDup (List.map (fun row => Js.toKey (cellAt row 0)) rv).
Proof.
  unfold rv. rewrite map_map.
  apply NoDup_map_NoDup_ForallPairs; [|apply idxs_NoDup].
  intros i1 i2 H1 H2 Heq.
  apply idxs_In in H1 as [Hv1 Hb1]. apply idxs_In in H2 as [Hv2 Hb2].
  apply in_map_iff in Hv1 as ([k1 j1] & E1 & Hin1).
  apply in_map_iff in Hv2 as ([k2 j2] & E2 & Hin2).
  simpl in E1, E2. subst j1 j2.
  pose proof Hkeys as Hnd.
  apply (Obj_In_get _ k1 i1 Hnd) in Hin1. apply (Obj_In_get _ k2 i2 Hnd) in Hin2.
  unfold inBoth in Hb1, Hb2.
  destruct (Arr.get i1 a0) as [r1|] eqn:Hr1; [|discriminate].
  destruct (Arr.get i2 a0) as [r2|] eqn:Hr2; [|discriminate].
  rewrite (joinedRow_id k1 i1 r1 Hin1 Hr1), (joinedRow_id k2 i2 r2 Hin2 Hr2) in Heq.
  subst k2. congruence.
Qed.

(** What the pass finds stored for an entity that has a row in the block
    and an identity row. *)
Lemma stored_row k i r r0 j h :
  Obj.get k (RR.rowIndex s) = Some i ->
  Arr.get i arr = Some r -> Arr.get i a0 = Some r0 ->
  length r = length labels -> labels !! j = Some h ->
  exists x, r !! j = Some x /\ storedCell (currentSettingsOf rv) k h = Some x.
Proof.
  intros Hk Hr Hr0 Hlen Hj.
  assert (Hjlt : j < length labels) by (apply lookup_lt_is_Some; eauto).
  destruct (lookup_lt_is_Some_2 r j ltac:(lia)) as (x & Hx).
  exists x. split; [exact Hx|].
  rewrite storedCell_indexedCell. unfold currentSettingsOf. rewrite rv_headers.
  pose proof (indexed_lookup (List.map Some labels) rv
                (joinedRow a0 arr i) j) as Hlookup.
  rewrite (joinedRow_id k i r0 Hk Hr0) in Hlookup.
  assert (Hcell : Js.toKey (cellAt (List.map Some labels) j) = h).
  { unfold cellAt. change (List.map Some labels) with (Some <$> labels).
    rewrite list_lookup_fmap, Hj. reflexivity. }
  rewrite Hcell in Hlookup.
  assert (Hin : In (joinedRow a0 arr i) rv).
  { unfold rv. apply in_map. apply idxs_In. split; [apply (tracked_value k), Hk|].
    unfold inBoth. rewrite Hr, Hr0. reflexivity. }
  assert (Hrowlen : length (joinedRow a0 arr i) = S (length (List.map Some labels))).
  { unfold joinedRow. rewrite Hr. cbn [length Js.nullish].
    rewrite !length_map. lia. }
  assert (Hhs : List.NoDup (List.map Js.toKey (List.map Some labels))).
  { rewrite map_map. cbn [Js.toKey]. rewrite map_id. exact Hlabels. }
  assert (Hj' : j < length (List.map Some labels))
    by (rewrite length_map; exact Hjlt).
  rewrite (Hlookup rv_ids_NoDup Hhs Hin Hrowlen Hj').
  unfold joinedRow, cellAt. rewrite Hr. cbn [Js.nullish].
  change ((Js.nullish (Arr.get i a0) [] !! 0 :: List.map Some r) !! S j)
    with ((Some <$> r) !! j).
  rewrite list_lookup_fmap, Hx. reflexivity.
Qed.

End KeepsSettings.

Lemma fillCalls_Forall (P : string * string * Row -> Prop) nm x0 r0 r1 f rows :
  P ("none", "ID", ["ID"; x0]) -> P (nm, "ID", r0) ->
  P ("none", "default", ["default"; ""]) -> P (nm, "default", r1) ->
  (forall record, In record rows ->
     P (nm, id record, f record)
     /\ P ("none", id record, [id record; displayName record])) ->
  Forall P (fillCalls nm x0 r0 r1 f rows).
Proof.
  intros H1 H2 H3 H4 Hrows. unfold fillCalls. apply Forall_app. split.
  - repeat (apply List.Forall_cons); try apply List.Forall_nil; assumption.
  - induction rows as [|r rs IH]; simpl; [constructor|].
    destruct (Hrows r (or_introl eq_refl)) as [Ha Hb].
    constructor; [exact Ha|]. constructor; [exact Hb|].
    apply IH. intros record Hin. apply Hrows. right. exact Hin.
Qed.

(** The rows that a pass of [fillRuleValues] finds in the block of its
    rule are written back unchanged. *)
Lemma fill_keeps_rows (rule : RuleDefinition)
    (rows : list RecordInfo) (s s' : RR.t) (arr a0 : Arr.t Row) :
  List.NoDup (Obj.keys (RR.rowIndex s)) -> distinctPositions s ->
  Obj.get "ID" (RR.rowIndex s) = Some 0 -> identityCells s ->
  List.NoDup (ruleLabels rule) -> name rule <> "none" ->
  Obj.get (name rule) (RR.rules s) = Some arr ->
  Obj.get "none" (RR.rules s) = Some a0 ->
  Arr.get 0 arr = Some (ruleLabels rule) -> Arr.get 0 a0 <> None ->
  RR.fillRuleValues rule rows s = Js.Ok s' ->
  forall k i r,
    Obj.get k (RR.rowIndex s) = Some i ->
    Obj.get k (RR.rowIndex s') = Some i ->
    Arr.get i arr = Some r -> Arr.get i a0 <> None ->
    length r = length (ruleLabels rule) ->
    exists arr',
      Obj.get (name rule) (RR.rules s') = Some arr' /\ Arr.get i arr' = Some r.
Proof.
  intros Hkeys Hpos HID Hcells Hlabels Hnm Harr Hnone Hheader Hidrow Hfill k i r
         Hk Hk' Hr Hr0 Hlen.
  unfold RR.fillRuleValues in Hfill.
  destruct (defaults rule) as [d|]; [|discriminate].
  set (s1 := RR.recordColumnOrder rule s) in *.
  assert (Harr_ne : arr <> []) by (intros ->; discriminate).
  rewrite (getRule_rows (name rule) s1 arr a0 Harr Harr_ne Hnone) in Hfill.
  cbn [Js.bind] in Hfill. injection Hfill as <-.
  set (rv := List.map (joinedRow a0 arr) _).
  destruct (fillRows_calls_exact rule d rv rows s1) as (x0 & declared & ->).
  set (calls := fillCalls _ _ _ _ _ _).
  set (Q := fun (k' : string) (col : Row) =>
              forall i' r' r0', Obj.get k' (RR.rowIndex s) = Some i' ->
                Arr.get i' arr = Some r' -> Arr.get i' a0 = Some r0' ->
                length r' = length (ruleLabels rule) -> col = r').
  assert (Hstored : forall k' (dflt : string -> string),
             Q k' (List.map (fun h => Js.nullish (storedCell (currentSettingsOf rv) k' h)
                                                 (dflt h))
                            (ruleLabels rule))).
  { intros k' dflt i' r' r0' Hi' Hr' Hr0' Hlen'.
    apply map_lookup_eq; [exact Hlen'|]. intros j h Hj.
    destruct (stored_row rule s arr a0 Hkeys Hpos HID
                Hcells Hlabels Hnone Hheader Hidrow
                k' i' r' r0' j h Hi' Hr' Hr0' Hlen' Hj) as (x & Hx & Hst).
    fold rv in Hst. rewrite Hst. exact Hx. }
  assert (Hall : Forall (fun call => fst (fst call) = name rule ->
                                     Q (snd (fst call)) (snd call)) calls).
  { apply fillCalls_Forall; cbn [fst snd].
    - intros H. congruence.
    - intros _ i' r' r0' Hi' Hr' _ _. congruence.
    - intros H. congruence.
    - intros _. apply (Hstored "default" declared).
    - intros record _. split; [intros _ | intros H; congruence].
      apply (Hstored (id record) (fun _ => "")). }
  destruct Hpos as (Hle & Hinj & Hne).
  assert (Hkne : k <> "").
  { intros ->. apply Hne. apply Obj_get_Some_In in Hk.
    apply in_map_iff. exists ("", i). auto. }
  assert (Hsys : In k ("ID" :: "default" :: List.map id rows)).
  { cbn [RR.pruneRows RR.rowIndex] in Hk'. rewrite prune_get in Hk'.
    destruct (existsb _ _) eqn:E; [|discriminate].
    apply existsb_eqb_In, E. }
  destruct (runRows_hasRow (name rule) Q calls s1 k) as (i2 & arr2 & r2 & Hi2 & Harr2 & Hr2 & HQ).
  - repeat split; assumption.
  - exact Hall.
  - exact Hkne.
  - right. apply fillCalls_touch_rule, Hsys.
  - assert (i2 = i).
    { pose proof (viaSetRow_keeps_position s1 _ k i (runRows_via calls s1) Hk).
      congruence. }
    subst i2. exists arr2. split; [exact Harr2|].
    destruct (Arr.get i a0) as [r0|] eqn:E0; [|contradiction].
    rewrite Hr2. f_equal. apply (HQ i r r0); assumption.
Qed.

(** X9. A reconciliation pass keeps the settings it finds.  On a reached
    range in which identity rows start with the id of their entity, when
    the block of the rule has the labels of the rule as its header row
    and the labels are distinct, every entity that is tracked before and
    after [fillRuleValues], with an identity row and a row of one cell
    per label in the block, has the same row in the block afterwards. *)
Theorem fillRuleValues_keeps_settings (rule : RuleDefinition)
    (rows : list RecordInfo) (s s' : RR.t) (arr a0 : Arr.t Row) :
  reachable s -> identityCells s ->
  List.NoDup (ruleLabels rule) -> name rule <> "none" ->
  Obj.get (name rule) (RR.rules s) = Some arr ->
  Obj.get "none" (RR.rules s) = Some a0 ->
  Arr.get 0 arr = Some (ruleLabels rule) -> Arr.get 0 a0 <> None ->
  RR.fillRuleValues rule rows s = Js.Ok s' ->
  forall k i r,
    Obj.get k (RR.rowIndex s) = Some i ->
    Obj.get k (RR.rowIndex s') = Some i ->
    Arr.get i arr = Some r -> Arr.get i a0 <> None ->
    length r = length (ruleLabels rule) ->
    exists arr',
      Obj.get (name rule) (RR.rules s') = Some arr' /\ Arr.get i arr' = Some r.
Proof.
  intros Hreach. apply fill_keeps_rows.
  - apply reachable_keys_NoDup, Hreach.
  - apply reachable_distinctPositions, Hreach.
  - apply (reachable_sentinels s Hreach).
Qed.

Lemma scenarioRange_identityCells : identityCells scenarioRange.
Proof.
  intros k i a0 r0 Hk Ha Hr. injection Ha as <-. simpl in Hk.
  destruct (String.eqb_spec k "1") as [->|_];
    [injection Hk as <-; injection Hr as <-; reflexivity|].
  destruct (String.eqb_spec k "ID") as [->|_];
    [injection Hk as <-; injection Hr as <-; reflexivity|].
  destruct (String.eqb_spec k "default") as [->|_]; [|discriminate].
  injection Hk as <-. injection Hr as <-. reflexivity.
Qed.

Lemma fillRuleValues_keeps_settings_witness :
  exists arr',
    Obj.get "A" (RR.rules scenarioSynced) = Some arr'
    /\ Arr.get 3 arr' = Some ["v1"; ""].
Proof.
  apply (fillRuleValues_keeps_settings scenarioRule
           [{| id := "1"; displayName := "Campaign 1" |}]
           scenarioRange scenarioSynced
           [Some ["label1"; "label2"]; Some [""; "d2"]; None; Some ["v1"; ""]]
           [Some ["ID"]; Some ["default"]; None; Some ["1"]]
           (reach_new scenarioGrid scenarioClient scenarioRange eq_refl)
           scenarioRange_identityCells) with (k := "1");
    try reflexivity; try discriminate.
  simpl. repeat constructor; simpl; intuition discriminate.
Defined.

Section SheetSettings.

Variable client : Client.
Variable layout : list (string * nat).
Variable rowsBlocks : list (list (string * Row)).
Hypothesis Hwf : WellFormed layout rowsBlocks.

Let T := parseRows rowsBlocks (initialRange client).




Lemma parsed_block m bs nm piece :
  rowsBlocks !! m = Some bs -> Obj.get nm bs = Some piece ->
  exists arr, Obj.get nm (RR.rules T) = Some arr
              /\ Arr.get (parsedPosition m) arr = Some piece.
Proof.
  intros Hm Hp.
  pose proof (pu_cells _ _ _ _ _ (parsed_all client layout rowsBlocks Hwf)
                m bs nm piece
                (proj1 (lookup_lt_is_Some _ _) (ex_intro _ bs Hm)) Hm Hp) as Hc.
  fold T in Hc.
  destruct (Obj.get nm (RR.rules T)) as [arr|]; [eauto|].
  cbn [Js.nullish] in Hc. rewrite Arr_get_nil in Hc. discriminate.
Qed.


End SheetSettings.




(** ** The settings a rule is given after a pass *)

Lemma ruleLabels_length rule : length (ruleLabels rule) = length (params rule).
Proof. unfold ruleLabels. apply length_map. Qed.

(** After a pass every tracked entity has, in the block of the rule, a row
    of one cell per parameter, and the 'ID' row holds the labels. *)
Lemma fill_block_rows rule rows s s' :
  distinctPositions s -> name rule <> "none" -> ~ In "ID" (List.map id rows) ->
  RR.fillRuleValues rule rows s = Js.Ok s' ->
  forall k i, Obj.get k (RR.rowIndex s') = Some i ->
    exists arr' r,
      Obj.get (name rule) (RR.rules s') = Some arr'
      /\ Arr.get i arr' = Some r
      /\ length r = length (params rule)
      /\ (k = "ID" -> r = ruleLabels rule).
Proof.
  intros Hd Hnm HnoID Hfill k i Hk.
  pose proof (fillRuleValues_distinctPositions _ _ _ _ Hfill Hd) as (_ & _ & Hne').
  destruct (fillRuleValues_unfold _ _ _ _ Hfill) as (d & rv & ->).
  set (s1 := RR.recordColumnOrder rule s) in *.
  destruct (fillRows_calls_exact rule d rv rows s1) as (x0 & declared & Hcalls).
  rewrite Hcalls in *. clear Hcalls.
  set (calls := fillCalls _ _ _ _ _ _) in *.
  set (Q := fun (k' : string) (col : Row) =>
              length col = length (params rule)
              /\ (k' = "ID" -> col = ruleLabels rule)).
  assert (Hkne : k <> "").
  { intros ->. apply Hne'. apply Obj_get_Some_In in Hk.
    apply in_map_iff. exists ("", i). auto. }
  cbn [RR.pruneRows RR.rowIndex RR.rules] in *. rewrite prune_get in Hk.
  destruct (existsb _ _) eqn:E; [|discriminate].
  apply existsb_eqb_In in E.
  assert (Hall : Forall (fun call => fst (fst call) = name rule ->
                                     Q (snd (fst call)) (snd call)) calls).
  { apply fillCalls_Forall; cbn [fst snd]; unfold Q.
    - intros H. congruence.
    - intros _. split; [apply ruleLabels_length | reflexivity].
    - intros H. congruence.
    - intros _. split; [rewrite length_map; apply ruleLabels_length | discriminate].
    - intros record Hin. split.
      + intros _. split; [rewrite length_map; apply ruleLabels_length|].
        intros Heq. exfalso. apply HnoID. rewrite <- Heq. apply in_map, Hin.
      + intros H. congruence. }
  destruct (runRows_hasRow (name rule) Q calls s1 k) as (i2 & arr2 & r2 & Hi2 & Harr2 & Hr2 & HQ).
  - exact Hd.
  - exact Hall.
  - exact Hkne.
  - right. apply fillCalls_touch_rule, E.
  - assert (i2 = i) by congruence. subst i2.
    exists arr2, r2. destruct HQ. auto.
Qed.

Lemma settled_identityCells s : Settled s -> identityCells s.
Proof.
  intros Hs k i a0 r0 Hk Ha Hr.
  destruct (settled_identity _ Hs k i Hk) as (i' & a & r & Hi' & Ha' & Hr' & x & ->).
  assert (i' = i) by congruence. assert (a = a0) by congruence. subst.
  rewrite Hr in Hr'. injection Hr' as ->. reflexivity.
Qed.

Lemma joinedRow_plain a0 arr i k rest :
  Arr.get i a0 = Some (k :: rest) ->
  joinedRow a0 arr i = List.map Some (plainRow a0 arr i).
Proof. intros H. unfold joinedRow, plainRow. rewrite H. reflexivity. Qed.



Lemma indexOf_NoDup (l : list string) : forall j x,
  List.NoDup l -> l !! j = Some x -> indexOf x l = Some j.
Proof.
  induction l as [|y l IH]; intros j x Hnd Hj; [discriminate|].
  inversion Hnd as [|? ? Hy Hnd']; subst. simpl.
  destruct j as [|j]; simpl in Hj.
  - injection Hj as ->. rewrite String.eqb_refl. reflexivity.
  - destruct (String.eqb_spec y x) as [->|_].
    + exfalso. apply Hy. apply list_elem_of_In. eapply list_elem_of_lookup_2. exact Hj.
    + rewrite (IH j x Hnd' Hj). reflexivity.
Qed.

Section FilledGrid.

Variables (rule : RuleDefinition) (rows : list RecordInfo) (s s' : RR.t).
Hypothesis Htidy : Tidy s.
Hypothesis Hrule : goodRule rule.
Hypothesis HnoID : ~ In "ID" (List.map id rows).
Hypothesis Hfill : RR.fillRuleValues rule rows s = Js.Ok s'.

Let nm := name rule.
Let labels := ruleLabels rule.

Lemma filled_settled : Settled s'.
Proof. exact (fillRuleValues_settled rule rows s s' Hrule Htidy Hfill). Qed.

Lemma filled_blocks :
  exists a0 arr,
    Obj.get "none" (RR.rules s') = Some a0
    /\ Obj.get nm (RR.rules s') = Some arr
    /\ Arr.get 0 arr = Some labels
    /\ forall k i, Obj.get k (RR.rowIndex s') = Some i ->
         exists x r, Arr.get i a0 = Some [k; x] /\ Arr.get i arr = Some r
                     /\ length r = length (params rule).
Proof.
  pose proof filled_settled as Hs.
  pose proof (settled_tidy _ Hs) as Ht.
  destruct Hrule as ((Hnm & _) & _).
  pose proof (fill_block_rows rule rows s s' (tidy_positions _ Htidy) Hnm HnoID Hfill)
    as Hrows.
  destruct (settled_identity _ Hs "ID" 0 (tidy_ID _ Ht))
    as (i0 & a0 & r0 & Hi0 & Ha0 & _).
  destruct (Hrows "ID" 0 (tidy_ID _ Ht)) as (arr & r & Harr & Hr & _ & Hlab).
  exists a0, arr. split; [exact Ha0|]. split; [exact Harr|].
  split; [rewrite Hr, (Hlab eq_refl); reflexivity|].
  intros k i Hk.
  destruct (settled_identity _ Hs k i Hk) as (i' & a & r' & Hi' & Ha' & Hr' & x & ->).
  assert (i' = i) by congruence. subst i'.
  assert (a = a0) by congruence. subst a.
  destruct (Hrows k i Hk) as (arr' & r2 & Harr' & Hr2 & Hlen & _).
  assert (arr' = arr) by congruence. subst arr'.
  exists x, r2. auto.
Qed.

Lemma filled_grid :
  exists arr grid body,
    Obj.get nm (RR.rules s') = Some arr
    /\ RR.getRule nm s' = Js.Ok (List.map (List.map Some) grid)
    /\ grid = ("ID" :: labels) :: body /\ body <> []
    /\ List.NoDup (List.map (fun row => row !! 0) grid)
    /\ (forall row, In row grid <->
          exists k i r, Obj.get k (RR.rowIndex s') = Some i
                        /\ Arr.get i arr = Some r /\ row = k :: r)
    /\ (forall k i, Obj.get k (RR.rowIndex s') = Some i ->
          exists r, Arr.get i arr = Some r /\ length r = length (params rule)).
Proof.
  pose proof filled_settled as Hs.
  pose proof (settled_tidy _ Hs) as Ht.
  pose proof (tidy_ids _ Ht) as Hkeys.
  pose proof (tidy_positions _ Ht) as Hpos.
  destruct filled_blocks as (a0 & arr & Ha0 & Harr & Hheader & Hrows).
  set (idxs := Js.sort (fun a b => b <? a)
                 (List.filter (inBoth a0 arr) (Obj.values (RR.rowIndex s')))).
  assert (Hidrow : Arr.get 0 a0 <> None).
  { destruct (Hrows "ID" 0 (tidy_ID _ Ht)) as (x & r & H & _). congruence. }
  assert (Hin : forall i, In i idxs <->
                          exists k, Obj.get k (RR.rowIndex s') = Some i).
  { intros i. unfold idxs. rewrite (idxs_In s' arr a0). split.
    - intros [Hv _]. apply in_map_iff in Hv as ([k i'] & <- & Hv).
      exists k. apply (Obj_In_get _ k i' Hkeys), Hv.
    - intros (k & Hk). split; [apply (tracked_value s' k), Hk|].
      destruct (Hrows k i Hk) as (x & r & H0 & H1 & _).
      unfold inBoth. rewrite H0, H1. reflexivity. }
  assert (Hplain : forall k i, Obj.get k (RR.rowIndex s') = Some i ->
                     exists r, Arr.get i arr = Some r
                               /\ length r = length (params rule)
                               /\ plainRow a0 arr i = k :: r
                               /\ joinedRow a0 arr i = List.map Some (k :: r)).
  { intros k i Hk. destruct (Hrows k i Hk) as (x & r & H0 & H1 & Hlen).
    exists r. split; [exact H1|]. split; [exact Hlen|].
    assert (Hp : plainRow a0 arr i = k :: r)
      by (unfold plainRow; rewrite H0, H1; reflexivity).
    split; [exact Hp|]. rewrite <- Hp. apply (joinedRow_plain a0 arr i k [x]), H0. }
  destruct (idxs_head rule s' arr a0 (tidy_ID _ Ht) Hheader Hidrow) as (rest & Hrest).
  fold idxs in Hrest.
  exists arr, (List.map (plainRow a0 arr) idxs), (List.map (plainRow a0 arr) rest).
  split; [exact Harr|]. split.
  { assert (Harr_ne : arr <> []) by (intros ->; discriminate).
    rewrite (getRule_rows nm s' arr a0 Harr Harr_ne Ha0). fold idxs. f_equal.
    rewrite map_map. apply map_ext_in. intros i Hi.
    apply Hin in Hi as (k & Hk).
    destruct (Hplain k i Hk) as (r & _ & _ & Hp & Hj). rewrite Hp. exact Hj. }
  split.
  { rewrite Hrest. cbn [List.map]. f_equal.
    destruct (Hplain "ID" 0 (tidy_ID _ Ht)) as (r & Hr & _ & Hp & _).
    rewrite Hp. f_equal. congruence. }
  split.
  { assert (H1 : In 1 idxs) by (apply Hin; exists "default"; apply (tidy_default _ Ht)).
    rewrite Hrest in H1. destruct H1 as [H1|H1]; [discriminate|].
    destruct rest; [destruct H1 | discriminate]. }
  split.
  { rewrite map_map.
    apply NoDup_map_NoDup_ForallPairs;
      [|apply (idxs_NoDup s' arr a0 Hkeys Hpos)].
    intros i1 i2 H1 H2 Heq.
    apply Hin in H1 as (k1 & Hk1). apply Hin in H2 as (k2 & Hk2).
    destruct (Hplain k1 i1 Hk1) as (r1 & _ & _ & Hp1 & _).
    destruct (Hplain k2 i2 Hk2) as (r2 & _ & _ & Hp2 & _).
    rewrite Hp1, Hp2 in Heq. simpl in Heq. injection Heq as ->. congruence. }
  split.
  { intros row. rewrite in_map_iff. split.
    - intros (i & <- & Hi). apply Hin in Hi as (k & Hk).
      destruct (Hplain k i Hk) as (r & Hr & _ & Hp & _). exists k, i, r. auto.
    - intros (k & i & r & Hk & Hr & ->). exists i. split; [|apply Hin; eauto].
      destruct (Hplain k i Hk) as (r' & Hr' & _ & Hp & _). congruence. }
  intros k i Hk. destruct (Hplain k i Hk) as (r & Hr & Hlen & _). eauto.
Qed.

End FilledGrid.



(** ** [setRow] writes one row *)



(** ** The earlier revision of the rule range *)

Lemma Obj_set_same {V} k (v : V) (o : Obj.t V) :
  Obj.get k o = Some v -> Obj.set k v o = o.
Proof.
  intros Hk. unfold Obj.set, Obj.has. rewrite Hk.
  induction o as [|[k0 v0] o IH]; simpl in *; [discriminate|].
  destruct (String.eqb_spec k k0) as [->|Hne].
  - injection Hk as ->. reflexivity.
  - f_equal. apply IH, Hk.
Qed.




Lemma legacy_setRow_rowIndex category campaignId column s :
  Legacy.rowIndex (Legacy.setRow category campaignId column s) =
  if String.eqb campaignId "" then Legacy.rowIndex s
  else match Obj.get campaignId (Legacy.rowIndex s) with
       | Some _ => Legacy.rowIndex s
       | None => Obj.set campaignId (length (Legacy.rowIndex s)) (Legacy.rowIndex s)
       end.
Proof.
  unfold Legacy.setRow. destruct (String.eqb campaignId ""); [reflexivity|].
  cbn [Legacy.rowIndex].
  destruct (Obj.get campaignId (Legacy.rowIndex s)) as [i|] eqn:Hi; cbn [Js.nullish].
  - apply Obj_set_same, Hi.
  - unfold Obj.keys. rewrite length_map. reflexivity.
Qed.


(** States that runs of the earlier [setRow] lead to. *)
Lemma legacy_fold_inv {A} (P : Legacy.t -> Prop) (f : Legacy.t -> A -> Legacy.t)
    (l : list A) :
  (forall s x, P s -> P (f s x)) -> forall s, P s -> P (fold_left f l s).
Proof.
  intros Hf. induction l as [|x l IH]; intros s Hs; [exact Hs|].
  simpl. apply IH, Hf, Hs.
Qed.

Section LegacyInvariant.

Variable P : Legacy.t -> Prop.
Hypothesis Hinit : forall client,
  P (Legacy.mk [("ID", 0); ("default", 1)] [] [("none", [Some []])] client).
Hypothesis Hset : forall category campaignId column s,
  P s -> P (Legacy.setRow category campaignId column s).
Hypothesis Horder : forall rule s, P s -> P (Legacy.recordColumnOrder rule s).

Lemma legacy_setRule_inv ruleName ruleValues s :
  P s -> P (Legacy.setRule ruleName ruleValues s).
Proof. apply legacy_fold_inv. intros t row Ht. apply Hset, Ht. Qed.

Lemma legacy_setRuleCut_inv range header start col s :
  P s -> P (Legacy.setRuleCut range header start col s).
Proof. apply legacy_fold_inv. intros t row Ht. apply Hset, Ht. Qed.

Lemma legacy_new_inv range client s :
  Legacy.new range client ["ID"; "default"] = Js.Ok s -> P s.
Proof.
  unfold Legacy.new. destruct range as [|header body]; [discriminate|].
  intros [= <-]. apply legacy_setRuleCut_inv.
  assert (Hscan : forall cols (st : nat * Legacy.t),
             P (snd st) ->
             P (snd (fold_left
                       (fun st col =>
                          if Js.truthy (Js.nullish (header !! col) "")
                          then (col, Legacy.setRuleCut (header :: body) header
                                       (fst st) col (snd st))
                          else st) cols st))).
  { induction cols as [|col cols IH]; intros st Hst; [exact Hst|].
    cbn [fold_left]. apply IH.
    destruct (Js.truthy _); [|exact Hst].
    apply legacy_setRuleCut_inv, Hst. }
  apply Hscan. apply Hinit.
Qed.

Lemma legacy_fillRuleValues_inv rule rows s s' :
  P s -> Legacy.fillRuleValues rule rows s = Js.Ok s' -> P s'.
Proof.
  intros Hs. unfold Legacy.fillRuleValues.
  destruct (defaults rule) as [d|]; [|discriminate].
  destruct (Legacy.getRule _ _) as [rv|e]; cbn [Js.bind]; [|discriminate].
  intros [= <-]. unfold Legacy.fillRows. cbv zeta.
  apply legacy_fold_inv; [intros t record Ht; apply Hset, Hset, Ht|].
  do 4 apply Hset. apply Horder, Hs.
Qed.

Lemma legacy_reachable_inv s : Legacy.reachable s -> P s.
Proof.
  induction 1 as [range client s Hnew | | | rule rows s s' _ IH Hfill].
  - apply (legacy_new_inv range client), Hnew.
  - apply Hset. assumption.
  - apply legacy_setRule_inv. assumption.
  - apply (legacy_fillRuleValues_inv rule rows s); assumption.
Qed.

End LegacyInvariant.



Lemma legacyScenario_reachable : Legacy.reachable legacyScenario.
Proof. apply (Legacy.reach_new scenarioGrid scenarioClient). reflexivity. Qed.


Lemma legacy_setRow_keeps category campaignId column s k i :
  Obj.get k (Legacy.rowIndex s) = Some i ->
  Obj.get k (Legacy.rowIndex (Legacy.setRow category campaignId column s)) = Some i.
Proof.
  intros Hk. rewrite legacy_setRow_rowIndex.
  destruct (String.eqb campaignId ""); [exact Hk|].
  destruct (Obj.get campaignId (Legacy.rowIndex s)) eqn:Hi; [exact Hk|].
  rewrite Obj_get_set. destruct (String.eqb_spec k campaignId) as [->|_]; [congruence|].
  exact Hk.
Qed.

Lemma legacy_setRow_tracks category campaignId column s :
  campaignId <> "" ->
  Obj.get campaignId (Legacy.rowIndex (Legacy.setRow category campaignId column s))
  <> None.
Proof.
  intros Hid. rewrite legacy_setRow_rowIndex.
  destruct (String.eqb_spec campaignId "") as [?|_]; [contradiction|].
  destruct (Obj.get campaignId (Legacy.rowIndex s)) eqn:Hi; [congruence|].
  rewrite Obj_get_set, String.eqb_refl. discriminate.
Qed.

Lemma legacy_reachable_has_none s :
  Legacy.reachable s -> Obj.has "none" (Legacy.rules s) = true.
Proof.
  apply (legacy_reachable_inv (fun s => Obj.has "none" (Legacy.rules s) = true)).
  - reflexivity.
  - intros category campaignId column t Ht. unfold Legacy.setRow.
    destruct (String.eqb campaignId ""); [exact Ht|].
    cbn [Legacy.rules]. unfold Obj.has in *. rewrite Obj_get_set.
    destruct (String.eqb "none" category); [reflexivity | exact Ht].
  - intros rule t Ht. exact Ht.
Qed.

Lemma legacy_getRule_returns ruleName s :
  Obj.has "none" (Legacy.rules s) = true ->
  exists ruleValues, Legacy.getRule ruleName s = Js.Ok ruleValues.
Proof.
  intros Hnone. unfold Legacy.getRule, Obj.has in *.
  destruct (Obj.get ruleName (Legacy.rules s)) as [rule|]; [|eauto].
  destruct (length rule =? 0); [eauto|].
  destruct (Obj.get "none" (Legacy.rules s)); [eauto | discriminate].
Qed.

(** X14. The earlier [fillRuleValues] forgets nothing.  On a range reached
    from the constructor it throws exactly when the rule has no defaults;
    otherwise every entity that was tracked stays tracked at its position,
    whether or not [getRows] still returns it, and every record with a
    non-empty id is tracked afterwards. *)
Theorem legacy_fillRuleValues_keeps_all (rule : RuleDefinition)
    (rows : list RecordInfo) (s : Legacy.t) :
  Legacy.reachable s ->
  (defaults rule = None ->
   Legacy.fillRuleValues rule rows s = Js.Throw Js.MissingDefaultsError)
  /\ (defaults rule <> None ->
      exists s',
        Legacy.fillRuleValues rule rows s = Js.Ok s'
        /\ (forall k i, Obj.get k (Legacy.rowIndex s) = Some i ->
                        Obj.get k (Legacy.rowIndex s') = Some i)
        /\ (forall record, In record rows -> id record <> "" ->
                           Obj.get (id record) (Legacy.rowIndex s') <> None)).
Proof.
  intros Hreach. unfold Legacy.fillRuleValues. split.
  - intros ->. reflexivity.
  - intros Hd. destruct (defaults rule) as [d|]; [|contradiction].
    destruct (legacy_getRule_returns (name rule) (Legacy.recordColumnOrder rule s)
                (legacy_reachable_has_none s Hreach)) as (rv & ->).
    cbn [Js.bind]. eexists. split; [reflexivity|].
    unfold Legacy.fillRows. cbv zeta.
    match goal with
    | |- context [fold_left ?f rows ?s5] => set (step := f); set (t5 := s5)
    end.
    assert (Hkeep : forall l t k i,
               Obj.get k (Legacy.rowIndex t) = Some i ->
               Obj.get k (Legacy.rowIndex (fold_left step l t)) = Some i).
    { induction l as [|r l IH]; intros t k i Hk; [exact Hk|].
      cbn [fold_left]. apply IH. unfold step.
      apply legacy_setRow_keeps, legacy_setRow_keeps, Hk. }
    split.
    + intros k i Hk. apply Hkeep. unfold t5.
      do 4 apply legacy_setRow_keeps. exact Hk.
    + generalize t5. induction rows as [|r rows IH]; intros t record Hin Hid;
        [destruct Hin|].
      cbn [fold_left]. destruct Hin as [->|Hin]; [|apply IH; assumption].
      destruct (Obj.get (id record) (Legacy.rowIndex (step t record))) as [i|] eqn:Hi.
      * rewrite (Hkeep rows _ _ _ Hi). discriminate.
      * exfalso. revert Hi. unfold step. apply legacy_setRow_tracks, Hid.
Qed.

Lemma legacy_fillRuleValues_keeps_all_witness :
  (defaults scenarioRule = None ->
   Legacy.fillRuleValues scenarioRule scenarioRecords legacyScenario
   = Js.Throw Js.MissingDefaultsError)
  /\ (defaults scenarioRule <> None ->
      exists s',
        Legacy.fillRuleValues scenarioRule scenarioRecords legacyScenario = Js.Ok s'
        /\ (forall k i, Obj.get k (Legacy.rowIndex legacyScenario) = Some i ->
                        Obj.get k (Legacy.rowIndex s') = Some i)
        /\ (forall record, In record scenarioRecords -> id record <> "" ->
                           Obj.get (id record) (Legacy.rowIndex s') <> None)).
Proof.
  apply (legacy_fillRuleValues_keeps_all scenarioRule scenarioRecords legacyScenario).
  exact legacyScenario_reachable.
Defined.

(** ** [initializeRules] *)

Lemma tidy_client s c :
  Tidy s ->
  Tidy (RR.mk (RR.rowIndex s) (RR.columnOrders s) (RR.rules s) (RR.length s) c).
Proof. intros []. constructor; assumption. Qed.

Lemma settled_client s c :
  Settled s ->
  Settled (RR.mk (RR.rowIndex s) (RR.columnOrders s) (RR.rules s) (RR.length s) c).
Proof.
  intros [Ht Hid]. constructor; [apply tidy_client, Ht|].
  intros k i Hk. exact (Hid k i Hk).
Qed.

Lemma tidy_has_none s : Tidy s -> Obj.has "none" (RR.rules s) = true.
Proof.
  intros Ht. destruct (tidy_rules _ Ht) as (rest & Hkeys & _).
  apply Obj_has_keys. rewrite Hkeys. left. reflexivity.
Qed.

Lemma fill_returns rule rows s :
  Tidy s -> defaults rule <> None ->
  exists s1, RR.fillRuleValues rule rows s = Js.Ok s1.
Proof.
  intros Ht Hd. unfold RR.fillRuleValues.
  destruct (defaults rule) as [d|]; [|contradiction].
  destruct (getRule_returns (name rule) (RR.recordColumnOrder rule s)
              (tidy_has_none s Ht)) as (rv & ->).
  cbn [Js.bind]. eauto.
Qed.

Lemma fillCalls_of rule rows s s1 :
  RR.fillRuleValues rule rows s = Js.Ok s1 ->
  exists x0 r0 r1 f,
    RR.rules s1
    = RR.rules (runRows (fillCalls (name rule) x0 r0 r1 f rows)
                        (RR.recordColumnOrder rule s)).
Proof.
  intros Hfill. destruct (fillRuleValues_unfold _ _ _ _ Hfill) as (d & rv & ->).
  destruct (fillRows_calls rule d rv rows (RR.recordColumnOrder rule s))
    as (x0 & r0 & r1 & f & _ & _ & _ & ->).
  exists x0, r0, r1, f. reflexivity.
Qed.

(** A pass leaves the blocks of the other rules as they are. *)
Lemma fill_rules_other rule rows s s1 c :
  RR.fillRuleValues rule rows s = Js.Ok s1 ->
  c <> "none" -> c <> name rule ->
  Obj.get c (RR.rules s1) = Obj.get c (RR.rules s).
Proof.
  intros Hfill Hc Hc'.
  destruct (fillCalls_of rule rows s s1 Hfill) as (x0 & r0 & r1 & f & ->).
  rewrite (runRows_rules_other c); [reflexivity|].
  eapply List.Forall_impl; [|apply (fillCalls_categories (name rule) x0 r0 r1 f rows)].
  intros call [H|H]; congruence.
Qed.

Lemma runRows_keys_present calls : forall s,
  Forall (fun call => Obj.has (fst (fst call)) (RR.rules s) = true
                      /\ Js.arrayIndex (fst (fst call)) = None) calls ->
  Obj.keys (RR.rules (runRows calls s)) = Obj.keys (RR.rules s).
Proof.
  induction calls as [|call calls IH]; intros s Hall; [reflexivity|].
  apply Forall_cons in Hall as [[Hhas Hidx] Hall]. cbn [runRows fold_left].
  fold (runRows calls).
  assert (Hkeys : Obj.keys (RR.rules (RR.setRow (fst (fst call)) (snd (fst call))
                                        (snd call) s))
                  = Obj.keys (RR.rules s)).
  { destruct (String.eqb_spec (snd (fst call)) "") as [->|Hid];
      [rewrite setRow_empty_id; reflexivity|].
    rewrite setRow_rules_keys by assumption. rewrite Hhas. reflexivity. }
  rewrite IH; [exact Hkeys|].
  eapply List.Forall_impl; [|exact Hall]. intros c [Hc Hi]. split; [|exact Hi].
  apply Obj_has_keys. rewrite Hkeys. apply Obj_has_keys, Hc.
Qed.

(** A pass adds the block of its rule after the blocks there are. *)
Lemma fill_rules_keys rule rows s s1 :
  Tidy s -> ordinaryName (name rule) ->
  RR.fillRuleValues rule rows s = Js.Ok s1 ->
  Obj.keys (RR.rules s1)
  = if Obj.has (name rule) (RR.rules s) then Obj.keys (RR.rules s)
    else Obj.keys (RR.rules s) ++ [name rule].
Proof.
  intros Ht (Hnm & _ & Hidx) Hfill.
  destruct (fillCalls_of rule rows s s1 Hfill) as (x0 & r0 & r1 & f & ->).
  set (s0 := RR.recordColumnOrder rule s).
  unfold fillCalls.
  change ([("none", "ID", ["ID"; x0]); (name rule, "ID", r0);
           ("none", "default", ["default"; ""]); (name rule, "default", r1)]
          ++ flat_map (fun record => [(name rule, id record, f record);
                                      ("none", id record, [id record; displayName record])])
               rows)
    with ([("none", "ID", ["ID"; x0]); (name rule, "ID", r0)]
          ++ ([("none", "default", ["default"; ""]); (name rule, "default", r1)]
              ++ flat_map (fun record => [(name rule, id record, f record);
                                          ("none", id record,
                                           [id record; displayName record])])
                   rows)).
  rewrite runRows_app.
  set (s2 := runRows [("none", "ID", ["ID"; x0]); (name rule, "ID", r0)] s0).
  assert (Hkeys2 : Obj.keys (RR.rules s2)
                   = if Obj.has (name rule) (RR.rules s) then Obj.keys (RR.rules s)
                     else Obj.keys (RR.rules s) ++ [name rule]).
  { unfold s2. cbn [runRows fold_left fst snd].
    rewrite setRow_rules_keys by (try discriminate; exact Hidx).
    assert (Hk1 : Obj.keys (RR.rules (RR.setRow "none" "ID" ["ID"; x0] s0))
                  = Obj.keys (RR.rules s)).
    { rewrite setRow_rules_keys by (try discriminate; reflexivity).
      change (RR.rules s0) with (RR.rules s). rewrite (tidy_has_none s Ht).
      reflexivity. }
    rewrite Hk1.
    assert (Hh : Obj.has (name rule) (RR.rules (RR.setRow "none" "ID" ["ID"; x0] s0))
                 = Obj.has (name rule) (RR.rules s)).
    { unfold Obj.has. rewrite setRow_rules_get by discriminate.
      destruct (String.eqb_spec (name rule) "none"); [contradiction | reflexivity]. }
    rewrite Hh. reflexivity. }
  assert (Hnone2 : Obj.has "none" (RR.rules s2) = true).
  { apply Obj_has_keys. rewrite Hkeys2.
    pose proof (tidy_has_none s Ht) as H. apply Obj_has_keys in H.
    destruct (Obj.has (name rule) (RR.rules s)); [exact H|].
    apply in_or_app. left. exact H. }
  assert (Hnm2 : Obj.has (name rule) (RR.rules s2) = true).
  { apply Obj_has_keys. rewrite Hkeys2.
    destruct (Obj.has (name rule) (RR.rules s)) eqn:E; [apply Obj_has_keys, E|].
    apply in_or_app. right. left. reflexivity. }
  clearbody s2. rewrite runRows_keys_present; [exact Hkeys2|].
  apply Forall_app. split.
  - repeat (apply List.Forall_cons); try apply List.Forall_nil; cbn [fst snd]; auto.
  - clear Hfill. induction rows as [|r rs IH]; cbn [flat_map app]; [constructor|].
    constructor; [cbn [fst snd]; auto|]. constructor; [cbn [fst snd]; auto | exact IH].
Qed.


Lemma labelsBefore_S ruleClasses k rc :
  ruleClasses !! k = Some rc ->
  labelsBefore ruleClasses (S k)
  = labelsBefore ruleClasses k ++ ruleLabels (definition rc).
Proof.
  intros Hk. unfold labelsBefore.
  rewrite (take_S_r _ _ _ Hk), map_app, concat_app. simpl.
  rewrite app_nil_r. reflexivity.
Qed.



Lemma emitted_all (blocks : Obj.t (Arr.t Row)) :
  Forall (fun b => exists r, Arr.get 0 (snd b) = Some r /\ r <> []) blocks ->
  emitted blocks = blocks.
Proof.
  induction blocks as [|b blocks IH]; intros Hall; [reflexivity|].
  apply Forall_cons in Hall as [(r & Hr & Hne) Hall].
  unfold emitted. cbn [List.filter].
  rewrite (columnCount_head (snd b) r Hr Hne).
  destruct (Nat.eqb_spec (length r) 0) as [E|_];
    [destruct r; [contradiction | discriminate]|].
  cbn [negb]. f_equal. apply IH, Hall.
Qed.

Section InitializeLoop.

Variable rows : list RecordInfo.
Variable ruleClasses : list RuleClass.
Variable m : nat.
Hypothesis Hgood :
  Forall (fun rc => goodRule (definition rc) /\ defaults (definition rc) <> None)
         ruleClasses.
Hypothesis Hnames :
  List.NoDup (List.map (fun rc => name (definition rc)) ruleClasses).
Hypothesis HnoID : ~ In "ID" (List.map id rows).

Let namesUpTo (k : nat) : list string :=
  List.map (fun rc => name (definition rc)) (take k ruleClasses).

(** What holds after the first [k] rule classes. *)
Record LoopInv (k : nat) (st : InitState) : Prop := {
  li_tidy : Tidy (rules st);
  li_settled : k <> 0 -> Settled (rules st);
  li_keys : Obj.keys (RR.rules (rules st)) = "none" :: namesUpTo (Nat.max m k);
  li_blocks : forall j rc, j < k -> ruleClasses !! j = Some rc ->
      exists arr, Obj.get (name (definition rc)) (RR.rules (rules st)) = Some arr
                  /\ Arr.get 0 arr = Some (ruleLabels (definition rc));
  li_offsets : forall j rc, j < k -> ruleClasses !! j = Some rc ->
      Obj.get (name (definition rc)) (offsets st)
      = Some (3 + Z.of_nat (length (labelsBefore ruleClasses j)))%Z;
  li_current :
      currentOffset st = (4 + Z.of_nat (length (labelsBefore ruleClasses k)))%Z
}.

Lemma class_good k rc :
  ruleClasses !! k = Some rc ->
  goodRule (definition rc) /\ defaults (definition rc) <> None.
Proof.
  intros Hk. rewrite List.Forall_forall in Hgood. apply Hgood.
  apply list_elem_of_In. eapply list_elem_of_lookup_2. exact Hk.
Qed.

Lemma class_names_distinct j k rc rc' :
  ruleClasses !! j = Some rc -> ruleClasses !! k = Some rc' ->
  name (definition rc) = name (definition rc') -> j = k.
Proof.
  intros Hj Hk Heq.
  apply (NoDup_lookup ((fun rc => name (definition rc)) <$> ruleClasses) j k
           (name (definition rc))).
  - apply NoDup_ListNoDup. exact Hnames.
  - rewrite list_lookup_fmap, Hj. reflexivity.
  - rewrite list_lookup_fmap, Hk, Heq. reflexivity.
Qed.

Lemma namesUpTo_In k nm :
  In nm (namesUpTo k)
  <-> exists j rc, j < k /\ ruleClasses !! j = Some rc /\ name (definition rc) = nm.
Proof.
  unfold namesUpTo. rewrite in_map_iff. split.
  - intros (rc & <- & Hin). apply list_elem_of_In, list_elem_of_lookup_1 in Hin as (j & Hj).
    apply lookup_take_Some in Hj as [Hj Hlt]. exists j, rc. auto.
  - intros (j & rc & Hlt & Hj & <-). exists rc. split; [reflexivity|].
    apply list_elem_of_In. apply (list_elem_of_lookup_2 _ j).
    apply lookup_take_Some. auto.
Qed.

Lemma namesUpTo_S k rc :
  ruleClasses !! k = Some rc ->
  namesUpTo (S k) = namesUpTo k ++ [name (definition rc)].
Proof.
  intros Hk. unfold namesUpTo. rewrite (take_S_r _ _ _ Hk), List.map_app.
  reflexivity.
Qed.

Lemma loop_step k st rc :
  LoopInv k st -> ruleClasses !! k = Some rc ->
  exists st', initializeRulesStep rows st rc = Js.Ok st' /\ LoopInv (S k) st'.
Proof.
  intros Hinv Hk.
  destruct (class_good k rc Hk) as [Hrule Hdefaults].
  pose proof Hrule as ((Hnm & Hnm' & Hidx) & Hparams).
  set (rule := definition rc) in *.
  destruct (fill_returns rule rows (rules st) (li_tidy _ _ Hinv) Hdefaults)
    as (s1 & Hfill).
  pose proof (fillRuleValues_settled rule rows _ s1 Hrule (li_tidy _ _ Hinv) Hfill)
    as Hsettled.
  destruct (filled_grid rule rows (rules st) s1 (li_tidy _ _ Hinv) Hrule HnoID Hfill)
    as (arr & grid & body & Harr & Hget & Hgrid & Hbody & _ & _ & Hrows).
  destruct body as [|row1 body]; [contradiction|]. clear Hbody.
  unfold initializeRulesStep. fold rule. rewrite Hfill. cbn [Js.bind].
  rewrite Hget. cbn [Js.bind]. rewrite Hgrid.
  cbn [List.map]. unfold addRule. cbn [length Nat.ltb Nat.leb Js.bind].
  eexists. split; [reflexivity|].
  set (s2 := RR.mk _ _ _ _ _).
  constructor; cbn [rules offsets currentOffset].
  - apply tidy_client, settled_tidy, Hsettled.
  - intros _. apply settled_client, Hsettled.
  - unfold s2. cbn [RR.rules].
    rewrite (fill_rules_keys rule rows (rules st) s1 (li_tidy _ _ Hinv)
               (conj Hnm (conj Hnm' Hidx)) Hfill).
    rewrite (li_keys _ _ Hinv).
    destruct (Nat.le_gt_cases m k) as [Hle|Hgt].
    + rewrite (Nat.max_r m k Hle), (Nat.max_r m (S k)) by lia.
      rewrite (namesUpTo_S k rc Hk).
      destruct (Obj.has (name rule) (RR.rules (rules st))) eqn:Hhas; [|reflexivity].
      exfalso. apply Obj_has_keys in Hhas. rewrite (li_keys _ _ Hinv) in Hhas.
      rewrite (Nat.max_r m k Hle) in Hhas.
      destruct Hhas as [Heq|Hin]; [apply Hnm; symmetry; exact Heq|].
      apply namesUpTo_In in Hin as (j & rc' & Hlt & Hj & Heq).
      pose proof (class_names_distinct j k rc' rc Hj Hk Heq). lia.
    + rewrite (Nat.max_l m k), (Nat.max_l m (S k)) by lia.
      assert (Hhas : Obj.has (name rule) (RR.rules (rules st)) = true).
      { apply Obj_has_keys. rewrite (li_keys _ _ Hinv), (Nat.max_l m k) by lia.
        right. apply namesUpTo_In. exists k, rc. auto. }
      rewrite Hhas. reflexivity.
  - intros j rc' Hj Hrc'. unfold s2. cbn [RR.rules].
    destruct (Nat.eq_dec j k) as [->|Hne].
    + assert (rc' = rc) by congruence. subst rc'.
      destruct (fill_block_rows rule rows (rules st) s1
                  (tidy_positions _ (li_tidy _ _ Hinv)) Hnm HnoID Hfill
                  "ID" 0 (tidy_ID _ (settled_tidy _ Hsettled)))
        as (arr' & r & Harr' & Hr & _ & Hlab).
      exists arr'. split; [exact Harr'|]. rewrite Hr, (Hlab eq_refl). reflexivity.
    + destruct (li_blocks _ _ Hinv j rc' ltac:(lia) Hrc') as (arr' & Harr' & Hr).
      exists arr'. split; [|exact Hr].
      rewrite (fill_rules_other rule rows (rules st) s1 _ Hfill); [exact Harr'| |].
      * apply (class_good j rc' Hrc').
      * intros Heq. apply Hne. exact (class_names_distinct j k rc' rc Hrc' Hk Heq).
  - intros j rc' Hj Hrc'. rewrite Obj_get_set.
    destruct (String.eqb_spec (name (definition rc')) (name rule)) as [Heq|Hne].
    + pose proof (class_names_distinct j k rc' rc Hrc' Hk Heq). subst j.
      rewrite (li_current _ _ Hinv). f_equal. lia.
    + apply (li_offsets _ _ Hinv). 
      * destruct (Nat.eq_dec j k) as [->|]; [|lia].
        exfalso. apply Hne. assert (rc' = rc) by congruence. subst rc'.
        reflexivity.
      * exact Hrc'.
  - rewrite (li_current _ _ Hinv), (labelsBefore_S ruleClasses k rc Hk).
    rewrite length_app, !length_map. fold rule. lia.
Qed.

Lemma loop_runs todo : forall k st,
  k <= length ruleClasses -> drop k ruleClasses = todo -> LoopInv k st ->
  exists st',
    RR.reduce (initializeRulesStep rows) todo st = Js.Ok st'
    /\ LoopInv (length ruleClasses) st'.
Proof.
  induction todo as [|rc todo IH]; intros k st Hle Hdrop Hinv.
  - assert (k = length ruleClasses).
    { apply (f_equal (@length RuleClass)) in Hdrop.
      rewrite length_drop in Hdrop. simpl in Hdrop. lia. }
    subst k. exists st. split; [reflexivity | exact Hinv].
  - assert (Hk : ruleClasses !! k = Some rc).
    { rewrite <- (Nat.add_0_r k), <- lookup_drop, Hdrop. reflexivity. }
    assert (Hdrop' : drop (S k) ruleClasses = todo).
    { rewrite (drop_S _ _ _ Hk) in Hdrop. congruence. }
    destruct (loop_step k st rc Hinv Hk) as (st1 & Hstep & Hinv1).
    destruct (IH (S k) st1) as (st' & Hred & Hinv').
    + apply lookup_lt_Some in Hk. lia.
    + exact Hdrop'.
    + exact Hinv1.
    + exists st'. split; [|exact Hinv']. cbn [RR.reduce]. rewrite Hstep. exact Hred.
Qed.


(** Every block of a range that the loop leaves is written. *)
Lemma loop_emitted st :
  ruleClasses <> [] ->
  LoopInv (length ruleClasses) st ->
  Obj.keys (emitted (RR.rules (rules st)))
  = "none" :: List.map (fun rc => name (definition rc)) ruleClasses.
Proof.
  intros Hne Hinv.
  set (s := rules st) in *.
  assert (Hn : length ruleClasses <> 0)
    by (intros Hl; apply Hne, List.length_zero_iff_nil, Hl).
  pose proof (li_settled _ _ Hinv Hn) as Hsettled. fold s in Hsettled.
  pose proof (settled_tidy _ Hsettled) as Ht.
  assert (Hkeys : Obj.keys (RR.rules s)
                  = "none" :: List.map (fun rc => name (definition rc)) ruleClasses).
  { unfold s. rewrite (li_keys _ _ Hinv). unfold namesUpTo.
    rewrite take_ge by lia. reflexivity. }
  rewrite <- Hkeys. f_equal. apply emitted_all.
  rewrite List.Forall_forall. intros [nm arr] Hb. cbn [snd].
  assert (Hnd : List.NoDup (Obj.keys (RR.rules s))).
  { destruct (tidy_rules _ Ht) as (rest & Hk & Hord & Hndrest). rewrite Hk.
    constructor; [|exact Hndrest].
    intros Hin. rewrite List.Forall_forall in Hord.
    destruct (Hord _ Hin) as (H & _). congruence. }
  pose proof (proj1 (Obj_In_get _ nm arr Hnd) Hb) as Hget.
  assert (Hin : In nm (Obj.keys (RR.rules s))) by (apply (in_map fst _ _ Hb)).
  rewrite Hkeys in Hin. destruct Hin as [<-|Hin].
  - destruct (settled_identity _ Hsettled "ID" 0 (tidy_ID _ Ht))
      as (i0 & a0 & r0 & Hi0 & Ha0 & Hr0 & x & ->).
    assert (i0 = 0) by (rewrite (tidy_ID _ Ht) in Hi0; congruence). subst i0.
    assert (a0 = arr) by congruence. subst a0.
    exists ["ID"; x]. split; [exact Hr0 | discriminate].
  - apply in_map_iff in Hin as (rc & <- & Hrc).
    apply list_elem_of_In, list_elem_of_lookup_1 in Hrc as (j & Hj).
    destruct (li_blocks _ _ Hinv j rc (lookup_lt_Some _ _ _ Hj) Hj) as (arr' & Harr' & Hr).
    fold s in Harr'. assert (arr' = arr) by congruence. subst arr'.
    exists (ruleLabels (definition rc)). split; [exact Hr|].
    destruct (class_good j rc Hj) as [[_ Hparams] _]. unfold ruleLabels.
    destruct (params (definition rc)); [contradiction | discriminate].
Qed.

End InitializeLoop.



(** ** [matrixToCsv] *)

Lemma string_app_cons (x : ascii) (a b : string) :
  String.append (String x a) b = String x (String.append a b).
Proof. reflexivity. Qed.

Lemma string_app_nil_l (b : string) : String.append EmptyString b = b.
Proof. reflexivity. Qed.

Lemma string_app_assoc (a b c : string) :
  String.append (String.append a b) c = String.append a (String.append b c).
Proof.
  induction a as [|x a IH]; [reflexivity|].
  rewrite !string_app_cons. f_equal. exact IH.
Qed.

Lemma string_app_nil_r (a : string) : String.append a EmptyString = a.
Proof.
  induction a as [|x a IH]; [reflexivity|].
  rewrite string_app_cons. f_equal. exact IH.
Qed.

Lemma unquote_quoted (col rest : string) :
  afterCell rest ->
  unquote (String.append
             (replaceAll col dquote
                (String dquote (String dquote (String dquote EmptyString))))
             (String dquote rest))
  = Some (col, rest).
Proof.
  intros Hrest. induction col as [|a col IH].
  - cbn [replaceAll]. rewrite string_app_nil_l. cbn [unquote].
    rewrite Ascii.eqb_refl.
    destruct rest as [|c1 [|c2 rest']]; try reflexivity.
    simpl in Hrest. apply Ascii.eqb_neq in Hrest. rewrite Hrest. reflexivity.
  - cbn [replaceAll]. destruct (Ascii.eqb_spec a dquote) as [->|Hne].
    + rewrite string_app_assoc, !string_app_cons, string_app_nil_l.
      cbn [unquote]. rewrite !Ascii.eqb_refl. cbn [andb].
      rewrite IH. reflexivity.
    + rewrite string_app_assoc, string_app_cons, string_app_nil_l.
      cbn [unquote]. apply Ascii.eqb_neq in Hne. rewrite Hne.
      rewrite IH. reflexivity.
Qed.

(** A written cell followed by [rest]. *)
Lemma quoted_app (col rest : string) :
  String.append (quoted col) rest
  = String dquote
      (String.append
         (replaceAll col dquote
            (String dquote (String dquote (String dquote EmptyString))))
         (String dquote rest)).
Proof.
  unfold quoted. rewrite string_app_cons, string_app_assoc, string_app_cons.
  reflexivity.
Qed.

Lemma quoted_inj (c1 c2 t1 t2 : string) :
  afterCell t1 -> afterCell t2 ->
  String.append (quoted c1) t1 = String.append (quoted c2) t2 ->
  c1 = c2 /\ t1 = t2.
Proof.
  intros H1 H2. rewrite !quoted_app. intros [= Heq].
  apply (f_equal unquote) in Heq.
  rewrite !unquote_quoted in Heq by assumption.
  injection Heq as -> ->. auto.
Qed.

Lemma cells_app (c : string) (r : list string) (t : string) :
  String.append (String.concat (String comma EmptyString) (List.map quoted (c :: r))) t
  = String.append (quoted c)
      (match r with
       | [] => t
       | _ :: _ =>
           String comma
             (String.append
                (String.concat (String comma EmptyString) (List.map quoted r)) t)
       end).
Proof.
  destruct r as [|c' r]; [reflexivity|].
  cbn [List.map String.concat]. rewrite string_app_assoc. reflexivity.
Qed.

(** What may follow a row: nothing, or a line feed. *)
Lemma cells_inj (r1 : list string) : forall r2 t1 t2,
  r1 <> [] -> r2 <> [] ->
  (t1 = EmptyString \/ exists t, t1 = String linefeed t) ->
  (t2 = EmptyString \/ exists t, t2 = String linefeed t) ->
  String.append (String.concat (String comma EmptyString) (List.map quoted r1)) t1
  = String.append (String.concat (String comma EmptyString) (List.map quoted r2)) t2 ->
  r1 = r2 /\ t1 = t2.
Proof.
  assert (Hafter : forall t, t = EmptyString \/ (exists t', t = String linefeed t') ->
                             afterCell t).
  { intros t [->|(t' & ->)]; simpl; [exact I | discriminate]. }
  assert (Hcomma : forall t x, t = EmptyString \/ (exists t', t = String linefeed t') ->
                               t <> String comma x).
  { intros t x [->|(t' & ->)]; discriminate. }
  induction r1 as [|c1 r1 IH]; intros r2 t1 t2 Hr1 Hr2 Ht1 Ht2 Heq; [contradiction|].
  destruct r2 as [|c2 r2]; [contradiction|].
  rewrite !cells_app in Heq.
  apply quoted_inj in Heq as [-> Htail].
  - destruct r1 as [|c1' r1]; destruct r2 as [|c2' r2].
    + auto.
    + exfalso. exact (Hcomma _ _ Ht1 Htail).
    + exfalso. symmetry in Htail. exact (Hcomma _ _ Ht2 Htail).
    + injection Htail as Htail.
      destruct (IH (c2' :: r2) t1 t2 ltac:(discriminate) ltac:(discriminate)
                  Ht1 Ht2 Htail) as [-> ->].
      auto.
  - destruct r1; [apply Hafter, Ht1 | simpl; discriminate].
  - destruct r2; [apply Hafter, Ht2 | simpl; discriminate].
Qed.

Lemma rows_app (r : list string) (m : list (list string)) :
  matrixToCsv (r :: m)
  = String.append (String.concat (String comma EmptyString) (List.map quoted r))
      (match m with
       | [] => EmptyString
       | _ :: _ => String linefeed (matrixToCsv m)
       end).
Proof.
  unfold matrixToCsv. destruct m as [|r' m]; cbn [List.map String.concat].
  - rewrite string_app_nil_r. reflexivity.
  - reflexivity.
Qed.

Lemma row_starts (r : list string) (t : string) :
  r <> [] ->
  exists x,
    String.append (String.concat (String comma EmptyString) (List.map quoted r)) t
    = String dquote x.
Proof.
  destruct r as [|c r]; [contradiction|]. intros _.
  rewrite cells_app, quoted_app. eauto.
Qed.

(** X16. [matrixToCsv] loses nothing: two matrices whose rows all have at
    least one cell and that are written as the same text are the same
    matrix. *)
Theorem matrixToCsv_injective (m1 m2 : list (list string)) :
  Forall (fun row => row <> []) m1 -> Forall (fun row => row <> []) m2 ->
  matrixToCsv m1 = matrixToCsv m2 -> m1 = m2.
Proof.
  revert m2. induction m1 as [|r1 m1 IH]; intros m2 H1 H2 Heq.
  - destruct m2 as [|r2 m2]; [reflexivity|].
    apply Forall_cons in H2 as [Hr2 _]. rewrite rows_app in Heq.
    match type of Heq with
    | _ = String.append _ ?t => destruct (row_starts r2 t Hr2) as (x & Hx)
    end.
    rewrite Hx in Heq. discriminate.
  - apply Forall_cons in H1 as [Hr1 H1].
    destruct m2 as [|r2 m2].
    + rewrite rows_app in Heq.
      match type of Heq with
      | String.append _ ?t = _ => destruct (row_starts r1 t Hr1) as (x & Hx)
      end.
      rewrite Hx in Heq. discriminate.
    + apply Forall_cons in H2 as [Hr2 H2]. rewrite !rows_app in Heq.
      apply cells_inj in Heq as [-> Htail]; try assumption.
      * f_equal. destruct m1 as [|r1' m1]; destruct m2 as [|r2' m2];
          try reflexivity; try discriminate.
        injection Htail as Htail. apply IH; assumption.
      * destruct m1; [left; reflexivity | right; eauto].
      * destruct m2; [left; reflexivity | right; eauto].
Qed.

Lemma matrixToCsv_injective_witness :
  [["a"; "b"]; ["c"]] = [["a"; "b"]; ["c"]].
Proof.
  apply (matrixToCsv_injective [["a"; "b"]; ["c"]] [["a"; "b"]; ["c"]]).
  - repeat constructor; discriminate.
  - repeat constructor; discriminate.
  - reflexivity.
Defined.

(** ** Saving settings back *)

Lemma Obj_fromEntries_id {V} (l : list (string * V)) :
  List.NoDup (List.map fst l) ->
  Forall (fun p => Js.arrayIndex (fst p) = None) l ->
  Obj.fromEntries l = l.
Proof.
  intros Hnd Hidx. unfold Obj.fromEntries.
  assert (Hgen : forall (o : Obj.t V),
             (forall p, In p l -> Obj.get (fst p) o = None) ->
             fold_left (fun o p => Obj.set (fst p) (snd p) o) l o = o ++ l).
  { induction l as [|[k v] l IH]; intros o Hfresh; [rewrite app_nil_r; reflexivity|].
    cbn [List.map] in Hnd. inversion Hnd as [|? ? Hk Hnd']; subst.
    apply Forall_cons in Hidx as [Hkidx Hidx].
    cbn [fold_left fst snd].
    assert (Hset : Obj.set k v o = o ++ [(k, v)]).
    { pose proof (Hfresh (k, v) (or_introl eq_refl)) as Hf. cbn [fst] in Hf.
      unfold Obj.set, Obj.has. rewrite Hf.
      simpl in Hkidx. rewrite Hkidx. reflexivity. }
    rewrite Hset, (IH Hnd' Hidx).
    - rewrite <- app_assoc. reflexivity.
    - intros p Hp. rewrite Obj_get_app.
      rewrite (Hfresh p (or_intror Hp)). simpl.
      destruct (String.eqb_spec (fst p) k) as [E|_]; [|reflexivity].
      exfalso. apply Hk. rewrite <- E. apply in_map, Hp. }
  rewrite Hgen; [reflexivity|]. intros p _. reflexivity.
Qed.

Lemma JsMap_ofList_id {V} (l : list (Js.cell * V)) :
  List.NoDup (List.map fst l) -> JsMap.ofList l = l.
Proof.
  intros Hnd. unfold JsMap.ofList.
  assert (Hgen : forall (m : JsMap.t V),
             (forall p, In p l -> JsMap.get (fst p) m = None) ->
             fold_left (fun m p => JsMap.set (fst p) (snd p) m) l m = m ++ l).
  { induction l as [|[k v] l IH]; intros m Hfresh; [rewrite app_nil_r; reflexivity|].
    cbn [List.map] in Hnd. inversion Hnd as [|? ? Hk Hnd']; subst.
    cbn [fold_left fst snd].
    assert (Hset : JsMap.set k v m = m ++ [(k, v)]).
    { pose proof (Hfresh (k, v) (or_introl eq_refl)) as Hf. cbn [fst] in Hf.
      unfold JsMap.set. rewrite Hf. reflexivity. }
    rewrite Hset, (IH Hnd').
    - rewrite <- app_assoc. reflexivity.
    - intros p Hp. rewrite JsMap_get_app.
      rewrite (Hfresh p (or_intror Hp)). simpl.
      destruct (Js.cellEqb (fst p) k) eqn:E; [|reflexivity].
      apply cellEqb_eq in E.
      exfalso. apply Hk. rewrite <- E. apply in_map, Hp. }
  rewrite Hgen; [reflexivity|]. intros p _. reflexivity.
Qed.

Lemma Obj_get_filter {V} (p : string * V -> bool) k v (o : Obj.t V) :
  Obj.get k o = Some v -> p (k, v) = true -> Obj.get k (List.filter p o) = Some v.
Proof.
  induction o as [|[k0 v0] o IH]; simpl; [discriminate|].
  destruct (String.eqb_spec k k0) as [->|Hne].
  - intros [= ->] Hp. rewrite Hp. simpl. rewrite String.eqb_refl. reflexivity.
  - intros Hk Hp. destruct (p (k0, v0)); [|apply IH; assumption].
    simpl. destruct (String.eqb_spec k k0); [contradiction|]. apply IH; assumption.
Qed.

Lemma Arr_set_same {A} (i : nat) (v : A) (a : Arr.t A) :
  Arr.get i a = Some v -> Arr.set i v a = a.
Proof.
  unfold Arr.get, Arr.set. intros H.
  destruct (a !! i) as [x|] eqn:E; [|discriminate]. subst x.
  rewrite (proj2 (Nat.ltb_lt _ _) (lookup_lt_Some _ _ _ E)).
  apply list_insert_id, E.
Qed.

(** Writing a row that is there changes nothing. *)
Lemma setRow_same category id column s i arr :
  Obj.get id (RR.rowIndex s) = Some i ->
  Obj.get category (RR.rules s) = Some arr ->
  Arr.get i arr = Some column ->
  RR.setRow category id column s = s.
Proof.
  intros Hi Harr Hrow. unfold RR.setRow.
  destruct (String.eqb id ""); [reflexivity|].
  rewrite Hi, Harr. cbn [Js.nullish].
  rewrite (Arr_set_same i column arr Hrow), (Obj_set_same _ _ _ Harr).
  destruct s; reflexivity.
Qed.

Lemma table_map (header : Row) (body : list Row) (mapper : Obj.t ParamDefinition)
    (sm : SettingMap.t) :
  transformToParamValues (header :: body) mapper = Js.Ok sm ->
  SettingMap.map sm = JsMap.ofList (List.map (forEachRow header mapper) body).
Proof.
  intros Hsm. destruct body as [|row0 body']; [discriminate|].
  set (body := row0 :: body') in *.
  change (Js.Ok (SettingMap.mk
                   (JsMap.ofList (List.map (forEachRow header mapper) body))
                   (Obj.keys (snd (forEachRow header mapper row0))))
          = Js.Ok sm) in Hsm.
  injection Hsm as <-. reflexivity.
Qed.

(** The record of a full row, listed by [Object.values], is the row. *)
Lemma forEachRow_values (rule : RuleDefinition) (k : string) (r : Row) :
  List.NoDup (Obj.keys (params rule)) ->
  Forall (fun p => Js.arrayIndex (fst p) = None) (params rule) ->
  List.NoDup (ruleLabels rule) -> ~ In "ID" (ruleLabels rule) ->
  length r = length (params rule) ->
  Obj.values (snd (forEachRow ("ID" :: ruleLabels rule) (params rule) (k :: r)))
  = List.map Some r.
Proof.
  intros Hkeys Hidx Hlabels HlabID Hlen.
  unfold forEachRow. cbn [snd].
  rewrite Obj_fromEntries_id.
  - unfold Obj.values. rewrite map_map. cbn [snd].
    apply list_eq. intros j.
    change (List.map ?f ?l) with (f <$> l). rewrite !list_lookup_fmap.
    destruct (params rule !! j) as [[p d]|] eqn:Hj; cbn [fmap option_fmap option_map snd].
    + assert (Hlab : ruleLabels rule !! j = Some (label d)).
      { unfold ruleLabels.
        change (List.map (fun p => label (snd p)) (params rule))
          with ((fun p => label (snd p)) <$> params rule).
        rewrite list_lookup_fmap, Hj. reflexivity. }
      cbn [indexOf].
      destruct (String.eqb_spec "ID" (label d)) as [Heq|_].
      * exfalso. apply HlabID. rewrite Heq.
        apply list_elem_of_In. eapply list_elem_of_lookup_2. exact Hlab.
      * rewrite (indexOf_NoDup _ j (label d) Hlabels Hlab).
        change ((k :: r) !! S j) with (r !! j).
        assert (Hjlt : j < length r).
        { rewrite Hlen. apply lookup_lt_is_Some. eauto. }
        destruct (lookup_lt_is_Some_2 r j Hjlt) as (x & ->). reflexivity.
    + apply lookup_ge_None in Hj.
      assert (Hr : r !! j = None) by (apply lookup_ge_None; lia).
      rewrite Hr. reflexivity.
  - rewrite map_map. exact Hkeys.
  - rewrite List.Forall_forall in *. intros q Hq.
    apply in_map_iff in Hq as (p & <- & Hp). exact (Hidx p Hp).
Qed.

(** The range read back from the sheet that a settled range writes has,
    for every tracked entity, the row it had in every block that is
    written. *)
Lemma settled_reread s' grid0 s1 t nm arr k i r :
  Settled s' ->
  RR.getValues None s' = Js.Ok (grid0, s1) ->
  RR.new grid0 (RR.client s') RR.defaultHeaders = Js.Ok t ->
  Obj.get nm (RR.rules s') = Some arr -> RR.columnCount arr <> 0 ->
  Obj.get k (RR.rowIndex s') = Some i -> Arr.get i arr = Some r ->
  exists pos arrT,
    Obj.get k (RR.rowIndex t) = Some pos
    /\ Obj.get nm (RR.rules t) = Some arrT
    /\ Arr.get pos arrT = Some r.
Proof.
  intros Hsettled Hget Hnew Harr Hcount Hk Hr.
  pose proof (settled_stable s' Hsettled) as Hstable.
  destruct (stable_getValues s' Hstable) as (s'' & Hrender).
  rewrite Hrender in Hget. injection Hget as <- _.
  pose proof (stable_wellFormed s' Hstable) as Hwf.
  rewrite (new_renderGrid (RR.client s') (layoutOf s') (rowsBlocksOf s') Hwf) in Hnew.
  injection Hnew as <-.
  assert (Hin : In (k, i) (RR.sortedEntries (RR.rowIndex s'))).
  { apply (Permutation_in _ (Permutation_sym (sort_perm _ _))).
    apply Obj_get_Some_In, Hk. }
  pose proof Hin as Hin'.
  apply list_elem_of_In, list_elem_of_lookup_1 in Hin' as (m & Hm).
  set (bs := List.map (fun b => (fst b, blockCells (snd b) i)) (emitted (RR.rules s'))).
  assert (Hbs : rowsBlocksOf s' !! m = Some bs).
  { unfold rowsBlocksOf.
    change (List.map ?f ?l) with (f <$> l) at 1.
    rewrite list_lookup_fmap, Hm. reflexivity. }
  assert (Hid : idOfBlocks bs = k) by exact (stable_row_id s' Hstable (k, i) Hin).
  assert (Hpiece : Obj.get nm bs = Some r).
  { unfold bs. rewrite (Obj_get_map_values (fun a => blockCells a i)).
    unfold emitted. rewrite (Obj_get_filter _ nm arr _ Harr).
    - unfold blockCells. rewrite Hr. reflexivity.
    - cbn [snd]. destruct (Nat.eqb_spec (RR.columnCount arr) 0);
        [contradiction | reflexivity]. }
  destruct (parsed_block (RR.client s') (layoutOf s') (rowsBlocksOf s') Hwf
              m bs nm r Hbs Hpiece) as (arrT & HarrT & Hrow).
  exists (parsedPosition m), arrT. split; [|split; assumption].
  rewrite <- Hid.
  apply (pu_known _ _ _ _ _ (parsed_all (RR.client s') (layoutOf s')
                               (rowsBlocksOf s') Hwf)).
  - apply lookup_lt_is_Some. eauto.
  - apply (ids_lookup (rowsBlocksOf s')), Hbs.
Qed.

(** X17. Saving unchanged settings back changes nothing.  After
    [fillRuleValues] on a tidy range (the rule has a usable name, distinct
    parameter keys none of which is an array index, distinct labels other
    than 'ID'; no record has the id 'ID'), let the sheet be written by
    [getValues()], the table of the rule be built from [getRule] by
    [transformToParamValues], and a range be built again from the sheet,
    as [saveSettingsBackToSheets] does.  Then every entry of [entries()]
    is the id of an entity with the cells of its row, and the [setRow]
    that [saveSettingsBackToSheets] makes with it leaves the range as it
    is. *)
Theorem saved_settings_change_nothing (rule : RuleDefinition)
    (rows : list RecordInfo) (s s' s1 t : RR.t) (sheet : list Row) :
  Tidy s -> goodRule rule -> ~ In "ID" (List.map id rows) ->
  List.NoDup (Obj.keys (params rule)) ->
  Forall (fun p => Js.arrayIndex (fst p) = None) (params rule) ->
  List.NoDup (ruleLabels rule) -> ~ In "ID" (ruleLabels rule) ->
  RR.fillRuleValues rule rows s = Js.Ok s' ->
  RR.getValues None s' = Js.Ok (sheet, s1) ->
  RR.new sheet (RR.client s') RR.defaultHeaders = Js.Ok t ->
  exists grid sm,
    RR.getRule (name rule) s' = Js.Ok (List.map (List.map Some) grid)
    /\ transformToParamValues grid (params rule) = Js.Ok sm
    /\ forall id column, In (id, column) (SettingMap.entries sm) ->
         exists k r, id = Some k /\ column = List.map Some r
                     /\ RR.setRow (name rule) k r t = t.
Proof.
  intros Htidy Hrule HnoID Hpkeys Hpidx Hlabels HlabID Hfill Hsheet Hnew.
  destruct (filled_grid rule rows s s' Htidy Hrule HnoID Hfill)
    as (arr & grid & body & Harr & Hget & Hgrid & Hbody & Hnd & Hin & Hrows).
  pose proof (filled_settled rule rows s s' Htidy Hrule Hfill) as Hsettled.
  destruct (filled_blocks rule rows s s' Htidy Hrule HnoID Hfill)
    as (a0 & arr_ & _ & Harr_ & Hheader & _).
  assert (arr_ = arr) by congruence. subst arr_.
  assert (Hcount : RR.columnCount arr <> 0).
  { destruct Hrule as [_ Hparams].
    rewrite (columnCount_head arr (ruleLabels rule) Hheader).
    - rewrite ruleLabels_length. destruct (params rule); [contradiction | discriminate].
    - unfold ruleLabels. destruct (params rule); [contradiction | discriminate]. }
  set (header := "ID" :: ruleLabels rule) in *.
  destruct (transformToParamValues_returns header body (params rule) Hbody)
    as (sm & Hsm).
  exists grid, sm. split; [exact Hget|]. split; [rewrite Hgrid; exact Hsm|].
  intros id column Hentry.
  unfold SettingMap.entries in Hentry.
  rewrite (table_map header body (params rule) sm Hsm) in Hentry.
  rewrite JsMap_ofList_id in Hentry.
  - rewrite map_map in Hentry. apply in_map_iff in Hentry as (row & Heq & Hrow).
    injection Heq as <- <-.
    assert (Hrow' : In row grid) by (rewrite Hgrid; right; exact Hrow).
    apply Hin in Hrow' as (k & i & r & Hk & Hr & ->).
    destruct (Hrows k i Hk) as (r' & Hr' & Hlen).
    assert (r' = r) by congruence. subst r'.
    exists k, r. split; [reflexivity|]. split.
    + apply forEachRow_values; assumption.
    + destruct (settled_reread s' sheet s1 t (name rule) arr k i r
                  Hsettled Hsheet Hnew Harr Hcount Hk Hr)
        as (pos & arrT & Hpos & HarrT & HrowT).
      exact (setRow_same (name rule) k r t pos arrT Hpos HarrT HrowT).
  - rewrite map_map. cbn [forEachRow fst].
    rewrite Hgrid in Hnd. cbn [List.map] in Hnd. inversion Hnd. assumption.
Qed.

Lemma saved_settings_change_nothing_witness :
  exists grid sm,
    RR.getRule "A" scenarioSynced = Js.Ok (List.map (List.map Some) grid)
    /\ transformToParamValues grid (params scenarioRule) = Js.Ok sm
    /\ forall id column, In (id, column) (SettingMap.entries sm) ->
         exists k r, id = Some k /\ column = List.map Some r
                     /\ RR.setRow "A" k r scenarioReread = scenarioReread.
Proof.
  apply (saved_settings_change_nothing scenarioRule
           [{| id := "1"; displayName := "Campaign 1" |}]
           scenarioRange scenarioSynced scenarioSyncedAfter scenarioReread
           scenarioSyncedValues).
  - exact (new_tidy scenarioGrid scenarioClient scenarioRange
             (proj1 scenarioGrid_good) scenarioRange_built).
  - split; [repeat split; discriminate | discriminate].
  - simpl. intuition discriminate.
  - simpl. repeat constructor; simpl; intuition discriminate.
  - repeat constructor.
  - simpl. repeat constructor; simpl; intuition discriminate.
  - simpl. intuition discriminate.
  - reflexivity.
  - vm_compute. reflexivity.
  - vm_compute. reflexivity.
Defined.

(** ** [writeBack] *)

Lemma reduce_ext_in {A B} (f f' : B -> A -> Js.result B) (l : list A) :
  (forall b x, In x l -> f b x = f' b x) ->
  forall b, RR.reduce f l b = RR.reduce f' l b.
Proof.
  induction l as [|x l IH]; intros H b; [reflexivity|].
  cbn [RR.reduce]. rewrite (H b x (or_introl eq_refl)).
  destruct (f' b x) as [b'|e]; cbn [Js.bind]; [|reflexivity].
  apply IH. intros b0 y Hy. apply H. right. exact Hy.
Qed.

(** With the granularity of all its rules, [getValues] emits what it
    emits without one. *)
Lemma getValues_same_granularity (t : RR.t) (g : string) :
  (forall c, In c (Obj.keys (RR.rules t)) -> c <> "none" ->
     exists ex, Obj.get c (ruleStore (RR.client t)) = Some ex /\ granularity ex = g) ->
  RR.getValues (Some g) t = RR.getValues None t.
Proof.
  intros Hstore. unfold RR.getValues.
  rewrite (reduce_ext_in (RR.getValuesStep (Some g) t) (RR.getValuesStep None t));
    [reflexivity|].
  intros acc entry Hentry. unfold RR.getValuesStep.
  destruct (Js.truthy g); [|reflexivity]. cbn [andb].
  destruct (String.eqb_spec (fst entry) "none") as [_|Hne]; [reflexivity|].
  cbn [negb].
  destruct (Hstore (fst entry) (in_map fst _ _ Hentry) Hne) as (ex & -> & ->).
  rewrite String.eqb_refl. reflexivity.
Qed.

(** X18. [writeBack] reproduces the sheet.  When a stabilized range has
    written a sheet with [getValues()] and a range is built again from
    that sheet, [getValues] with a granularity, as [writeBack] calls it,
    returns the sheet itself, provided every block of the new range other
    than 'none' is that of a rule of the rule store with this
    granularity. *)
Theorem writeBack_reproduces_sheet (s s1 t : RR.t) (sheet : list Row) (g : string) :
  stable s = true ->
  RR.getValues None s = Js.Ok (sheet, s1) ->
  RR.new sheet (RR.client s) RR.defaultHeaders = Js.Ok t ->
  (forall c, In c (Obj.keys (RR.rules t)) -> c <> "none" ->
     exists ex, Obj.get c (ruleStore (RR.client s)) = Some ex /\ granularity ex = g) ->
  exists t1, RR.getValues (Some g) t = Js.Ok (sheet, t1).
Proof.
  intros Hstable Hget Hnew Hstore.
  destruct (stable_getValues s Hstable) as (s' & Hrender).
  rewrite Hrender in Hget. injection Hget as <- _.
  pose proof (stable_wellFormed s Hstable) as Hwf.
  destruct (renderGrid_roundtrip (RR.client s) (layoutOf s) (rowsBlocksOf s) Hwf)
    as (T & T' & HnewT & HgetT).
  rewrite HnewT in Hnew. injection Hnew as <-.
  exists T'. rewrite getValues_same_granularity; [exact HgetT|].
  replace (RR.client T) with (RR.client s); [exact Hstore|].
  rewrite (new_renderGrid (RR.client s) (layoutOf s) (rowsBlocksOf s) Hwf) in HnewT.
  injection HnewT as <-.
  symmetry. apply (parsed_client (RR.client s) (layoutOf s) (rowsBlocksOf s) Hwf).
Qed.

Lemma writeBack_reproduces_sheet_witness :
  exists t1, RR.getValues (Some "g") scenarioReread = Js.Ok (scenarioSyncedValues, t1).
Proof.
  apply (writeBack_reproduces_sheet scenarioSynced scenarioSyncedAfter scenarioReread
           scenarioSyncedValues "g").
  - reflexivity.
  - vm_compute. reflexivity.
  - vm_compute. reflexivity.
  - intros c [<-|[<-|[]]] Hc; [contradiction|].
    eexists. split; reflexivity.
Defined.

(** ** One run of [initializeRules] prepares the next *)

Lemma setRow_withClient c category id column s :
  RR.setRow category id column (withClient c s)
  = withClient c (RR.setRow category id column s).
Proof.
  unfold RR.setRow, withClient. cbn [RR.rowIndex RR.rules RR.length RR.columnOrders].
  destruct (String.eqb id ""); [reflexivity|].
  destruct (Obj.get id (RR.rowIndex s)); reflexivity.
Qed.

Lemma fold_withClient {A} c (f : RR.t -> A -> RR.t) (l : list A) :
  (forall s x, f (withClient c s) x = withClient c (f s x)) ->
  forall s, fold_left f l (withClient c s) = withClient c (fold_left f l s).
Proof.
  intros Hf. induction l as [|x l IH]; intros s; [reflexivity|].
  cbn [fold_left]. rewrite Hf. apply IH.
Qed.

(** The constructor does not look at the client. *)
Lemma new_withClient range c1 c2 s1 :
  RR.new range c1 RR.defaultHeaders = Js.Ok s1 ->
  RR.new range c2 RR.defaultHeaders = Js.Ok (withClient c2 s1).
Proof.
  rewrite !new_unfold. unfold RR.setRules.
  destruct range as [|header body]; [discriminate|].
  set (run := fold_left (RR.setRulesRow header (thresholdsOf header)) (header :: body)).
  intros [= <-]. f_equal. unfold run.
  change (initialRange c2) with (withClient c2 (initialRange c1)).
  apply fold_withClient. intros s row. unfold RR.setRulesRow.
  apply fold_withClient. intros s' th. apply setRow_withClient.
Qed.

(** X19. One run of [initializeRules] prepares the next.  Under the
    conditions of X15, with at least one rule class, the grid that
    [initializeRules] writes is a good sheet, and the constructor, with any
    client, builds from it a range whose blocks are those of the rule
    classes in their order: a later run with the same rule classes, or with
    more rule classes after them, meets the conditions again. *)
Theorem initializeRules_prepares_next (sheetValues : list Row)
    (client : Client) (rows : list RecordInfo) (ruleClasses : list RuleClass)
    (m : nat) (s0 : RR.t) (values : list Row) (offsets : Obj.t Z) :
  goodSheet sheetValues ->
  Forall (fun rc => goodRule (definition rc) /\ defaults (definition rc) <> None)
         ruleClasses ->
  List.NoDup (List.map (fun rc => name (definition rc)) ruleClasses) ->
  ~ In "ID" (List.map id rows) ->
  RR.new sheetValues client RR.defaultHeaders = Js.Ok s0 ->
  Obj.keys (RR.rules s0)
  = "none" :: List.map (fun rc => name (definition rc)) (take m ruleClasses) ->
  ruleClasses <> [] ->
  initializeRules sheetValues client rows ruleClasses = Js.Ok (values, offsets) ->
  goodSheet values
  /\ forall client',
       exists s0',
         RR.new values client' RR.defaultHeaders = Js.Ok s0'
         /\ Obj.keys (RR.rules s0')
            = "none" :: List.map (fun rc => name (definition rc)) ruleClasses.
Proof.
  intros Hsheet Hgood Hnames HnoID Hnew Hkeys Hne Hinit.
  assert (Hinv0 : LoopInv ruleClasses m 0
                    {| rules := s0; offsets := []; currentOffset := 4 |}).
  { constructor; cbn [rules].
    - exact (new_tidy sheetValues client s0 Hsheet Hnew).
    - intros H. contradiction.
    - rewrite Nat.max_0_r. exact Hkeys.
    - intros j rc Hj. lia.
    - intros j rc Hj. lia.
    - reflexivity. }
  destruct (loop_runs rows ruleClasses m Hgood Hnames HnoID ruleClasses 0 _
              (Nat.le_0_l _) eq_refl Hinv0) as (st & Hred & Hinv).
  unfold initializeRules in Hinit. rewrite Hnew in Hinit. cbn [Js.bind] in Hinit.
  rewrite Hred in Hinit. cbn [Js.bind] in Hinit.
  destruct (RR.getValues None (rules st)) as [[v s']|e] eqn:Hget;
    cbn [Js.bind fst] in Hinit; [|discriminate].
  injection Hinit as -> _.
  assert (Hn : length ruleClasses <> 0)
    by (intros Hl; apply Hne, List.length_zero_iff_nil, Hl).
  pose proof (li_settled _ _ _ _ Hinv Hn) as Hsettled.
  split; [exact (settled_goodSheet _ _ _ Hsettled Hget)|].
  intros client'.
  pose proof (settled_stable _ Hsettled) as Hstable.
  destruct (stable_getValues _ Hstable) as (s'' & Hrender).
  rewrite Hrender in Hget. injection Hget as <- _.
  pose proof (stable_wellFormed _ Hstable) as Hwf.
  pose proof (new_renderGrid (RR.client (rules st)) _ _ Hwf) as HnewT.
  exists (withClient client'
            (parseRows (rowsBlocksOf (rules st))
                       (initialRange (RR.client (rules st))))).
  split; [exact (new_withClient _ _ client' _ HnewT)|].
  unfold withClient. cbn [RR.rules].
  rewrite (parsed_rules_keys (RR.client (rules st)) _ _ Hwf).
  rewrite <- (loop_emitted ruleClasses m Hgood st Hne Hinv).
  unfold layoutOf, Obj.keys. rewrite map_map. reflexivity.
Qed.

Lemma initializeRules_prepares_next_witness :
  goodSheet scenarioSyncedValues
  /\ forall client',
       exists s0',
         RR.new scenarioSyncedValues client' RR.defaultHeaders = Js.Ok s0'
         /\ Obj.keys (RR.rules s0')
            = "none" :: List.map (fun rc => name (definition rc)) scenarioClasses.
Proof.
  apply (initializeRules_prepares_next scenarioGrid scenarioClient
           [{| id := "1"; displayName := "Campaign 1" |}] scenarioClasses 1
           scenarioRange scenarioSyncedValues [("A", 3%Z)]).
  - exact (proj1 scenarioGrid_good).
  - repeat constructor; simpl; try discriminate.
  - simpl. repeat constructor; simpl; intuition discriminate.
  - simpl. intuition discriminate.
  - reflexivity.
  - reflexivity.
  - discriminate.
  - vm_compute. reflexivity.
Defined.

(** ** [addSettingWithDescription] *)

Lemma substring_app_skip (h t : string) (n m : nat) :
  String.substring (String.length h + n) m (String.append h t)
  = String.substring n m t.
Proof.
  induction h as [|c h IH]; [reflexivity|]. exact IH.
Qed.

Lemma substring_app_prefix (h t : string) :
  String.substring 0 (String.length h) (String.append h t) = h.
Proof.
  induction h as [|c h IH]; [destruct t; reflexivity|].
  cbn [String.length]. rewrite string_app_cons. cbn [String.substring].
  f_equal. exact IH.
Qed.

(** X20. [addSettingWithDescription] styles the headline in bold, but the
    range it styles as small begins at the line feed between headline and
    description and ends one character early: the small text is the line
    feed followed by the description without its last character. *)
Theorem addSettingWithDescription_runs (headline description : string) :
  let v := addSettingWithDescription headline description in
  exists boldRun smallRun,
    textStyles v = [boldRun; smallRun]
    /\ styledText v boldRun = headline
    /\ styledText v smallRun
       = match description with
         | EmptyString => EmptyString
         | String _ _ =>
             String linefeed
               (String.substring 0 (String.length description - 1) description)
         end.
Proof.
  cbv zeta. eexists _, _. split; [reflexivity|]. split.
  - unfold styledText, addSettingWithDescription.
    cbn [richText fst snd String.concat]. rewrite Nat.sub_0_r.
    apply substring_app_prefix.
  - unfold styledText, addSettingWithDescription.
    cbn [richText fst snd String.concat].
    replace (String.length headline + String.length description
             - String.length headline) with (String.length description) by lia.
    rewrite <- (Nat.add_0_r (String.length headline)) at 1.
    rewrite substring_app_skip.
    destruct description as [|c d]; [reflexivity|].
    rewrite string_app_cons, string_app_nil_l.
    change (String.length (String c d)) with (S (String.length d)).
    replace (S (String.length d) - 1) with (String.length d) by lia.
    reflexivity.
Qed.

(** ** The sheet after a pass *)



(** ** The version comparator on single-digit segments *)

Lemma digit_split (a b c : nat) :
  a < 10 -> b < 10 -> c < 10 ->
  Js.split "." (version3 (a, b, c)) = [digit a; digit b; digit c].
Proof.
  intros Ha Hb Hc.
  destruct a as [|[|[|[|[|[|[|[|[|[|a]]]]]]]]]]; try lia;
  destruct b as [|[|[|[|[|[|[|[|[|[|b]]]]]]]]]]; try lia;
  destruct c as [|[|[|[|[|[|[|[|[|[|c]]]]]]]]]]; try lia; reflexivity.
Qed.

Lemma digit_difference (a a' : nat) :
  a < 10 -> a' < 10 ->
  (Js.Number (digit a) - Js.Number (digit a'))%float
  = floatOfZ (Z.of_nat a - Z.of_nat a').
Proof.
  intros Ha Ha'.
  destruct a as [|[|[|[|[|[|[|[|[|[|a]]]]]]]]]]; try lia;
  destruct a' as [|[|[|[|[|[|[|[|[|[|a']]]]]]]]]]; try lia; vm_compute; reflexivity.
Qed.

Lemma digitDifferences_in (a a' : nat) :
  a < 10 -> a' < 10 -> In (Z.of_nat a - Z.of_nat a')%Z digitDifferences.
Proof.
  intros Ha Ha'. unfold digitDifferences. apply in_map_iff.
  exists (9 + a - a'). split; [lia|]. apply in_seq. lia.
Qed.

Lemma weighted_sign :
  forallb (fun d1 => forallb (fun d2 => forallb (fun d3 =>
     Bool.eqb (positive (weighted d1 d2 d3)) (firstPositive d1 d2 d3)
     && Bool.eqb (negative (weighted d1 d2 d3))
          (firstPositive (- d1) (- d2) (- d3)))
     digitDifferences) digitDifferences) digitDifferences = true.
Proof. vm_compute. reflexivity. Qed.

Lemma newer_firstPositive (a b c a' b' c' : nat) :
  newer (a, b, c) (a', b', c')
  = firstPositive (Z.of_nat a - Z.of_nat a') (Z.of_nat b - Z.of_nat b')
      (Z.of_nat c - Z.of_nat c').
Proof.
  unfold newer, firstPositive.
  repeat match goal with
  | |- context [?x <? ?y] => destruct (Nat.ltb_spec x y)
  | |- context [?x =? ?y] => destruct (Nat.eqb_spec x y)
  | |- context [(?x <? ?y)%Z] => destruct (Z.ltb_spec x y)
  | |- context [(?x =? ?y)%Z] => destruct (Z.eqb_spec x y)
  end; cbn; try reflexivity; lia.
Qed.

(** X22. Versions of three single-digit segments are compared
    rightly: [sortMigrations(v, w)] is positive exactly when [v] is the
    later version and negative exactly when [w] is. *)
Theorem sortMigrations_single_digits (v w : nat * nat * nat) :
  singleDigits v -> singleDigits w ->
  positive (sortMigrations (version3 v) (version3 w)) = newer v w
  /\ negative (sortMigrations (version3 v) (version3 w)) = newer w v.
Proof.
  destruct v as [[a b] c], w as [[a' b'] c'].
  intros (Ha & Hb & Hc) (Ha' & Hb' & Hc').
  unfold sortMigrations.
  rewrite !digit_split by assumption.
  cbn [List.map List.length Nat.max seq fold_left nth].
  rewrite !digit_difference by assumption.
  fold (weighted (Z.of_nat a - Z.of_nat a') (Z.of_nat b - Z.of_nat b')
          (Z.of_nat c - Z.of_nat c')).
  pose proof weighted_sign as Hall.
  rewrite forallb_forall in Hall.
  specialize (Hall _ (digitDifferences_in a a' Ha Ha')).
  rewrite forallb_forall in Hall.
  specialize (Hall _ (digitDifferences_in b b' Hb Hb')).
  rewrite forallb_forall in Hall.
  specialize (Hall _ (digitDifferences_in c c' Hc Hc')).
  apply andb_prop in Hall. destruct Hall as [Hpos Hneg].
  apply Bool.eqb_prop in Hpos. apply Bool.eqb_prop in Hneg.
  rewrite Hpos, Hneg, !newer_firstPositive.
  split; [reflexivity|]. f_equal; lia.
Qed.

Lemma sortMigrations_single_digits_witness :
  positive (sortMigrations "2.0.0" "1.9.9") = true
  /\ negative (sortMigrations "2.0.0" "1.9.9") = false.
Proof.
  apply (sortMigrations_single_digits (2, 0, 0) (1, 9, 9));
    unfold singleDigits; lia.
Defined.
